(** * Bookstore analysis: user deduplication and top-customer resolution

    A shallow embedding of [src/analyze.py]: the [UnionFind] class,
    [deduplicate_users], [find_top_customer] and
    [count_unique_author_sets], together with the properties the
    specification states about them and further properties of the code.

    Python dictionaries keep insertion order, and several loops of the
    source iterate over dictionaries, so a dictionary is an association
    list with unique keys in insertion order.  Python exceptions are
    explicit results. *)

From stdpp Require Import base decidable option list numbers strings relations sorting.
From stdpp Require Import gmap.
From Stdlib Require Import ZArith QArith Lia.

Local Open Scope Z_scope.

(** ** Exceptions and results *)

Inductive exn : Set :=
| RecursionError   (* the recursion of [find] ran out of stack *)
| KeyError         (* [d[k]] on a missing key *)
| ValueError       (* [min] or [max] of an empty collection *)
| RuntimeError.    (* dictionary changed size during iteration *)

Inductive res (A : Type) : Type :=
| Ok (a : A)
| Raise (e : exn).
Arguments Ok {A} a.
Arguments Raise {A} e.

#[global] Instance res_ret : MRet res := λ A a, Ok a.
#[global] Instance res_bind : MBind res := λ A B k m,
  match m with
  | Ok a => k a
  | Raise e => Raise e
  end.

(** ** Dictionaries in insertion order *)

Section dict.
Context {K V : Type} `{EqDecision K}.

(** [d.get(k)] *)
Fixpoint dict_get (k : K) (d : list (K * V)) : option V :=
  match d with
  | [] => None
  | (k', v) :: d' => if decide (k' = k) then Some v else dict_get k d'
  end.

(** [d[k] = v]: an existing key keeps its place, a new key goes last. *)
Fixpoint dict_set (k : K) (v : V) (d : list (K * V)) : list (K * V) :=
  match d with
  | [] => [(k, v)]
  | (k', v') :: d' =>
      if decide (k' = k) then (k, v) :: d' else (k', v') :: dict_set k v d'
  end.

(** [k in d] *)
Definition dict_mem (k : K) (d : list (K * V)) : bool :=
  match dict_get k d with Some _ => true | None => false end.

(** [d[k]], which raises on a missing key *)
Definition dict_index (k : K) (d : list (K * V)) : res V :=
  match dict_get k d with Some v => Ok v | None => Raise KeyError end.

Definition dict_keys (d : list (K * V)) : list K := d.*1.
Definition dict_values (d : list (K * V)) : list V := d.*2.
End dict.

(** ** The disjoint-set structure *)

Record UnionFind : Type := mkUF {
  parent : list (Z * Z);
  rank : list (Z * Z)
}.

(** [UnionFind.__init__] *)
Definition UnionFind_init : UnionFind := mkUF [] [].

(** [UnionFind.find]; [fuel] is the recursion depth available. *)
Fixpoint find (fuel : nat) (uf : UnionFind) (x : Z) : res (UnionFind * Z) :=
  match fuel with
  | O => Raise RecursionError
  | S fuel' =>
      let uf1 :=
        if dict_mem x (parent uf) then uf
        else mkUF (dict_set x x (parent uf)) (dict_set x 0 (rank uf)) in
      px ← dict_index x (parent uf1);
      if decide (px ≠ x) then
        '(uf2, r) ← find fuel' uf1 px;
        let uf3 := mkUF (dict_set x r (parent uf2)) (rank uf2) in
        res ← dict_index x (parent uf3);
        Ok (uf3, res)
      else
        res ← dict_index x (parent uf1);
        Ok (uf1, res)
  end.

(** [UnionFind.union] *)
Definition union (fuel : nat) (uf : UnionFind) (x y : Z) : res UnionFind :=
  '(uf1, root_x) ← find fuel uf x;
  '(uf2, root_y) ← find fuel uf1 y;
  if decide (root_x = root_y) then Ok uf2
  else
    rank_x ← dict_index root_x (rank uf2);
    rank_y ← dict_index root_y (rank uf2);
    let '(root_x, root_y) :=
      if decide (rank_x < rank_y) then (root_y, root_x) else (root_x, root_y) in
    let uf3 := mkUF (dict_set root_y root_x (parent uf2)) (rank uf2) in
    rank_x ← dict_index root_x (rank uf3);
    rank_y ← dict_index root_y (rank uf3);
    if decide (rank_x = rank_y) then
      Ok (mkUF (parent uf3) (dict_set root_x (rank_x + 1) (rank uf3)))
    else Ok uf3.

(** A Python set of integers, in insertion order. *)
Definition set_add {A} `{EqDecision A} (x : A) (s : list A) : list A :=
  if decide (x ∈ s) then s else s ++ [x].

(** The loop of [UnionFind.get_groups] over a snapshot [ks] of the keys:
    [groups[root].add(x)] on a [defaultdict(set)].  The live dictionary is
    iterated, so a change of its size is an error. *)
Fixpoint get_groups_loop (fuel : nat) (ks : list Z) (uf : UnionFind)
    (groups : list (Z * list Z)) : res (UnionFind * list (Z * list Z)) :=
  match ks with
  | [] => Ok (uf, groups)
  | x :: ks' =>
      '(uf1, root) ← find fuel uf x;
      if decide (length (parent uf1) = length (parent uf)) then
        let members := default [] (dict_get root groups) in
        get_groups_loop fuel ks' uf1 (dict_set root (set_add x members) groups)
      else Raise RuntimeError
  end.

(** [UnionFind.get_groups] *)
Definition get_groups (fuel : nat) (uf : UnionFind) :
    res (UnionFind * list (Z * list Z)) :=
  get_groups_loop fuel (dict_keys (parent uf)) uf [].


(** ** User records *)

(** A cell of the users table: [None], a pandas missing value ([NaN]) or
    a string. *)
Inductive pyval : Set :=
| PNone
| PNaN
| PStr (s : string).

#[global] Instance pyval_eq_dec : EqDecision pyval.
Proof. solve_decision. Defined.

(** [pd.notna(v)] *)
Definition pd_notna (v : pyval) : bool :=
  match v with PStr _ => true | _ => false end.

(** [bool(v)]: [None] and the empty string are false, [NaN] is true. *)
Definition truthy (v : pyval) : bool :=
  match v with
  | PNone => false
  | PNaN => true
  | PStr s => negb (String.eqb s "")
  end.

(** [v1 == v2]: [NaN] differs from everything, itself included. *)
Definition py_eq (v1 v2 : pyval) : bool :=
  match v1, v2 with
  | PNone, PNone => true
  | PStr s1, PStr s2 => String.eqb s1 s2
  | _, _ => false
  end.

Record user_row : Set := mkUser {
  row_id : Z;
  email_normalized : pyval;
  phone_normalized : pyval;
  name_normalized : pyval;
  address_normalized : pyval
}.

(** ** [deduplicate_users] *)

(** Step 1: [for uid in users_df['id']: uf.find(uid)] *)
Fixpoint register_all (fuel : nat) (uids : list Z) (uf : UnionFind) : res UnionFind :=
  match uids with
  | [] => Ok uf
  | uid :: uids' => '(uf1, _) ← find fuel uf uid; register_all fuel uids' uf1
  end.

(** Step 2: one index, [by_x[v].append(uid)] when [pd.notna(v) and v]. *)
Definition index_add (v : pyval) (uid : Z) (idx : list (pyval * list Z)) :
    list (pyval * list Z) :=
  if pd_notna v && truthy v
  then dict_set v (default [] (dict_get v idx) ++ [uid]) idx
  else idx.

Record indexes : Set := mkIndexes {
  by_email : list (pyval * list Z);
  by_phone : list (pyval * list Z);
  by_name : list (pyval * list Z);
  by_address : list (pyval * list Z)
}.

Definition index_row (ix : indexes) (row : user_row) : indexes :=
  let uid := row_id row in
  {| by_email := index_add (email_normalized row) uid (by_email ix);
     by_phone := index_add (phone_normalized row) uid (by_phone ix);
     by_name := index_add (name_normalized row) uid (by_name ix);
     by_address := index_add (address_normalized row) uid (by_address ix) |}.

Definition build_indexes (users : list user_row) : indexes :=
  foldl index_row (mkIndexes [] [] [] []) users.

(** Step 3: [user_data[row['id']] = {'email': ..., ...}] *)
Definition row_fields (row : user_row) : list (string * pyval) :=
  [("email"%string, email_normalized row);
   ("phone"%string, phone_normalized row);
   ("name"%string, name_normalized row);
   ("address"%string, address_normalized row)].

Definition build_user_data (users : list user_row) :
    list (Z * list (string * pyval)) :=
  foldl (λ ud row, dict_set (row_id row) (row_fields row) ud) [] users.

(** Step 4: the pairs of one bucket,
    [for i, u1 in enumerate(users_list): for u2 in users_list[i+1:]] *)
Fixpoint bucket_pairs (users_list : list Z) (pairs : list (Z * Z)) : list (Z * Z) :=
  match users_list with
  | [] => pairs
  | u1 :: rest =>
      bucket_pairs rest
        (foldl (λ ps u2, set_add (Z.min u1 u2, Z.max u1 u2) ps) pairs rest)
  end.

(** [for users_list in by_x.values(): if len(users_list) > 1: ...] *)
Definition index_pairs (idx : list (pyval * list Z)) (pairs : list (Z * Z)) :
    list (Z * Z) :=
  foldl
    (λ ps users_list,
       if decide (1 < length users_list)%nat then bucket_pairs users_list ps else ps)
    pairs (dict_values idx).

Definition potential_pairs (ix : indexes) : list (Z * Z) :=
  index_pairs (by_address ix)
    (index_pairs (by_name ix)
       (index_pairs (by_phone ix)
          (index_pairs (by_email ix) []))).

(** Step 5: the inner loop over the four fields. *)
Definition FIELDS : list string := ["email"; "phone"; "name"; "address"]%string.

Definition count_matches (d1 d2 : list (string * pyval)) : Z :=
  foldl
    (λ matches field,
       let v1 := default PNone (dict_get field d1) in
       let v2 := default PNone (dict_get field d2) in
       if truthy v1 && truthy v2
       then (if py_eq v1 v2 then matches + 1 else matches)
       else matches)
    0 FIELDS.

(** The body of [for u1, u2 in potential_pairs]. *)
Definition judge_pair (fuel : nat) (user_data : list (Z * list (string * pyval)))
    (uf : UnionFind) (p : Z * Z) : res UnionFind :=
  let '(u1, u2) := p in
  d1 ← dict_index u1 user_data;
  d2 ← dict_index u2 user_data;
  let matches := count_matches d1 d2 in
  if decide (3 ≤ matches) then union fuel uf u1 u2 else Ok uf.

Fixpoint judge_pairs (fuel : nat) (user_data : list (Z * list (string * pyval)))
    (pairs : list (Z * Z)) (uf : UnionFind) : res UnionFind :=
  match pairs with
  | [] => Ok uf
  | p :: pairs' =>
      uf1 ← judge_pair fuel user_data uf p;
      judge_pairs fuel user_data pairs' uf1
  end.

(** Step 6: [min(members)] and [sorted(list(members))]. *)
Definition py_min (members : list Z) : res Z :=
  match members with
  | [] => Raise ValueError
  | x :: rest => Ok (foldl (λ m y, if decide (y < m) then y else m) x rest)
  end.

Definition sorted (l : list Z) : list Z := merge_sort Z.le l.

Fixpoint canonical_groups (groups : list (list Z)) (acc : list (Z * list Z)) :
    res (list (Z * list Z)) :=
  match groups with
  | [] => Ok acc
  | members :: groups' =>
      m ← py_min members;
      canonical_groups groups' (dict_set m (sorted members) acc)
  end.

(** [deduplicate_users].  CPython enumerates the set [potential_pairs] in
    hash-table order; [set_order] is that enumeration. *)
Definition deduplicate_users (set_order : list (Z * Z) → list (Z * Z))
    (fuel : nat) (users : list user_row) : res (nat * list (Z * list Z)) :=
  uf ← register_all fuel (row_id <$> users) UnionFind_init;
  let ix := build_indexes users in
  let user_data := build_user_data users in
  let pairs := potential_pairs ix in
  uf ← judge_pairs fuel user_data (set_order pairs) uf;
  '(_, groups) ← get_groups fuel uf;
  user_groups ← canonical_groups (dict_values groups) [];
  let unique_count := length groups in
  Ok (unique_count, user_groups).

(** ** [find_top_customer] *)

(** The arithmetic on prices that the source takes from Python and pandas
    floats: zero, addition, the comparison [>] and [round(_, 2)]. *)
Class Money (M : Type) : Type := {
  m_zero : M;
  m_add : M → M → M;
  m_gt : M → M → bool;
  m_round2 : M → M
}.

Record order_row (M : Type) : Type := mkOrder {
  user_id : Z;
  paid_price : M
}.
Arguments mkOrder {M} _ _.
Arguments user_id {M} _.
Arguments paid_price {M} _.

Section top_customer.
Context {M : Type} `{Money M}.

(** [orders_df.groupby('user_id')['paid_price'].sum().to_dict()]: the keys
    in ascending order, each with the sum of its rows. *)
Definition groupby_sum (orders : list (order_row M)) : list (Z * M) :=
  (λ k, (k, foldl m_add m_zero
              (paid_price <$> filter (λ o, user_id o = k) orders)))
    <$> sorted (remove_dups (user_id <$> orders)).

(** Step 2: [for uid in members: user_to_canonical[uid] = canonical] *)
Definition invert_group (user_to_canonical : list (Z * Z))
    (entry : Z * list Z) : list (Z * Z) :=
  let '(canonical, members) := entry in
  foldl (λ u2c uid, dict_set uid canonical u2c) user_to_canonical members.

Definition build_user_to_canonical (user_groups : list (Z * list Z)) :
    list (Z * Z) :=
  foldl invert_group [] user_groups.

(** Step 3: [canonical_spending[canonical] += spending] on a
    [defaultdict(float)] *)
Definition canonical_id (user_to_canonical : list (Z * Z)) (uid : Z) : Z :=
  default uid (dict_get uid user_to_canonical).   (* [.get(uid, uid)] *)

Definition spend_step (user_to_canonical : list (Z * Z))
    (canonical_spending : list (Z * M)) (entry : Z * M) : list (Z * M) :=
  let '(uid, spending) := entry in
  let canonical := canonical_id user_to_canonical uid in
  dict_set canonical
    (m_add (default m_zero (dict_get canonical canonical_spending)) spending)
    canonical_spending.

Definition build_canonical_spending (user_to_canonical : list (Z * Z))
    (user_spending : list (Z * M)) : list (Z * M) :=
  foldl (spend_step user_to_canonical) [] user_spending.

(** [max(d, key=d.get)]: the first key whose value no later one exceeds. *)
Definition py_max_key (d : list (Z * M)) : res Z :=
  let key k := default m_zero (dict_get k d) in
  match dict_keys d with
  | [] => Raise ValueError
  | k :: ks =>
      Ok (foldl (λ best k, if m_gt (key k) (key best) then k else best) k ks)
  end.

Definition top_customer_of (user_spending : list (Z * M))
    (user_groups : list (Z * list Z)) : res (list Z * M) :=
  let user_to_canonical := build_user_to_canonical user_groups in
  let canonical_spending :=
    build_canonical_spending user_to_canonical user_spending in
  top_canonical ← py_max_key canonical_spending;
  total_spent ← dict_index top_canonical canonical_spending;
  let all_ids := default [top_canonical] (dict_get top_canonical user_groups) in
  Ok (sorted all_ids, m_round2 total_spent).

Definition find_top_customer (orders : list (order_row M))
    (user_groups : list (Z * list Z)) : res (list Z * M) :=
  top_customer_of (groupby_sum orders) user_groups.
End top_customer.

(** ** [count_unique_author_sets] *)

(** Python's [<=] on [str]: the lexicographic order of the code points,
    which is that of the bytes of the UTF-8 encoding. *)
Definition str_le (a b : string) : Prop := String.leb a b = true.

#[global] Instance str_le_dec : RelDecision str_le.
Proof. intros a b. unfold str_le. apply _. Defined.

Definition sorted_str : list string → list string := merge_sort str_le.

(** A cell of the column [author_set] holds a [frozenset] of names or
    [None]. *)
Definition author_set : Type := gset string.

(** The loop [unique_sets.add(author_set)] over the column. *)
Definition collect_author_sets (column : list (option author_set)) : list author_set :=
  foldl (λ unique_sets cell,
           match cell with
           | Some aset => set_add aset unique_sets
           | None => unique_sets
           end) [] column.

(** [', '.join(sorted(list(aset)))]; [frozenset_iter] is the order in which
    CPython enumerates a [frozenset]. *)
Definition author_set_string (frozenset_iter : author_set → list string)
    (aset : author_set) : string :=
  String.concat ", " (sorted_str (frozenset_iter aset)).

(** [count_unique_author_sets]; [set_iter] is the order in which CPython
    enumerates the set [unique_sets]. *)
Definition count_unique_author_sets
    (set_iter : list author_set → list author_set)
    (frozenset_iter : author_set → list string)
    (column : list (option author_set)) : nat * list string :=
  let unique_sets := collect_author_sets column in
  let author_set_strings :=
    author_set_string frozenset_iter <$> set_iter unique_sets in
  (length unique_sets, sorted_str author_set_strings).

(** * Specification vocabulary *)

(** [repr P x r n]: following the parent links of [P] from [x] reaches the
    self-parented [r] after [n] steps. *)
Inductive repr (P : list (Z * Z)) : Z → Z → nat → Prop :=
| repr_root x : dict_get x P = Some x → repr P x x 0
| repr_step x p r n :
    dict_get x P = Some p → p ≠ x → repr P p r n → repr P x r (S n).

(** The root [find] answers for [z]: the end of its chain, or [z] itself
    when [z] was never seen. *)
Definition rootR (P : list (Z * Z)) (z r : Z) : Prop :=
  (∃ n, repr P z r n) ∨ ((z ∉ dict_keys P) ∧ r = z).

(** [P'] is [P] after path compressions: the same keys, and every link is
    the old one or goes straight to the old root. *)
Definition compress_rel (P P' : list (Z * Z)) : Prop :=
  dict_keys P' = dict_keys P ∧
  ∀ y p', dict_get y P' = Some p' →
          dict_get y P = Some p' ∨ (∃ n, repr P y p' n).

Record uf_inv (uf : UnionFind) (h : nat) : Prop := mk_uf_inv {
  inv_height : ∀ x, x ∈ dict_keys (parent uf) →
               ∃ r n, repr (parent uf) x r n ∧ (n ≤ h)%nat;
  inv_rank_keys : dict_keys (rank uf) = dict_keys (parent uf);
  inv_nodup : NoDup (dict_keys (parent uf))
}.

(** [a] and [b] are in one group: [find] answers the same root for both. *)
Definition same_group (P : list (Z * Z)) (a b : Z) : Prop :=
  ∃ r, rootR P a r ∧ rootR P b r.

(** What the dictionary [groups] holds once the keys [seen] are bucketed. *)
Record groups_inv (P : list (Z * Z)) (seen : list Z)
    (groups : list (Z * list Z)) : Prop := mk_groups_inv {
  gi_keys : NoDup (dict_keys groups);
  gi_members : ∀ r ms, dict_get r groups = Some ms → NoDup ms ∧ ms ≠ [];
  gi_elem : ∀ r ms x, dict_get r groups = Some ms →
            (x ∈ ms ↔ x ∈ seen ∧ rootR P x r);
  gi_root : ∀ x r, x ∈ seen → rootR P x r → r ∈ dict_keys groups
}.

Inductive uf_op : Set :=
| OpFind (x : Z)
| OpUnion (x y : Z)
| OpGetGroups.

Definition run_op (fuel : nat) (uf : UnionFind) (op : uf_op) : res UnionFind :=
  match op with
  | OpFind x => '(uf', _) ← find fuel uf x; Ok uf'
  | OpUnion x y => union fuel uf x y
  | OpGetGroups => '(uf', _) ← get_groups fuel uf; Ok uf'
  end.

Fixpoint run_ops (fuel : nat) (ops : list uf_op) (uf : UnionFind) : res UnionFind :=
  match ops with
  | [] => Ok uf
  | op :: ops' => uf' ← run_op fuel uf op; run_ops fuel ops' uf'
  end.

Definition is_union (op : uf_op) : bool :=
  match op with OpUnion _ _ => true | _ => false end.

Definition union_calls (ops : list uf_op) : nat :=
  length (filter (λ op, is_union op = true) ops).

(** [union(a, b)] was called. *)
Definition unioned (ops : list uf_op) (a b : Z) : Prop := OpUnion a b ∈ ops.

(** The reflexive, symmetric, transitive closure of the union calls. *)
Definition connected (ops : list uf_op) : relation Z := rtsc (unioned ops).

(** A proper parent link, and the absence of cycles through them. *)
Definition link (P : list (Z * Z)) (a b : Z) : Prop :=
  dict_get a P = Some b ∧ b ≠ a.

Definition acyclic (P : list (Z * Z)) : Prop :=
  (∀ x, x ∈ dict_keys P → ∃ r n, repr P x r n) ∧
  (∀ x, ¬ tc (link P) x x).

(** A present value: not null and not the empty string. *)
Definition present (v : pyval) : Prop := ∃ s, v = PStr s ∧ s ≠ ""%string.

#[global] Instance present_dec v : Decision (present v).
Proof.
  refine (match v with
          | PStr s => cast_if_not (decide (s = ""%string))
          | _ => right _
          end); unfold present.
  - intros (s & ? & _). done.
  - intros (s & ? & _). done.
  - intros (s' & [= <-] & ?). done.
  - eauto.
Defined.

Definition field_values (r : user_row) : list pyval :=
  [email_normalized r; phone_normalized r; name_normalized r; address_normalized r].

(** The match count in the specification's words: the fields where both
    records have a present value and the values are equal. *)
Definition spec_match_count (r1 r2 : user_row) : nat :=
  length (filter (λ vs, present vs.1 ∧ present vs.2 ∧ vs.1 = vs.2)
                 (zip (field_values r1) (field_values r2))).

(** The fields that can be compared: present on both sides. *)
Definition comparable_count (r1 r2 : user_row) : nat :=
  length (filter (λ vs, present vs.1 ∧ present vs.2)
                 (zip (field_values r1) (field_values r2))).

(** [a] occurs in the list strictly before [b]. *)
Inductive ordered_pair {A : Type} : list A → A → A → Prop :=
| ordered_here x l b : b ∈ l → ordered_pair (x :: l) x b
| ordered_later x l a b : ordered_pair l a b → ordered_pair (x :: l) a b.

Definition field_getters : list (user_row → pyval) :=
  [email_normalized; phone_normalized; name_normalized; address_normalized].

(** Two records share a present value of one of the four fields. *)
Definition shares_field (r1 r2 : user_row) : Prop :=
  ∃ f, f ∈ field_getters ∧ present (f r1) ∧ f r1 = f r2.

(** One index of step 2 on its own. *)
Definition index_from (f : user_row → pyval) (idx : list (pyval * list Z))
    (users : list user_row) : list (pyval * list Z) :=
  foldl (λ idx row, index_add (f row) (row_id row) idx) idx users.

Definition min_max (a b : Z) : Z * Z := (Z.min a b, Z.max a b).

Definition ids_with (f : user_row → pyval) (v : pyval) (users : list user_row) :
    list Z :=
  row_id <$> filter (λ r, f r = v) users.

(** The decision of step 5 on one candidate pair. *)
Definition judged (user_data : list (Z * list (string * pyval))) (p : Z * Z) : bool :=
  match dict_get p.1 user_data, dict_get p.2 user_data with
  | Some d1, Some d2 => bool_decide (3 ≤ count_matches d1 d2)
  | _, _ => false
  end.

(** The [union] calls of step 5, in the order of the loop. *)
Definition union_ops (user_data : list (Z * list (string * pyval)))
    (pairs : list (Z * Z)) : list uf_op :=
  (λ p, OpUnion p.1 p.2) <$> filter (λ p, judged user_data p = true) pairs.

(** Every call on the structure made by steps 1 and 5. *)
Definition dedup_ops (set_order : list (Z * Z) → list (Z * Z))
    (users : list user_row) : list uf_op :=
  (OpFind <$> (row_id <$> users)) ++
  union_ops (build_user_data users)
            (set_order (potential_pairs (build_indexes users))).

Definition op_ids (op : uf_op) : list Z :=
  match op with
  | OpFind x => [x]
  | OpUnion x y => [x; y]
  | OpGetGroups => []
  end.

(** How an entry of the result relates to the bucket it comes from. *)
Definition canonical_of (members : list Z) (e : Z * list Z) : Prop :=
  e.2 = sorted members ∧ e.1 ∈ members ∧ ∀ z, z ∈ members → e.1 ≤ z.

(** Exact decimal amounts: rationals, with [round(_, 2)] as rounding to
    the nearest hundredth, ties to even. *)
Definition Q_round2 (q : Q) : Q :=
  let x := (Qnum q * 100)%Z in
  let d := Z.pos (Qden q) in
  let fl := (x `div` d)%Z in
  let r2 := (2 * (x `mod` d))%Z in
  let n := if (r2 <? d)%Z then fl
           else if (d <? r2)%Z then (fl + 1)%Z
           else if Z.even fl then fl else (fl + 1)%Z in
  Qred (Qmake n 100).

#[global] Instance Q_money : Money Q := {|
  m_zero := 0%Q;
  m_add := λ a b, Qred (a + b)%Q;
  m_gt := λ a b, negb (Qle_bool a b);
  m_round2 := Q_round2
|}.

Definition user_101 : user_row :=
  mkUser 101 (PStr "a@x.com") (PStr "555") (PStr "john") (PStr "1 st").
Definition user_102 : user_row :=
  mkUser 102 (PStr "a@x.com") (PStr "555") (PStr "jon") (PStr "1 st").
Definition user_103 : user_row :=
  mkUser 103 (PStr "a@x.com") (PStr "777") (PStr "john") (PStr "2 st").
Definition user_104 : user_row :=
  mkUser 104 PNone PNaN (PStr "") PNone.

(** [x] points straight at a self-parented root. *)
Definition flat (P : list (Z * Z)) (x : Z) : Prop :=
  ∃ r, dict_get x P = Some r ∧ dict_get r P = Some r.

(** The invariant of union by rank: ranks are not negative, strictly grow
    along proper parent links, and a root of rank [k] heads a group of at
    least [2 ^ k] identifiers. *)
Record rank_inv (uf : UnionFind) : Prop := mk_rank_inv {
  ri_nonneg : ∀ x k, dict_get x (rank uf) = Some k → 0 ≤ k;
  ri_incr : ∀ x p kx kp,
    dict_get x (parent uf) = Some p → p ≠ x →
    dict_get x (rank uf) = Some kx → dict_get p (rank uf) = Some kp → kx < kp;
  ri_size : ∀ r k,
    dict_get r (parent uf) = Some r → dict_get r (rank uf) = Some k →
    ∃ l, NoDup l ∧ (∀ y, y ∈ l → ∃ n, repr (parent uf) y r n) ∧
         2 ^ k ≤ Z.of_nat (length l)
}.

(** The part of [union] after the early return: the two roots differ. *)
Definition link_roots (uf2 : UnionFind) (root_x root_y : Z) : res UnionFind :=
  rank_x ← dict_index root_x (rank uf2);
  rank_y ← dict_index root_y (rank uf2);
  let '(root_x, root_y) :=
    if decide (rank_x < rank_y) then (root_y, root_x) else (root_x, root_y) in
  let uf3 := mkUF (dict_set root_y root_x (parent uf2)) (rank uf2) in
  rank_x ← dict_index root_x (rank uf3);
  rank_y ← dict_index root_y (rank uf3);
  if decide (rank_x = rank_y) then
    Ok (mkUF (parent uf3) (dict_set root_x (rank_x + 1) (rank uf3)))
  else Ok uf3.

(** The keys after an operation, in insertion order. *)
Definition op_keys (ks : list Z) (op : uf_op) : list Z :=
  foldl (λ ks x, set_add x ks) ks (op_ids op).

(** Step 5 unions the pair [(a, b)]: it is a candidate pair and its two
    records agree on at least 3 fields. *)
Definition matched (users : list user_row) (a b : Z) : Prop :=
  (a, b) ∈ potential_pairs (build_indexes users) ∧
  ∃ d1 d2, dict_get a (build_user_data users) = Some d1 ∧
           dict_get b (build_user_data users) = Some d2 ∧
           3 ≤ count_matches d1 d2.

(** Two buckets filled from two structures that group alike: the same
    members, under the root each structure gives them. *)
Definition bucket_rel (P1 P2 : list (Z * Z)) (e1 e2 : Z * list Z) : Prop :=
  e1.2 = e2.2 ∧ e1.2 ≠ [] ∧ ∀ y, y ∈ e1.2 → rootR P1 y e1.1 ∧ rootR P2 y e2.1.

(** Two identifiers carried by records of the table that agree on at
    least three fields. *)
Definition same_person (users : list user_row) (a b : Z) : Prop :=
  ∃ r1 r2, r1 ∈ users ∧ r2 ∈ users ∧ row_id r1 = a ∧ row_id r2 = b ∧
           (3 ≤ spec_match_count r1 r2)%nat.

(** The keys of a dictionary filled by [d[f x] = ...] for the [x] of [l]
    in turn: the values of [f] in the order of their first occurrence. *)
Definition seen_order {A} (f : A → Z) (ks : list Z) (l : list A) : list Z :=
  foldl (λ ks x, set_add (f x) ks) ks l.

(** The total spent under the identifiers whose canonical identifier is
    [c]. *)
Definition group_total {M} `{Money M} (orders : list (order_row M))
    (user_groups : list (Z * list Z)) (c : Z) : M :=
  foldl m_add m_zero
    (snd <$> filter (λ e, canonical_id (build_user_to_canonical user_groups) e.1 = c)
                    (groupby_sum orders)).

(** The display string of a set of names: the names in ascending order,
    separated by a comma and a space. *)
Definition display (aset : author_set) : string :=
  String.concat ", " (sorted_str (elements aset)).

(** Three records in a chain: the first and the second agree on email,
    phone and name, the second and the third on phone, name and address,
    the first and the third on phone and name only. *)
Definition chain_1 : user_row :=
  mkUser 1 (PStr "a@x.com") (PStr "555") (PStr "ann") (PStr "1 st").
Definition chain_2 : user_row :=
  mkUser 2 (PStr "a@x.com") (PStr "555") (PStr "ann") (PStr "2 st").
Definition chain_3 : user_row :=
  mkUser 3 (PStr "b@x.com") (PStr "555") (PStr "ann") (PStr "2 st").

(** Five records, each changing one field of the one before: the first and
    the last have no field value in common. *)
Definition drift_1 : user_row :=
  mkUser 1 (PStr "a@x.com") (PStr "555") (PStr "ann") (PStr "1 st").
Definition drift_2 : user_row :=
  mkUser 2 (PStr "a@x.com") (PStr "555") (PStr "ann") (PStr "2 st").
Definition drift_3 : user_row :=
  mkUser 3 (PStr "b@x.com") (PStr "555") (PStr "ann") (PStr "2 st").
Definition drift_4 : user_row :=
  mkUser 4 (PStr "b@x.com") (PStr "777") (PStr "ann") (PStr "2 st").
Definition drift_5 : user_row :=
  mkUser 5 (PStr "b@x.com") (PStr "777") (PStr "bea") (PStr "2 st").

(** * Properties *)

(** ** Dictionaries *)

Section dict_facts.
Context {K V : Type} `{EqDecision K}.
Implicit Types (d : list (K * V)) (k : K) (v : V).

Lemma dict_get_set d k v k' :
  dict_get k' (dict_set k v d) = if decide (k = k') then Some v else dict_get k' d.
Proof.
  induction d as [|[k0 v0] d IH]; simpl.
  - repeat case_decide; congruence.
  - repeat (case_decide; simpl); try congruence.
Qed.

Lemma dict_get_set_eq d k v : dict_get k (dict_set k v d) = Some v.
Proof. rewrite dict_get_set. by rewrite decide_True. Qed.

Lemma dict_get_set_ne d k v k' :
  k ≠ k' → dict_get k' (dict_set k v d) = dict_get k' d.
Proof. intros. rewrite dict_get_set. by rewrite decide_False. Qed.

Lemma dict_get_is_Some d k : is_Some (dict_get k d) ↔ k ∈ dict_keys d.
Proof.
  unfold dict_keys. induction d as [|[k0 v0] d IH]; simpl.
  - split; [intros [? ?]; done | intros ?%elem_of_nil; done].
  - rewrite elem_of_cons. case_decide; subst.
    + split; eauto.
    + rewrite IH. split; [by right | by intros [?|?]].
Qed.

Lemma dict_get_None d k : dict_get k d = None ↔ k ∉ dict_keys d.
Proof. rewrite <- dict_get_is_Some, eq_None_not_Some. done. Qed.

Lemma dict_get_Some_elem d k v : dict_get k d = Some v → (k, v) ∈ d.
Proof.
  induction d as [|[k0 v0] d IH]; simpl; [done|].
  case_decide; intros; simplify_eq; [left | right; auto].
Qed.

Lemma dict_elem_get d k v :
  NoDup (dict_keys d) → (k, v) ∈ d → dict_get k d = Some v.
Proof.
  unfold dict_keys. induction d as [|[k0 v0] d IH]; simpl.
  - intros _ ?%elem_of_nil; done.
  - rewrite NoDup_cons, elem_of_cons. intros [Hk Hd] [Heq | Hin].
    + simplify_eq. by rewrite decide_True.
    + case_decide; subst; [|auto].
      exfalso. apply Hk. apply list_elem_of_fmap. by exists (k, v).
Qed.

Lemma dict_keys_set d k v :
  dict_keys (dict_set k v d) =
    if dict_mem k d then dict_keys d else dict_keys d ++ [k].
Proof.
  unfold dict_keys, dict_mem. induction d as [|[k0 v0] d IH]; csimpl; [done|].
  case_decide; subst; csimpl; [done|].
  rewrite IH. by destruct (dict_get k d).
Qed.

Lemma dict_set_length d k v :
  length (dict_set k v d) = if dict_mem k d then length d else S (length d).
Proof.
  rewrite <- !(length_fmap fst). fold (dict_keys (dict_set k v d)).
  rewrite dict_keys_set. destruct (dict_mem k d); [done|].
  rewrite length_app. simpl. unfold dict_keys. lia.
Qed.

Lemma dict_mem_true d k : dict_mem k d = true ↔ k ∈ dict_keys d.
Proof.
  rewrite <- dict_get_is_Some. unfold dict_mem.
  destruct (dict_get k d); split; intros Hx; eauto; try done.
Qed.

Lemma dict_mem_false d k : dict_mem k d = false ↔ k ∉ dict_keys d.
Proof. rewrite <- dict_mem_true. by destruct (dict_mem k d). Qed.

Lemma dict_keys_set_elem d k v k' :
  k' ∈ dict_keys (dict_set k v d) ↔ k' = k ∨ k' ∈ dict_keys d.
Proof.
  rewrite <- !dict_get_is_Some, dict_get_set.
  case_decide; subst.
  - split; eauto.
  - split; [by right | intros [?|?]; [congruence | done]].
Qed.

Lemma dict_keys_set_NoDup d k v :
  NoDup (dict_keys d) → NoDup (dict_keys (dict_set k v d)).
Proof.
  intros Hd. rewrite dict_keys_set.
  destruct (dict_mem k d) eqn:Hm; [done|].
  apply dict_mem_false in Hm.
  apply NoDup_app. split_and!; [done| |apply NoDup_singleton].
  intros x Hx ->%list_elem_of_singleton. done.
Qed.

Lemma dict_index_Ok d k v : dict_index k d = Ok v ↔ dict_get k d = Some v.
Proof. unfold dict_index. destruct (dict_get k d); naive_solver. Qed.
End dict_facts.

(** ** Parent chains *)

Section repr_facts.
Implicit Types (P : list (Z * Z)) (x y r : Z) (n : nat).

Lemma repr_end_root P x r n : repr P x r n → dict_get r P = Some r.
Proof. induction 1; auto. Qed.

Lemma repr_key P x r n : repr P x r n → x ∈ dict_keys P.
Proof. intros Hr. apply dict_get_is_Some. destruct Hr; eauto. Qed.

Lemma repr_fun P x r n r' n' :
  repr P x r n → repr P x r' n' → r = r' ∧ n = n'.
Proof.
  intros Hr. revert r' n'.
  induction Hr as [x Hx | x p r n Hx Hne Hr IH]; intros r' n' Hr'.
  - inversion Hr'; simplify_eq; done.
  - inversion Hr'; simplify_eq.
    destruct (IH _ _ H1) as [-> ->]. done.
Qed.

Lemma repr_of_root P x r n : dict_get x P = Some x → repr P x r n → r = x ∧ n = 0%nat.
Proof.
  intros Hx Hr. destruct (repr_fun _ _ _ _ _ _ Hr (repr_root P x Hx)). done.
Qed.

Lemma rootR_fun P z r r' : rootR P z r → rootR P z r' → r = r'.
Proof.
  intros [[n Hr] | [Hz ->]] [[n' Hr'] | [Hz' ->]]; try done.
  - by destruct (repr_fun _ _ _ _ _ _ Hr Hr').
  - by apply repr_key in Hr.
  - by apply repr_key in Hr'.
Qed.

Lemma compress_rel_refl P : compress_rel P P.
Proof. split; auto. Qed.

Lemma compress_fwd P P' y r n :
  compress_rel P P' → repr P y r n → ∃ m, (m ≤ n)%nat ∧ repr P' y r m.
Proof.
  intros [Hk Hc] Hr.
  induction Hr as [x Hx | x p r n Hx Hne Hr IH].
  - exists 0%nat. split; [done|]. apply repr_root.
    assert (is_Some (dict_get x P')) as [p' Hp'].
    { apply dict_get_is_Some. rewrite Hk. apply dict_get_is_Some; eauto. }
    destruct (Hc _ _ Hp') as [? | [n Hn]]; [congruence|].
    by destruct (repr_of_root _ _ _ _ Hx Hn) as [-> _].
  - destruct IH as (m & Hm & Hr').
    assert (is_Some (dict_get x P')) as [p' Hp'].
    { apply dict_get_is_Some. rewrite Hk. apply dict_get_is_Some; eauto. }
    destruct (Hc _ _ Hp') as [? | [n' Hn']].
    + simplify_eq. exists (S m). split; [lia|]. by eapply repr_step.
    + destruct (repr_fun _ _ _ _ _ _ Hn' (repr_step _ _ _ _ _ Hx Hne Hr)) as [-> ->].
      exists 1%nat. split; [lia|].
      eapply repr_step; [done| |].
      * intros ->. apply repr_end_root in Hr. congruence.
      * apply repr_root. by eapply repr_end_root.
Qed.

Lemma compress_bwd P P' y r m :
  compress_rel P P' → repr P' y r m → ∃ n, repr P y r n.
Proof.
  intros [Hk Hc] Hr.
  induction Hr as [x Hx | x p r m Hx Hne Hr [n IH]].
  - destruct (Hc _ _ Hx) as [? | [n Hn]]; [|by eauto].
    exists 0%nat. by apply repr_root.
  - destruct (Hc _ _ Hx) as [? | [n' Hn']].
    + exists (S n). by eapply repr_step.
    + pose proof (repr_end_root _ _ _ _ Hn') as Hp.
      destruct (repr_of_root _ _ _ _ Hp IH) as [-> _]. eauto.
Qed.

Lemma compress_rel_trans P1 P2 P3 :
  compress_rel P1 P2 → compress_rel P2 P3 → compress_rel P1 P3.
Proof.
  intros H12 H23. split.
  - destruct H12, H23. congruence.
  - intros y p' Hy. destruct H23 as [_ Hc]. destruct (Hc _ _ Hy) as [? | [n Hn]].
    + destruct H12 as [_ Hc']. auto.
    + right. by eapply compress_bwd.
Qed.

Lemma compress_rootR P P' z r :
  compress_rel P P' → rootR P' z r ↔ rootR P z r.
Proof.
  intros Hc. unfold rootR. destruct Hc as [Hk Hc'] eqn:E. clear E.
  rewrite Hk. split.
  - intros [[m Hm] | ?]; [left | by right]. by eapply compress_bwd.
  - intros [[n Hn] | ?]; [left | by right].
    destruct (compress_fwd _ _ _ _ _ Hc Hn) as (m & _ & ?). eauto.
Qed.

Lemma compress_root P P' z :
  compress_rel P P' → dict_get z P' = Some z ↔ dict_get z P = Some z.
Proof.
  intros Hc. split; intros Hz.
  - destruct (compress_bwd _ _ _ _ _ Hc (repr_root _ _ Hz)) as [n Hn].
    by apply repr_end_root in Hn.
  - destruct (compress_fwd _ _ _ _ _ Hc (repr_root _ _ Hz)) as (m & _ & Hm).
    by apply repr_end_root in Hm.
Qed.
End repr_facts.

(** ** [find] *)

Section find_facts.
Implicit Types (uf : UnionFind) (P : list (Z * Z)) (x y r : Z) (n h : nat).

Lemma res_bind_Ok {A B} (m : res A) (k : A → res B) a :
  m = Ok a → (m ≫= k) = k a.
Proof. by intros ->. Qed.

Lemma find_seen fuel uf x p :
  dict_get x (parent uf) = Some p →
  find (S fuel) uf x =
    if decide (p ≠ x)
    then '(uf2, r) ← find fuel uf p;
         Ok (mkUF (dict_set x r (parent uf2)) (rank uf2), r)
    else Ok (uf, x).
Proof.
  intros Hx. cbn [find]. unfold dict_mem. rewrite Hx. cbn zeta.
  pose proof (proj2 (dict_index_Ok _ _ _) Hx) as Hi. rewrite Hi. cbn.
  case_decide as Hp.
  - destruct (find fuel uf p) as [[uf2 r]|]; cbn; [|done].
    unfold dict_index. by rewrite dict_get_set_eq.
  - f_equal. f_equal. by destruct (decide (p = x)).
Qed.

(** A seen identifier: [find] follows the chain, compresses it and leaves
    the ranks alone. *)
Lemma find_repr fuel uf x r n :
  repr (parent uf) x r n → (n < fuel)%nat →
  ∃ P', find fuel uf x = Ok (mkUF P' (rank uf), r) ∧
        compress_rel (parent uf) P' ∧ dict_get x P' = Some r.
Proof.
  intros Hr. revert fuel.
  induction Hr as [x Hx | x p r n Hx Hne Hr IH]; intros [|fuel] Hfuel; try lia.
  - exists (parent uf). rewrite (find_seen _ _ _ _ Hx).
    rewrite decide_False by auto. destruct uf; simpl in *.
    split_and!; [done | apply compress_rel_refl | done].
  - destruct (IH fuel ltac:(lia)) as (P2 & Hfind & Hc & _).
    exists (dict_set x r P2). rewrite (find_seen _ _ _ _ Hx).
    rewrite decide_True by done. rewrite Hfind. cbn.
    split_and!; [done | | apply dict_get_set_eq].
    pose proof Hc as [Hk Hc']. split.
    + rewrite dict_keys_set, <- Hk.
      assert (dict_mem x P2 = true) as ->; [|done].
      apply dict_mem_true. rewrite Hk. apply dict_get_is_Some; eauto.
    + intros y p'. rewrite dict_get_set. case_decide; [|by auto].
      intros; simplify_eq. right. exists (S n). by eapply repr_step.
Qed.

(** An unseen identifier becomes a singleton. *)
Lemma find_fresh fuel uf x :
  x ∉ dict_keys (parent uf) →
  find (S fuel) uf x =
    Ok (mkUF (dict_set x x (parent uf)) (dict_set x 0 (rank uf)), x).
Proof.
  intros Hx%dict_mem_false. cbn [find]. rewrite Hx. cbn zeta. cbn [parent].
  rewrite (proj2 (dict_index_Ok _ _ _) (dict_get_set_eq (parent uf) x x)).
  cbn. by rewrite decide_False by auto.
Qed.

Lemma repr_fresh P x y r n :
  x ∉ dict_keys P → repr P y r n → repr (dict_set x x P) y r n.
Proof.
  intros Hx. induction 1 as [y Hy | y p r n Hy Hne Hr IH].
  - apply repr_root. rewrite dict_get_set_ne; [done|].
    intros ->. apply Hx, dict_get_is_Some. eauto.
  - eapply repr_step; [|done|done]. rewrite dict_get_set_ne; [done|].
    intros ->. apply Hx, dict_get_is_Some. eauto.
Qed.

Lemma rootR_fresh P x z r h :
  (∀ y, y ∈ dict_keys P → ∃ r n, repr P y r n ∧ (n ≤ h)%nat) →
  x ∉ dict_keys P →
  rootR (dict_set x x P) z r ↔ rootR P z r.
Proof.
  intros Hinv Hx. unfold rootR. split.
  - intros [[n Hn] | [Hz ->]].
    + destruct (decide (z = x)) as [-> | Hzx].
      * right. split; [done|].
        eapply repr_of_root; [|done]. apply dict_get_set_eq.
      * left. apply repr_key in Hn as Hk.
        apply dict_keys_set_elem in Hk as [? | Hk]; [done|].
        destruct (Hinv _ Hk) as (r0 & n0 & H0 & _).
        pose proof (repr_fresh _ _ _ _ _ Hx H0) as H0'.
        destruct (repr_fun _ _ _ _ _ _ Hn H0') as [-> ->]. eauto.
    + right. split; [|done]. intros Hk. apply Hz, dict_keys_set_elem. auto.
  - intros [[n Hn] | [Hz ->]].
    + left. exists n. by apply repr_fresh.
    + destruct (decide (z = x)) as [-> | Hzx].
      * left. exists 0%nat. apply repr_root, dict_get_set_eq.
      * right. split; [|done]. intros [? | ?]%dict_keys_set_elem; done.
Qed.

Lemma set_add_keys {V} (d : list (Z * V)) x v :
  dict_keys (dict_set x v d) = set_add x (dict_keys d).
Proof.
  rewrite dict_keys_set. unfold set_add.
  destruct (dict_mem x d) eqn:Hm.
  - apply dict_mem_true in Hm. by rewrite decide_True.
  - apply dict_mem_false in Hm. by rewrite decide_False.
Qed.

Lemma set_add_old {A} `{EqDecision A} (x : A) (s : list A) :
  x ∈ s → set_add x s = s.
Proof. intros. unfold set_add. by rewrite decide_True. Qed.

Lemma elem_of_set_add {A} `{EqDecision A} (x y : A) (s : list A) :
  y ∈ set_add x s ↔ y = x ∨ y ∈ s.
Proof.
  unfold set_add. case_decide.
  - split; [by right | intros [-> | ?]; done].
  - rewrite elem_of_app, list_elem_of_singleton. tauto.
Qed.

Lemma NoDup_set_add {A} `{EqDecision A} (x : A) (s : list A) :
  NoDup s → NoDup (set_add x s).
Proof.
  intros Hs. unfold set_add. case_decide; [done|].
  apply NoDup_app. split_and!; [done | | apply NoDup_singleton].
  by intros y Hy ->%list_elem_of_singleton.
Qed.

Lemma root_iff_rootR P z :
  dict_get z P = Some z ↔ z ∈ dict_keys P ∧ rootR P z z.
Proof.
  split.
  - intros Hz. split; [apply dict_get_is_Some; eauto|].
    left. exists 0%nat. by apply repr_root.
  - intros [Hk [[n Hn] | [? _]]]; [|done]. by eapply repr_end_root.
Qed.

(** What [find] does on a well-formed structure. *)
Lemma find_spec fuel uf x h :
  uf_inv uf h → (h < fuel)%nat →
  ∃ uf' r,
    find fuel uf x = Ok (uf', r) ∧
    uf_inv uf' h ∧
    rootR (parent uf) x r ∧
    dict_get r (parent uf') = Some r ∧
    (∀ z r', rootR (parent uf') z r' ↔ rootR (parent uf) z r') ∧
    dict_keys (parent uf') = set_add x (dict_keys (parent uf)) ∧
    rank uf' = (if dict_mem x (parent uf) then rank uf
                else dict_set x 0 (rank uf)) ∧
    (x ∈ dict_keys (parent uf) → compress_rel (parent uf) (parent uf')) ∧
    (x ∉ dict_keys (parent uf) → r = x ∧ parent uf' = dict_set x x (parent uf)).
Proof.
  intros [Hh Hrk Hnd] Hfuel.
  destruct (decide (x ∈ dict_keys (parent uf))) as [Hx | Hx].
  - destruct (Hh _ Hx) as (r & n & Hr & Hn).
    destruct (find_repr fuel uf x r n Hr ltac:(lia)) as (P' & Hfind & Hc & _).
    exists (mkUF P' (rank uf)), r. pose proof Hc as [Hk Hc'].
    split_and!; simpl; try done.
    + split; simpl; [|congruence..].
      intros z. rewrite Hk. intros Hz.
      destruct (Hh _ Hz) as (r0 & n0 & Hr0 & Hn0).
      destruct (compress_fwd _ _ _ _ _ Hc Hr0) as (m & Hm & Hr').
      exists r0, m. split; [done | lia].
    + left. eauto.
    + apply (compress_root _ _ _ Hc). by eapply repr_end_root.
    + intros z r'. by apply compress_rootR.
    + by rewrite Hk, set_add_old.
    + apply dict_mem_true in Hx. by rewrite Hx.
  - destruct fuel as [|fuel]; [lia|].
    eexists _, x. split; [by apply find_fresh|].
    split_and!; simpl; try done.
    + split; simpl.
      * intros z [-> | Hz]%dict_keys_set_elem.
        -- exists x, 0%nat. split; [|lia]. apply repr_root, dict_get_set_eq.
        -- destruct (Hh _ Hz) as (r0 & n0 & Hr0 & Hn0).
           exists r0, n0. split; [|done]. by apply repr_fresh.
      * by rewrite !set_add_keys, Hrk.
      * by apply dict_keys_set_NoDup.
    + by right.
    + apply dict_get_set_eq.
    + intros z r'. by eapply rootR_fresh.
    + apply set_add_keys.
    + apply dict_mem_false in Hx. by rewrite Hx.
Qed.
End find_facts.

(** ** [union] *)

Section union_facts.
Implicit Types (uf : UnionFind) (P : list (Z * Z)) (x y r : Z) (n h : nat).

Lemma repr_link_keep P rx ry z r n :
  dict_get ry P = Some ry → repr P z r n → r ≠ ry →
  repr (dict_set ry rx P) z r n.
Proof.
  intros Hry. induction 1 as [z Hz | z p r n Hz Hne Hr IH]; intros Hneq.
  - apply repr_root. by rewrite dict_get_set_ne.
  - eapply repr_step; [|done|by apply IH].
    rewrite dict_get_set_ne; [done|]. intros ->. congruence.
Qed.

Lemma repr_link_move P rx ry z n :
  dict_get rx P = Some rx → dict_get ry P = Some ry → rx ≠ ry →
  repr P z ry n → repr (dict_set ry rx P) z rx (S n).
Proof.
  intros Hrx Hry Hne Hr. remember ry as r eqn:Er.
  induction Hr as [z Hz | z p r n Hz Hne' Hr IH]; subst.
  - eapply repr_step; [apply dict_get_set_eq | done |].
    apply repr_root. by rewrite dict_get_set_ne.
  - eapply repr_step; [|done|by apply IH].
    rewrite dict_get_set_ne; [done|]. intros ->. congruence.
Qed.

Lemma rootR_link P rx ry z r h :
  (∀ y, y ∈ dict_keys P → ∃ r n, repr P y r n ∧ (n ≤ h)%nat) →
  dict_get rx P = Some rx → dict_get ry P = Some ry → rx ≠ ry →
  rootR (dict_set ry rx P) z r ↔
    (rootR P z r ∧ r ≠ ry) ∨ (rootR P z ry ∧ r = rx).
Proof.
  intros Hinv Hrx Hry Hne.
  assert (Hk : ∀ k, k ∈ dict_keys (dict_set ry rx P) ↔ k ∈ dict_keys P).
  { intros k. rewrite dict_keys_set_elem. split; [|by right].
    intros [-> | ?]; [|done]. apply dict_get_is_Some. eauto. }
  assert (Hback : ∀ r', (rootR P z r' ∧ r' ≠ ry) ∨ (rootR P z ry ∧ r' = rx) →
                        rootR (dict_set ry rx P) z r').
  { intros r' [[[[n Hn] | [Hz ->]] Hr'] | [[[n Hn] | [Hz ->]] ->]].
    - left. exists n. by apply repr_link_keep.
    - right. by rewrite Hk.
    - left. exists (S n). by apply repr_link_move.
    - exfalso. apply Hz, dict_get_is_Some. eauto. }
  split; [|by apply Hback].
  intros Hz. destruct (decide (z ∈ dict_keys P)) as [Hzk | Hzk].
  - destruct (Hinv _ Hzk) as (r0 & n0 & Hr0 & _).
    destruct (decide (r0 = ry)) as [-> | Hr0y].
    + right. split; [left; eauto|].
      eapply rootR_fun; [done|]. apply Hback. right. split; [left; eauto | done].
    + left. assert (r = r0) as ->.
      { eapply rootR_fun; [done|]. apply Hback. left. split; [left; eauto | done]. }
      split; [left; eauto | done].
  - destruct Hz as [[n Hn] | [_ ->]].
    + apply repr_key in Hn. by apply Hk in Hn.
    + left. split; [by right|]. intros ->. apply Hzk, dict_get_is_Some. eauto.
Qed.

Lemma same_group_refl P a : (∀ y, y ∈ dict_keys P → ∃ r n, repr P y r n) → same_group P a a.
Proof.
  intros Hinv. destruct (decide (a ∈ dict_keys P)) as [Ha | Ha].
  - destruct (Hinv _ Ha) as (r & n & Hr). exists r. split; left; eauto.
  - exists a. split; by right.
Qed.

Lemma same_group_sym P a b : same_group P a b → same_group P b a.
Proof. intros (r & ? & ?). by exists r. Qed.

Lemma same_group_trans P a b c :
  same_group P a b → same_group P b c → same_group P a c.
Proof.
  intros (r & Ha & Hb) (r' & Hb' & Hc).
  rewrite (rootR_fun _ _ _ _ Hb Hb') in Ha. by exists r'.
Qed.

Lemma rootR_total P z h :
  (∀ y, y ∈ dict_keys P → ∃ r n, repr P y r n ∧ (n ≤ h)%nat) →
  ∃ r, rootR P z r.
Proof.
  intros Hinv. destruct (decide (z ∈ dict_keys P)) as [Hz | Hz].
  - destruct (Hinv _ Hz) as (r & n & Hr & _). exists r. left. eauto.
  - exists z. by right.
Qed.
Lemma union_spec fuel uf x y h :
  uf_inv uf h → (h < fuel)%nat →
  ∃ uf',
    union fuel uf x y = Ok uf' ∧
    uf_inv uf' (S h) ∧
    dict_keys (parent uf') = set_add y (set_add x (dict_keys (parent uf))) ∧
    (∀ a b, same_group (parent uf') a b ↔
              same_group (parent uf) a b ∨
              (same_group (parent uf) a x ∧ same_group (parent uf) y b) ∨
              (same_group (parent uf) a y ∧ same_group (parent uf) x b)) ∧
    (same_group (parent uf) x y →
       uf_inv uf' h ∧
       (∀ z r, rootR (parent uf') z r ↔ rootR (parent uf) z r) ∧
       ∃ uf1 r, find fuel uf x = Ok (uf1, r) ∧ find fuel uf1 y = Ok (uf', r)).
Proof.
  intros Hinv Hfuel.
  destruct (find_spec fuel uf x h Hinv Hfuel)
    as (uf1 & rx & Hf1 & Hinv1 & Hrx & Hrx1 & Heq1 & Hk1 & _).
  destruct (find_spec fuel uf1 y h Hinv1 Hfuel)
    as (uf2 & ry & Hf2 & Hinv2 & Hry & Hry2 & Heq2 & Hk2 & _).
  assert (Heq : ∀ z r, rootR (parent uf2) z r ↔ rootR (parent uf) z r).
  { intros. by rewrite Heq2, Heq1. }
  assert (Hsame : ∀ a b, same_group (parent uf2) a b ↔ same_group (parent uf) a b).
  { intros. unfold same_group. by setoid_rewrite Heq. }
  assert (Hrx2 : dict_get rx (parent uf2) = Some rx).
  { apply root_iff_rootR. apply root_iff_rootR in Hrx1 as [Hin Hr]. split.
    - rewrite Hk2. apply elem_of_set_add. by right.
    - by apply Heq2. }
  apply Heq1 in Hry. clear Heq1 Heq2.
  assert (Hx2 : rootR (parent uf2) x rx) by by apply Heq.
  assert (Hy2 : rootR (parent uf2) y ry) by by apply Heq.
  unfold union. rewrite Hf1. cbn. rewrite Hf2. cbn.
  destruct (decide (rx = ry)) as [-> | Hne].
  - exists uf2. split; [done|]. split.
    { destruct Hinv2. split; try done.
      intros z Hz. destruct (inv_height0 z Hz) as (r & n & ? & ?). exists r, n. split; [done|lia]. }
    split; [congruence|]. split.
    + intros a b. rewrite Hsame. split; [by left|].
      assert (same_group (parent uf) x y) by by exists ry.
      intros [? | [[? ?] | [? ?]]]; [done|..].
      * eauto using same_group_trans.
      * eauto using same_group_trans, same_group_sym.
    + intros _. split; [done|]. split; [done|]. eauto.
  - destruct Hinv2 as [Hh2 Hrk2 Hnd2].
    assert (is_Some (dict_get rx (rank uf2))) as [kx Hkx].
    { apply dict_get_is_Some. rewrite Hrk2. apply dict_get_is_Some. eauto. }
    assert (is_Some (dict_get ry (rank uf2))) as [ky Hky].
    { apply dict_get_is_Some. rewrite Hrk2. apply dict_get_is_Some. eauto. }
    rewrite (proj2 (dict_index_Ok _ _ _) Hkx). cbn.
    rewrite (proj2 (dict_index_Ok _ _ _) Hky). cbn.
    assert (∃ w l kw kl,
      (if decide (kx < ky) then (ry, rx) else (rx, ry)) = (w, l) ∧
      w ≠ l ∧
      dict_get w (parent uf2) = Some w ∧ dict_get l (parent uf2) = Some l ∧
      dict_get w (rank uf2) = Some kw ∧ dict_get l (rank uf2) = Some kl ∧
      ((rootR (parent uf2) x w ∧ rootR (parent uf2) y l) ∨
       (rootR (parent uf2) x l ∧ rootR (parent uf2) y w)))
      as (w & l & kw & kl & -> & Hwl & Hw & Hl & Hkw & Hkl & Hxy).
    { case_decide.
      - exists ry, rx, ky, kx. split_and!; try done. by right.
      - exists rx, ry, kx, ky. split_and!; try done. by left. }
    cbn.
    rewrite (proj2 (dict_index_Ok _ _ _) Hkw). cbn.
    rewrite (proj2 (dict_index_Ok _ _ _) Hkl). cbn.
    set (P' := dict_set l w (parent uf2)).
    assert (Hk' : dict_keys P' = dict_keys (parent uf2)).
    { unfold P'. rewrite set_add_keys, set_add_old; [done|].
      apply dict_get_is_Some. eauto. }
    assert (Hh' : ∀ z, z ∈ dict_keys P' → ∃ r n, repr P' z r n ∧ (n ≤ S h)%nat).
    { intros z. rewrite Hk'. intros Hz.
      destruct (Hh2 z Hz) as (r & n & Hr & Hn).
      destruct (decide (r = l)) as [-> | Hrl].
      - exists w, (S n). split; [|lia]. by apply repr_link_move.
      - exists r, n. split; [|lia]. by apply repr_link_keep. }
    assert (Hroot' : ∀ z r, rootR P' z r ↔
              (rootR (parent uf2) z r ∧ r ≠ l) ∨ (rootR (parent uf2) z l ∧ r = w)).
    { intros z r. by eapply rootR_link. }
    assert (Hgrp : ∀ a b, same_group P' a b ↔
              same_group (parent uf) a b ∨
              (same_group (parent uf) a x ∧ same_group (parent uf) y b) ∨
              (same_group (parent uf) a y ∧ same_group (parent uf) x b)).
    { intros a b. rewrite <- !Hsame. unfold same_group at 1.
      setoid_rewrite Hroot'. split.
      - intros (r & [[Ha ?] | [Ha ->]] & [[Hb ?] | [Hb Hb']]).
        + left. by exists r.
        + subst r. destruct Hxy as [[? ?] | [? ?]].
          * right; left. split; [by exists w | by exists l].
          * right; right. split; [by exists w | by exists l].
        + destruct Hxy as [[? ?] | [? ?]].
          * right; right. split; [by exists l | by exists w].
          * right; left. split; [by exists l | by exists w].
        + left. by exists l.
      - assert (Hmove : ∀ c r, rootR (parent uf2) c r →
                  ∃ r', (rootR (parent uf2) c r' ∧ r' ≠ l ∨ rootR (parent uf2) c l ∧ r' = w)
                        ∧ (r = l ∨ r = w → r' = w) ∧ (r ≠ l → r' = r)).
        { intros c r Hc. destruct (decide (r = l)) as [-> | ?].
          - exists w. split_and!; [by right | done | done].
          - exists r. split_and!; [by left | | done]. intros [? | ?]; done. }
        assert (Hxw : ∀ c, same_group (parent uf2) c x ∨ same_group (parent uf2) c y →
                  ∃ r, rootR (parent uf2) c r ∧ (r = l ∨ r = w)).
        { intros c [(r & Hc & Hr) | (r & Hc & Hr)]; exists r; (split; [done|]);
            destruct Hxy as [[Hxr Hyr] | [Hxr Hyr]];
            first [ rewrite (rootR_fun _ _ _ _ Hr Hxr) | rewrite (rootR_fun _ _ _ _ Hr Hyr) ];
            auto. }
        intros [(r & Ha & Hb) | [[Ha Hb] | [Ha Hb]]].
        + destruct (Hmove _ _ Ha) as (r' & Ha' & _ & Hk).
          destruct (decide (r = l)) as [-> | Hrl].
          * exists w. split; right; done.
          * exists r. split; left; done.
        + destruct (Hxw a (or_introl Ha)) as (ra & Hra & Hra').
          destruct (Hxw b (or_intror (same_group_sym _ _ _ Hb))) as (rb & Hrb & Hrb').
          destruct (Hmove _ _ Hra) as (ra' & Ha' & Ha'' & _).
          destruct (Hmove _ _ Hrb) as (rb' & Hb' & Hb'' & _).
          specialize (Ha'' Hra'). specialize (Hb'' Hrb'). subst ra' rb'.
          by exists w.
        + destruct (Hxw a (or_intror Ha)) as (ra & Hra & Hra').
          destruct (Hxw b (or_introl (same_group_sym _ _ _ Hb))) as (rb & Hrb & Hrb').
          destruct (Hmove _ _ Hra) as (ra' & Ha' & Ha'' & _).
          destruct (Hmove _ _ Hrb) as (rb' & Hb' & Hb'' & _).
          specialize (Ha'' Hra'). specialize (Hb'' Hrb'). subst ra' rb'.
          by exists w. }
    assert (Hnot : ¬ same_group (parent uf) x y).
    { intros (r & Hxr & Hyr)%Hsame. apply Hne.
      by rewrite (rootR_fun _ _ _ _ Hx2 Hxr), (rootR_fun _ _ _ _ Hy2 Hyr). }
    case_decide.
    + eexists. split; [done|]. cbn [parent rank].
      split_and!; [|by rewrite Hk', Hk2, Hk1|done|done].
      split; cbn [parent rank]; [done| |by rewrite Hk'].
      rewrite set_add_keys, set_add_old; [by rewrite Hk'|].
      apply dict_get_is_Some. eauto.
    + eexists. split; [done|]. cbn [parent rank].
      split_and!; [|by rewrite Hk', Hk2, Hk1|done|done].
      split; cbn [parent rank]; [done|by rewrite Hk'|by rewrite Hk'].
Qed.
End union_facts.

(** ** [get_groups] *)

Section get_groups_facts.
Implicit Types (uf : UnionFind) (P : list (Z * Z)) (x y r : Z) (n h : nat).

Lemma groups_inv_add P seen groups x r :
  groups_inv P seen groups → rootR P x r →
  groups_inv P (seen ++ [x])
    (dict_set r (set_add x (default [] (dict_get r groups))) groups).
Proof.
  intros [Hk Hm He Hr] Hx. split.
  - by apply dict_keys_set_NoDup.
  - intros r' ms. rewrite dict_get_set. case_decide; [|by apply Hm].
    intros [= <-]. split.
    + apply NoDup_set_add. destruct (dict_get r groups) as [ms|] eqn:E; simpl.
      * by apply (Hm _ _ E).
      * apply NoDup_nil_2.
    + unfold set_add. case_decide as Hin.
      * intros E. rewrite E in Hin. by apply elem_of_nil in Hin.
      * by intros ?%app_nil_r_inv.
  - intros r' ms z. rewrite dict_get_set, elem_of_app, list_elem_of_singleton.
    case_decide as Hrr.
    + subst r'. intros [= <-]. rewrite elem_of_set_add.
      destruct (dict_get r groups) as [ms|] eqn:E; simpl.
      * rewrite (He _ _ z E). split; [|tauto].
        intros [-> | [? ?]]; [by split; [right|] | by split; [left|]].
      * split.
        -- intros [-> | ?%elem_of_nil]; [|done]. by split; [right|].
        -- intros [[Hz | ->] Hzr]; [|by left].
           exfalso. apply (Hr _ _ Hz), dict_get_is_Some in Hzr.
           rewrite E in Hzr. by destruct Hzr.
    + intros E. rewrite (He _ _ z E). split; [by intros [? ?]; split; [left|]|].
      intros [[? | ->] Hzr]; [done|].
      destruct Hrr. by eapply rootR_fun.
  - intros z r' [Hz | ->%list_elem_of_singleton]%elem_of_app Hzr;
      apply dict_keys_set_elem.
    + right. by eapply Hr.
    + left. by eapply rootR_fun.
Qed.

Lemma groups_inv_compress P P' seen groups :
  compress_rel P P' → groups_inv P seen groups → groups_inv P' seen groups.
Proof.
  intros Hc [Hk Hm He Hr]. split; [done | done | |].
  - intros r ms x E. rewrite (He _ _ x E). by rewrite (compress_rootR _ _ _ _ Hc).
  - intros x r Hx Hxr. eapply Hr; [done|]. by apply (compress_rootR _ _ _ _ Hc).
Qed.

Lemma get_groups_loop_spec fuel ks uf groups seen h :
  uf_inv uf h → (h < fuel)%nat →
  (∀ x, x ∈ ks → x ∈ dict_keys (parent uf)) →
  groups_inv (parent uf) seen groups →
  ∃ P' groups',
    get_groups_loop fuel ks uf groups = Ok (mkUF P' (rank uf), groups') ∧
    uf_inv (mkUF P' (rank uf)) h ∧
    compress_rel (parent uf) P' ∧
    groups_inv (parent uf) (seen ++ ks) groups'.
Proof.
  revert uf groups seen.
  induction ks as [|x ks IH]; intros uf groups seen Hinv Hfuel Hks Hg.
  - exists (parent uf), groups. rewrite app_nil_r. destruct uf.
    split_and!; [done | done | apply compress_rel_refl | done].
  - assert (Hx : x ∈ dict_keys (parent uf)) by (apply Hks; left).
    destruct (find_spec fuel uf x h Hinv Hfuel)
      as (uf1 & r & Hf & Hinv1 & Hr & _ & _ & Hk1 & Hrk1 & Hc & _).
    specialize (Hc Hx). rewrite set_add_old in Hk1 by done.
    apply dict_mem_true in Hx as Hm. rewrite Hm in Hrk1.
    cbn [get_groups_loop]. rewrite Hf. cbn.
    rewrite decide_True.
    2:{ rewrite <- !(length_fmap fst). unfold dict_keys in Hk1. by rewrite Hk1. }
    destruct (IH uf1 (dict_set r (set_add x (default [] (dict_get r groups))) groups)
                (seen ++ [x]) Hinv1 Hfuel) as (P' & groups' & Hloop & Hinv' & Hc' & Hg').
    { intros z Hz. rewrite Hk1. apply Hks. by right. }
    { eapply groups_inv_compress; [done|]. by apply groups_inv_add. }
    exists P', groups'. rewrite Hrk1 in Hloop, Hinv'. split_and!; try done.
    + by eapply compress_rel_trans.
    + rewrite <- (assoc_L (++)) in Hg'. simpl in Hg'.
      destruct Hg' as [? ? He' Hr']. split; [done | done | |].
      * intros r0 ms z E. rewrite (He' _ _ z E).
        by rewrite (compress_rootR _ _ _ _ Hc).
      * intros z r0 Hz Hzr. eapply Hr'; [done|].
        by apply (compress_rootR _ _ _ _ Hc).
Qed.

Lemma get_groups_spec fuel uf h :
  uf_inv uf h → (h < fuel)%nat →
  ∃ P' groups,
    get_groups fuel uf = Ok (mkUF P' (rank uf), groups) ∧
    uf_inv (mkUF P' (rank uf)) h ∧
    compress_rel (parent uf) P' ∧
    groups_inv (parent uf) (dict_keys (parent uf)) groups.
Proof.
  intros Hinv Hfuel. unfold get_groups.
  destruct (get_groups_loop_spec fuel (dict_keys (parent uf)) uf [] [] h)
    as (P' & groups & ? & ? & ? & ?); try done.
  - split; [apply NoDup_nil_2 | done | done |].
    by intros x r ?%elem_of_nil.
  - by exists P', groups.
Qed.
End get_groups_facts.

(** ** Histories of operations *)

Section history_facts.
Implicit Types (uf : UnionFind) (P : list (Z * Z)) (x y r : Z) (n h : nat).

Lemma rtsc_sub (R R' : relation Z) a b :
  (∀ a b, R a b → rtsc R' a b) → rtsc R a b → rtsc R' a b.
Proof.
  intros Hsub. induction 1 as [a | a c b [Hac | Hca] _ IH].
  - reflexivity.
  - etrans; [by apply Hsub | done].
  - etrans; [symmetry; by apply Hsub | done].
Qed.

Lemma uf_inv_mono uf h h' : uf_inv uf h → (h ≤ h')%nat → uf_inv uf h'.
Proof.
  intros [Hh ? ?] Hle. split; [|done..].
  intros x Hx. destruct (Hh x Hx) as (r & n & ? & ?). exists r, n. split; [done|lia].
Qed.

Lemma uf_inv_init : uf_inv UnionFind_init 0.
Proof. split; simpl; [by intros x ?%elem_of_nil | done | apply NoDup_nil_2]. Qed.

Lemma same_group_init a b : same_group (parent UnionFind_init) a b ↔ a = b.
Proof.
  split.
  - intros (r & [[n Hn] | [_ ->]] & [[m Hm] | [_ ->]]); try done.
    + by apply repr_key, elem_of_nil in Hn.
    + by apply repr_key, elem_of_nil in Hn.
    + by apply repr_key, elem_of_nil in Hm.
  - intros ->. exists b. split; right; (split; [apply not_elem_of_nil | done]).
Qed.

Lemma uf_inv_total uf h :
  uf_inv uf h → ∀ y, y ∈ dict_keys (parent uf) → ∃ r n, repr (parent uf) y r n.
Proof. intros [Hh _ _] y Hy. destruct (Hh y Hy) as (r & n & ? & _). eauto. Qed.

Lemma run_op_spec fuel uf op h :
  uf_inv uf h → (h + (if is_union op then 1 else 0) < fuel)%nat →
  ∃ uf',
    run_op fuel uf op = Ok uf' ∧
    uf_inv uf' (h + (if is_union op then 1 else 0)) ∧
    (∀ a b, same_group (parent uf') a b ↔
              match op with
              | OpUnion x y =>
                  same_group (parent uf) a b ∨
                  (same_group (parent uf) a x ∧ same_group (parent uf) y b) ∨
                  (same_group (parent uf) a y ∧ same_group (parent uf) x b)
              | _ => same_group (parent uf) a b
              end).
Proof.
  intros Hinv Hfuel. destruct op as [x | x y |]; simpl in *.
  - destruct (find_spec fuel uf x h Hinv ltac:(lia))
      as (uf' & r & Hf & Hinv' & _ & _ & Heq & _).
    exists uf'. rewrite Hf. cbn. split; [done|]. split.
    + eapply uf_inv_mono; [done|lia].
    + intros a b. unfold same_group. by setoid_rewrite Heq.
  - destruct (union_spec fuel uf x y h Hinv ltac:(lia))
      as (uf' & Hu & Hinv' & _ & Hgrp & _).
    exists uf'. split; [done|]. split; [|done].
    eapply uf_inv_mono; [done|lia].
  - destruct (get_groups_spec fuel uf h Hinv ltac:(lia))
      as (P' & groups & Hg & Hinv' & Hc & _).
    eexists. rewrite Hg. cbn. split; [done|]. split.
    + eapply uf_inv_mono; [done|lia].
    + intros a b. unfold same_group. cbn.
      by setoid_rewrite (compress_rootR _ _ _ _ Hc).
Qed.

Lemma run_ops_spec fuel ops uf h :
  uf_inv uf h → (h + union_calls ops < fuel)%nat →
  ∃ uf',
    run_ops fuel ops uf = Ok uf' ∧
    uf_inv uf' (h + union_calls ops) ∧
    (∀ a b, same_group (parent uf') a b ↔
            rtsc (λ a b, same_group (parent uf) a b ∨ unioned ops a b) a b).
Proof.
  revert uf h. induction ops as [|op ops IH]; intros uf h Hinv Hfuel.
  - exists uf. split; [done|]. split; [eapply uf_inv_mono; [done|lia]|].
    intros a b. split.
    + intros ?. apply rtsc_lr. by left.
    + assert (Equivalence (same_group (parent uf))) as Heqv.
      { split.
        - intros z. apply same_group_refl. by eapply uf_inv_total.
        - intros ? ?. apply same_group_sym.
        - intros ? ? ?. apply same_group_trans. }
      induction 1 as [a | a c b [[Hac | Hac] | [Hca | Hca]] _ IH'];
        try (by apply elem_of_nil in Hac); try (by apply elem_of_nil in Hca).
      * reflexivity.
      * by etrans.
      * etrans; [by symmetry | done].
  - assert (union_calls (op :: ops) =
            ((if is_union op then 1 else 0) + union_calls ops)%nat) as Hcalls.
    { unfold union_calls. rewrite filter_cons. destruct op; simpl; done. }
    rewrite Hcalls in *.
    destruct (run_op_spec fuel uf op h Hinv ltac:(lia)) as (uf1 & Hop & Hinv1 & Hgrp1).
    destruct (IH uf1 _ Hinv1 ltac:(lia)) as (uf' & Hrun & Hinv' & Hgrp).
    exists uf'. cbn [run_ops]. rewrite Hop. cbn. split; [done|].
    split; [eapply uf_inv_mono; [done|lia]|].
    assert (Hrefl : ∀ z, same_group (parent uf) z z).
    { intros z. apply same_group_refl. by eapply uf_inv_total. }
    intros a b. rewrite Hgrp. split; apply rtsc_sub; clear a b.
    + intros a b [Hab | Hab]; [|apply rtsc_lr; right; by right].
      apply Hgrp1 in Hab. destruct op as [x | x y |].
      * apply rtsc_lr. by left.
      * destruct Hab as [? | [[? ?] | [? ?]]].
        -- apply rtsc_lr. by left.
        -- etrans; [apply rtsc_lr; by left|].
           etrans; [apply rtsc_lr; right; left|apply rtsc_lr; by left].
        -- etrans; [apply rtsc_lr; by left|].
           etrans; [apply rtsc_rl; right; left|apply rtsc_lr; by left].
      * apply rtsc_lr. by left.
    + intros a b [Hab | [Hop' | Hab]%elem_of_cons].
      * apply rtsc_lr. left. apply Hgrp1. destruct op; auto.
      * subst op. apply rtsc_lr. left. apply Hgrp1. right; left. auto.
      * apply rtsc_lr. by right.
Qed.

Lemma run_ops_init fuel ops :
  (union_calls ops < fuel)%nat →
  ∃ uf,
    run_ops fuel ops UnionFind_init = Ok uf ∧
    uf_inv uf (union_calls ops) ∧
    (∀ a b, same_group (parent uf) a b ↔ connected ops a b).
Proof.
  intros Hfuel.
  destruct (run_ops_spec fuel ops UnionFind_init 0 uf_inv_init Hfuel)
    as (uf & Hrun & Hinv & Hgrp).
  exists uf. split; [done|]. split; [done|].
  intros a b. rewrite Hgrp. unfold connected. split; apply rtsc_sub; clear a b.
  - intros a b [->%same_group_init | ?]; [reflexivity | by apply rtsc_lr].
  - intros a b ?. apply rtsc_lr. by right.
Qed.

Lemma repr_link P a b r n :
  repr P a r n → link P a b → ∃ m, n = S m ∧ repr P b r m.
Proof.
  intros Hr [Hab Hne]. inversion Hr; simplify_eq. eauto.
Qed.

Lemma repr_tc_link P a b r n :
  tc (link P) a b → repr P a r n → ∃ m, (m < n)%nat ∧ repr P b r m.
Proof.
  intros Htc. revert n. induction Htc as [a b Hab | a c b Hac _ IH]; intros n Hr.
  - destruct (repr_link _ _ _ _ _ Hr Hab) as (m & -> & ?). exists m. split; [lia|done].
  - destruct (repr_link _ _ _ _ _ Hr Hac) as (m & -> & Hc).
    destruct (IH _ Hc) as (m' & ? & ?). exists m'. split; [lia|done].
Qed.

Lemma uf_inv_acyclic uf h : uf_inv uf h → acyclic (parent uf).
Proof.
  intros Hinv. split; [by eapply uf_inv_total|].
  intros x Htc.
  assert (x ∈ dict_keys (parent uf)) as Hx.
  { apply dict_get_is_Some. inversion Htc as [? ? [? _] | ? ? ? [? _]]; eauto. }
  destruct (uf_inv_total _ _ Hinv x Hx) as (r & n & Hr).
  destruct (repr_tc_link _ _ _ _ _ Htc Hr) as (m & Hlt & Hr').
  destruct (repr_fun _ _ _ _ _ _ Hr Hr'). lia.
Qed.
Lemma run_finds_spec fuel zs uf h :
  uf_inv uf h → (h < fuel)%nat →
  ∃ uf', run_ops fuel (OpFind <$> zs) uf = Ok uf' ∧ uf_inv uf' h ∧
         (∀ z r, rootR (parent uf') z r ↔ rootR (parent uf) z r).
Proof.
  revert uf. induction zs as [|z zs IH]; intros uf Hinv Hfuel.
  - by exists uf.
  - destruct (find_spec fuel uf z h Hinv Hfuel)
      as (uf1 & r & Hf & Hinv1 & _ & _ & Heq & _).
    destruct (IH uf1 Hinv1 Hfuel) as (uf' & Hrun & Hinv' & Heq').
    exists uf'. csimpl. rewrite Hf. cbn. split; [done|]. split; [done|].
    intros. by rewrite Heq', Heq.
Qed.

Lemma find_rootR fuel uf x uf' r h :
  uf_inv uf h → (h < fuel)%nat → find fuel uf x = Ok (uf', r) →
  rootR (parent uf) x r.
Proof.
  intros Hinv Hfuel Hf.
  destruct (find_spec fuel uf x h Hinv Hfuel) as (? & ? & Hf' & _ & ? & _).
  congruence.
Qed.

(** The buckets depend on the keys and the roots only. *)
Lemma get_groups_loop_det fuel ks uf uf' groups h h' :
  uf_inv uf h → uf_inv uf' h' → (h < fuel)%nat → (h' < fuel)%nat →
  (∀ z r, rootR (parent uf') z r ↔ rootR (parent uf) z r) →
  dict_keys (parent uf') = dict_keys (parent uf) →
  (∀ x, x ∈ ks → x ∈ dict_keys (parent uf)) →
  ∃ u u' g, get_groups_loop fuel ks uf groups = Ok (u, g) ∧
            get_groups_loop fuel ks uf' groups = Ok (u', g).
Proof.
  revert uf uf' groups.
  induction ks as [|x ks IH]; intros uf uf' groups Hinv Hinv' Hfuel Hfuel' Heq Hk Hks.
  - by exists uf, uf', groups.
  - assert (Hx : x ∈ dict_keys (parent uf)) by (apply Hks; left).
    destruct (find_spec fuel uf x h Hinv Hfuel)
      as (uf1 & r & Hf & Hinv1 & Hr & _ & Heq1 & Hk1 & _).
    destruct (find_spec fuel uf' x h' Hinv' Hfuel')
      as (uf1' & r' & Hf' & Hinv1' & Hr' & _ & Heq1' & Hk1' & _).
    apply Heq in Hr'. rewrite (rootR_fun _ _ _ _ Hr' Hr) in *. clear Hr'.
    rewrite set_add_old in Hk1 by done.
    rewrite set_add_old in Hk1' by by rewrite Hk.
    cbn [get_groups_loop]. rewrite Hf, Hf'. cbn.
    rewrite !decide_True.
    2:{ rewrite <- !(length_fmap fst). unfold dict_keys in Hk1'. by rewrite Hk1'. }
    2:{ rewrite <- !(length_fmap fst). unfold dict_keys in Hk1. by rewrite Hk1. }
    apply (IH uf1 uf1' _ Hinv1 Hinv1' Hfuel Hfuel').
    + intros. by rewrite Heq1', Heq1, Heq.
    + congruence.
    + intros z Hz. rewrite Hk1. apply Hks. by right.
Qed.
End history_facts.

Section noop_facts.
Implicit Types (uf : UnionFind) (P : list (Z * Z)) (x y r : Z) (n h : nat).

Lemma same_group_key P x y :
  x ∈ dict_keys P → same_group P x y → y ∈ dict_keys P.
Proof.
  intros Hx (r & [[n Hn] | [? _]] & Hy); [|done].
  destruct Hy as [[m Hm] | [Hy ->]]; [by eapply repr_key|].
  destruct Hy. apply dict_get_is_Some. apply repr_end_root in Hn. eauto.
Qed.

Lemma union_noop fuel uf x y h :
  uf_inv uf h → (h < fuel)%nat →
  x ∈ dict_keys (parent uf) → same_group (parent uf) x y →
  ∃ uf' u1 u2 groups,
    union fuel uf x y = Ok uf' ∧
    dict_keys (parent uf') = dict_keys (parent uf) ∧
    rank uf' = rank uf ∧
    (∀ z r, rootR (parent uf') z r ↔ rootR (parent uf) z r) ∧
    get_groups fuel uf = Ok (u1, groups) ∧
    get_groups fuel uf' = Ok (u2, groups).
Proof.
  intros Hinv Hfuel Hx Hxy.
  pose proof (same_group_key _ _ _ Hx Hxy) as Hy.
  destruct (union_spec fuel uf x y h Hinv Hfuel) as (uf' & Hu & _ & Hk & _ & Hsame).
  destruct (Hsame Hxy) as (Hinv' & Heq & uf1 & r & Hf1 & Hf2).
  rewrite !set_add_old in Hk by (by rewrite ?set_add_old).
  assert (rank uf' = rank uf) as Hrk.
  { destruct (find_spec fuel uf x h Hinv Hfuel)
      as (uf1' & r1 & Hf1' & Hinv1 & _ & _ & _ & Hk1 & Hrk1 & _).
    rewrite Hf1 in Hf1'. simplify_eq.
    destruct (find_spec fuel uf1' y h Hinv1 Hfuel)
      as (uf2' & r2 & Hf2' & _ & _ & _ & _ & _ & Hrk2 & _).
    rewrite Hf2 in Hf2'. simplify_eq.
    apply dict_mem_true in Hx as Hmx. rewrite Hmx in Hrk1.
    rewrite set_add_old in Hk1 by done.
    assert (dict_mem y (parent uf1') = true) as Hmy.
    { apply dict_mem_true. by rewrite Hk1. }
    rewrite Hmy in Hrk2. congruence. }
  destruct (get_groups_loop_det fuel (dict_keys (parent uf)) uf uf' [] h h)
    as (u1 & u2 & g & Hg1 & Hg2); try done.
  exists uf', u1, u2, g. unfold get_groups. rewrite Hk. done.
Qed.
End noop_facts.

(** ** The disjoint-set claims *)

(** C2.  After any history of [find], [union] and [get_groups] calls on a
    fresh structure, and with a recursion depth above the number of
    [union] calls, [find(x)] and [find(y)] return the same root exactly
    when [x] and [y] are connected by the reflexive, symmetric, transitive
    closure of the [union(a, b)] calls made so far.  This holds for every
    pair of identifiers, those passed through [find] or [union] included. *)
Theorem find_eq_iff_connected (ops : list uf_op) (x y : Z) (k : nat) :
  let fuel := S (union_calls ops + k) in
  ∃ uf uf1 uf2 rx ry,
    run_ops fuel ops UnionFind_init = Ok uf ∧
    find fuel uf x = Ok (uf1, rx) ∧
    find fuel uf1 y = Ok (uf2, ry) ∧
    (rx = ry ↔ connected ops x y).
Proof.
  intros fuel.
  destruct (run_ops_init fuel ops ltac:(unfold fuel; lia)) as (uf & Hrun & Hinv & Hgrp).
  assert (union_calls ops < fuel)%nat as Hfuel by (unfold fuel; lia).
  destruct (find_spec fuel uf x _ Hinv Hfuel)
    as (uf1 & rx & Hf1 & Hinv1 & Hrx & _ & Heq1 & _).
  destruct (find_spec fuel uf1 y _ Hinv1 Hfuel)
    as (uf2 & ry & Hf2 & Hinv2 & Hry & _ & Heq2 & _).
  exists uf, uf1, uf2, rx, ry. split_and!; try done.
  apply Heq1 in Hry. rewrite <- Hgrp. split.
  - intros ->. by exists ry.
  - intros (r & Hx & Hy).
    by rewrite (rootR_fun _ _ _ _ Hrx Hx), (rootR_fun _ _ _ _ Hry Hy).
Qed.

(** Transitivity: after [union(a, b)] and [union(b, c)] the three
    identifiers have one root. *)
Lemma union_chain_same_root (ops : list uf_op) (a b c : Z) (k : nat) :
  OpUnion a b ∈ ops → OpUnion b c ∈ ops →
  let fuel := S (union_calls ops + k) in
  ∃ uf uf1 uf2 uf3 r,
    run_ops fuel ops UnionFind_init = Ok uf ∧
    find fuel uf a = Ok (uf1, r) ∧
    find fuel uf1 b = Ok (uf2, r) ∧
    find fuel uf2 c = Ok (uf3, r).
Proof.
  intros Hab Hbc fuel.
  assert (union_calls ops < fuel)%nat as Hfuel by (unfold fuel; lia).
  destruct (run_ops_init fuel ops Hfuel) as (uf & Hrun & Hinv & Hgrp).
  destruct (find_spec fuel uf a _ Hinv Hfuel)
    as (uf1 & ra & Hf1 & Hinv1 & Hra & _ & Heq1 & _).
  destruct (find_spec fuel uf1 b _ Hinv1 Hfuel)
    as (uf2 & rb & Hf2 & Hinv2 & Hrb & _ & Heq2 & _).
  destruct (find_spec fuel uf2 c _ Hinv2 Hfuel)
    as (uf3 & rc & Hf3 & _ & Hrc & _).
  apply Heq1 in Hrb. apply Heq2, Heq1 in Hrc.
  assert (same_group (parent uf) a b) as (r1 & Ha1 & Hb1).
  { apply Hgrp. by apply rtsc_lr. }
  assert (same_group (parent uf) b c) as (r2 & Hb2 & Hc2).
  { apply Hgrp. by apply rtsc_lr. }
  assert (rb = ra) as ->.
  { by rewrite (rootR_fun _ _ _ _ Hrb Hb1), (rootR_fun _ _ _ _ Hra Ha1). }
  assert (rc = ra) as ->.
  { by rewrite (rootR_fun _ _ _ _ Hrc Hc2), (rootR_fun _ _ _ _ Hrb Hb2). }
  by exists uf, uf1, uf2, uf3, ra.
Qed.

(** C8.  After any history of operations on a fresh structure: the parent
    structure has no cycle other than a root's self-loop and every key
    reaches a self-parented root; [find] of any identifier returns a
    self-parented root, an unseen identifier being registered as its own
    singleton with rank 0; and [union] of any two identifiers returns. *)
Theorem find_union_total (ops : list uf_op) (x y : Z) (k : nat) :
  let fuel := S (union_calls ops + k) in
  ∃ uf,
    run_ops fuel ops UnionFind_init = Ok uf ∧
    acyclic (parent uf) ∧
    (∃ uf' r,
       find fuel uf x = Ok (uf', r) ∧
       dict_get r (parent uf') = Some r ∧
       acyclic (parent uf') ∧
       ((x ∉ dict_keys (parent uf)) →
          r = x ∧ parent uf' = dict_set x x (parent uf) ∧
          rank uf' = dict_set x 0 (rank uf))) ∧
    (∃ uf', union fuel uf x y = Ok uf' ∧ acyclic (parent uf')).
Proof.
  intros fuel.
  assert (union_calls ops < fuel)%nat as Hfuel by (unfold fuel; lia).
  destruct (run_ops_init fuel ops Hfuel) as (uf & Hrun & Hinv & _).
  exists uf. split; [done|]. split; [by eapply uf_inv_acyclic|]. split.
  - destruct (find_spec fuel uf x _ Hinv Hfuel)
      as (uf' & r & Hf & Hinv' & _ & Hroot & _ & _ & Hrk & _ & Hfresh).
    exists uf', r. split_and!; [done | done | by eapply uf_inv_acyclic |].
    intros Hx. destruct (Hfresh Hx) as [-> ->]. split_and!; [done | done |].
    apply dict_mem_false in Hx. by rewrite Hx in Hrk.
  - destruct (union_spec fuel uf x y _ Hinv Hfuel) as (uf' & Hu & Hinv' & _).
    exists uf'. split; [done|]. by eapply uf_inv_acyclic.
Qed.

(** C9.  After any history of operations: a second [find(x)], with any
    number of [find] calls in between and no [union], returns the same root
    as the first; and [union(x, y)] on two identifiers of one group, in
    particular [union(x, x)] on a seen [x], returns and leaves the keys, the
    ranks, the root of every identifier and the result of [get_groups]
    unchanged. *)
Theorem find_stable_union_noop (ops : list uf_op) (zs : list Z) (x y : Z) (k : nat) :
  let fuel := S (union_calls ops + k) in
  let unchanged uf uf' :=
    dict_keys (parent uf') = dict_keys (parent uf) ∧
    rank uf' = rank uf ∧
    (∀ z r, rootR (parent uf') z r ↔ rootR (parent uf) z r) ∧
    ∃ u1 u2 groups,
      get_groups fuel uf = Ok (u1, groups) ∧
      get_groups fuel uf' = Ok (u2, groups) in
  ∃ uf,
    run_ops fuel ops UnionFind_init = Ok uf ∧
    (∃ uf1 uf2 uf3 r,
       find fuel uf x = Ok (uf1, r) ∧
       run_ops fuel (OpFind <$> zs) uf1 = Ok uf2 ∧
       find fuel uf2 x = Ok (uf3, r)) ∧
    (x ∈ dict_keys (parent uf) →
     (∃ uf1 uf2 r, find fuel uf x = Ok (uf1, r) ∧ find fuel uf1 y = Ok (uf2, r)) →
     ∃ uf', union fuel uf x y = Ok uf' ∧ unchanged uf uf') ∧
    (x ∈ dict_keys (parent uf) →
     ∃ uf', union fuel uf x x = Ok uf' ∧ unchanged uf uf').
Proof.
  intros fuel unchanged.
  assert (union_calls ops < fuel)%nat as Hfuel by (unfold fuel; lia).
  destruct (run_ops_init fuel ops Hfuel) as (uf & Hrun & Hinv & _).
  exists uf. split; [done|]. split_and!.
  - destruct (find_spec fuel uf x _ Hinv Hfuel)
      as (uf1 & r & Hf1 & Hinv1 & Hr & _ & Heq1 & _).
    destruct (run_finds_spec fuel zs uf1 _ Hinv1 Hfuel) as (uf2 & Hrun2 & Hinv2 & Heq2).
    destruct (find_spec fuel uf2 x _ Hinv2 Hfuel)
      as (uf3 & r' & Hf3 & _ & Hr' & _).
    apply Heq2, Heq1 in Hr'. rewrite (rootR_fun _ _ _ _ Hr' Hr) in Hf3.
    by exists uf1, uf2, uf3, r.
  - intros Hx (uf1 & uf2 & r & Hf1 & Hf2).
    assert (same_group (parent uf) x y) as Hxy.
    { exists r. split; [by eapply find_rootR|].
      destruct (find_spec fuel uf x _ Hinv Hfuel)
        as (uf1' & r1 & Hf1' & Hinv1 & _ & _ & Heq1 & _).
      rewrite Hf1 in Hf1'. simplify_eq. apply Heq1. by eapply find_rootR. }
    destruct (union_noop fuel uf x y _ Hinv Hfuel Hx Hxy)
      as (uf' & u1 & u2 & g & ? & ? & ? & ? & ? & ?).
    exists uf'. split; [done|]. unfold unchanged. split_and!; try done.
    by exists u1, u2, g.
  - intros Hx.
    assert (same_group (parent uf) x x) as Hxx.
    { apply same_group_refl. by eapply uf_inv_total. }
    destruct (union_noop fuel uf x x _ Hinv Hfuel Hx Hxx)
      as (uf' & u1 & u2 & g & ? & ? & ? & ? & ? & ?).
    exists uf'. split; [done|]. unfold unchanged. split_and!; try done.
    by exists u1, u2, g.
Qed.

(** ** The pairwise match judge *)

Section judge_facts.
Lemma indexable_present v : pd_notna v && truthy v = true ↔ present v.
Proof.
  unfold present. destruct v as [| |s]; simpl.
  - split; [done | by intros (? & ? & _)].
  - split; [done | by intros (? & ? & _)].
  - rewrite negb_true_iff, String.eqb_neq. split; [eauto|].
    by intros (? & [= <-] & ?).
Qed.

Lemma field_match v1 v2 :
  (if truthy v1 && truthy v2 then (if py_eq v1 v2 then 1 else 0) else 0) =
    if decide (present v1 ∧ present v2 ∧ v1 = v2) then 1 else 0.
Proof.
  case_decide as Hd.
  - destruct Hd as ((s & -> & Hs) & _ & <-). simpl.
    apply String.eqb_neq in Hs. rewrite Hs, String.eqb_refl. done.
  - destruct (truthy v1 && truthy v2) eqn:Ht; [|done].
    destruct (py_eq v1 v2) eqn:He; [|done]. destruct Hd.
    destruct v1 as [| |s1], v2 as [| |s2]; simpl in *; try done.
    apply String.eqb_eq in He as ->.
    apply andb_true_iff in Ht as [Ht%negb_true_iff%String.eqb_neq _].
    unfold present. split_and!; [by exists s2 | by exists s2 | done].
Qed.

Lemma row_fields_get r :
  dict_get "email"%string (row_fields r) = Some (email_normalized r) ∧
  dict_get "phone"%string (row_fields r) = Some (phone_normalized r) ∧
  dict_get "name"%string (row_fields r) = Some (name_normalized r) ∧
  dict_get "address"%string (row_fields r) = Some (address_normalized r).
Proof. split_and!; reflexivity. Qed.

Lemma length_filter_cons {A} (P : A → Prop) `{∀ x, Decision (P x)} x l :
  length (filter P (x :: l)) =
    ((if decide (P x) then 1 else 0) + length (filter P l))%nat.
Proof. rewrite filter_cons. by case_decide. Qed.

Lemma count_matches_spec r1 r2 :
  count_matches (row_fields r1) (row_fields r2) = Z.of_nat (spec_match_count r1 r2).
Proof.
  unfold count_matches, FIELDS. cbn [foldl].
  destruct (row_fields_get r1) as (-> & -> & -> & ->).
  destruct (row_fields_get r2) as (-> & -> & -> & ->).
  unfold default. cbn [from_option id].
  set (c v1 v2 := if truthy v1 && truthy v2
                  then (if py_eq v1 v2 then 1 else 0) else 0).
  assert (Hstep : ∀ m v1 v2,
    (if truthy v1 && truthy v2 then if py_eq v1 v2 then m + 1 else m else m)
    = m + c v1 v2).
  { intros. unfold c. destruct (truthy v1 && truthy v2), (py_eq v1 v2); lia. }
  rewrite !Hstep. unfold c. rewrite !field_match.
  unfold spec_match_count, field_values. cbn [zip zip_with].
  rewrite !length_filter_cons, filter_nil. cbn [fst snd length].
  repeat match goal with |- context [decide ?P] => destruct (decide P) end; lia.
Qed.

Lemma spec_le_comparable r1 r2 : (spec_match_count r1 r2 ≤ comparable_count r1 r2)%nat.
Proof.
  unfold spec_match_count, comparable_count, field_values. cbn [zip zip_with].
  rewrite !length_filter_cons, !filter_nil. cbn [fst snd length].
  assert (Hle : ∀ (P Q : Prop) `{Decision P} `{Decision Q}, (P → Q) →
    ((if decide P then 1 else 0) ≤ (if decide Q then 1 else 0))%nat).
  { intros P Q ? ? HPQ. destruct (decide P), (decide Q); try lia. tauto. }
  repeat apply Nat.add_le_mono; try done; apply Hle; tauto.
Qed.
End judge_facts.

(** One run of the loop body of step 5, on a pair whose records are [r1]
    and [r2]: it calls [union(u1, u2)] exactly when at least 3 of the four
    fields are present on both sides and equal, and otherwise leaves the
    structure as it is. *)
Lemma judge_threshold (fuel : nat) (user_data : list (Z * list (string * pyval)))
    (uf : UnionFind) (u1 u2 : Z) (r1 r2 : user_row) :
  dict_get u1 user_data = Some (row_fields r1) →
  dict_get u2 user_data = Some (row_fields r2) →
  count_matches (row_fields r1) (row_fields r2) = Z.of_nat (spec_match_count r1 r2) ∧
  judge_pair fuel user_data uf (u1, u2) =
    (if decide (3 ≤ spec_match_count r1 r2)%nat
     then union fuel uf u1 u2 else Ok uf) ∧
  (spec_match_count r1 r2 = 2%nat → judge_pair fuel user_data uf (u1, u2) = Ok uf) ∧
  ((comparable_count r1 r2 < 3)%nat → judge_pair fuel user_data uf (u1, u2) = Ok uf).
Proof.
  intros H1 H2.
  assert (Hj : judge_pair fuel user_data uf (u1, u2) =
    (if decide (3 ≤ spec_match_count r1 r2)%nat
     then union fuel uf u1 u2 else Ok uf)).
  { unfold judge_pair.
    rewrite (proj2 (dict_index_Ok _ _ _) H1), (proj2 (dict_index_Ok _ _ _) H2).
    cbn [mbind res_bind]. rewrite count_matches_spec. repeat case_decide; try done; lia. }
  split_and!; [apply count_matches_spec | done | |].
  - intros E. rewrite Hj, E. done.
  - intros Hc. rewrite Hj. pose proof (spec_le_comparable r1 r2).
    rewrite decide_False by lia. done.
Qed.

(** ** Candidate pairs *)

Section ordered_pair_facts.
Context {A : Type}.
Implicit Types (l : list A) (a b : A).

Lemma ordered_pair_nil a b : ¬ ordered_pair (@nil A) a b.
Proof. inversion 1. Qed.

Lemma ordered_pair_cons x l a b :
  ordered_pair (x :: l) a b ↔ (a = x ∧ b ∈ l) ∨ ordered_pair l a b.
Proof.
  split.
  - inversion 1; subst; auto.
  - intros [[-> ?] | ?]; [by apply ordered_here | by apply ordered_later].
Qed.

Lemma ordered_pair_length l a b : ordered_pair l a b → (1 < length l)%nat.
Proof.
  induction 1 as [x l b Hb | x l a b _ IH]; simpl; [|lia].
  destruct l; [by apply elem_of_nil in Hb | simpl; lia].
Qed.

Lemma ordered_pair_elem l a b : ordered_pair l a b → a ∈ l ∧ b ∈ l.
Proof.
  induction 1 as [x l b Hb | x l a b _ [? ?]].
  - split; [left | by right].
  - split; by right.
Qed.

Lemma ordered_pair_fmap {B} (f : A → B) l (a' b' : B) :
  ordered_pair (f <$> l) a' b' ↔
    ∃ a b, ordered_pair l a b ∧ a' = f a ∧ b' = f b.
Proof.
  induction l as [|x l IH]; csimpl.
  - split; [inversion 1 | by intros (? & ? & ?%ordered_pair_nil & _)].
  - split.
    + inversion 1 as [? ? ? Hb | ? ? ? ? Hab]; subst.
      * apply list_elem_of_fmap in Hb as (b & -> & Hb).
        exists x, b. split; [by apply ordered_here | done].
      * apply IH in Hab as (a & b & ? & ? & ?).
        exists a, b. split; [by apply ordered_later | done].
    + intros (a & b & [[-> Hb] | ?]%ordered_pair_cons & -> & ->).
      * apply ordered_here. apply list_elem_of_fmap. eauto.
      * apply ordered_later, IH. eauto.
Qed.

Lemma ordered_pair_filter (P : A → Prop) `{∀ x, Decision (P x)} l a b :
  ordered_pair (filter P l) a b ↔ ordered_pair l a b ∧ P a ∧ P b.
Proof.
  induction l as [|x l IH].
  - split; [by intros ?%ordered_pair_nil | by intros [?%ordered_pair_nil _]].
  - rewrite filter_cons. case_decide as Hx.
    + rewrite !ordered_pair_cons, IH, list_elem_of_filter. split.
      * intros [[-> [? ?]] | (? & ? & ?)]; auto.
      * intros ([[-> ?] | ?] & ? & ?); auto.
    + rewrite IH, ordered_pair_cons. split.
      * intros (? & ? & ?); auto.
      * intros ([[-> ?] | ?] & ? & ?); [done | auto].
Qed.

Lemma ordered_pair_lookup l a b :
  ordered_pair l a b ↔
    ∃ i j, (i < j)%nat ∧ l !! i = Some a ∧ l !! j = Some b.
Proof.
  split.
  - induction 1 as [x l b Hb | x l a b _ (i & j & ? & ? & ?)].
    + apply list_elem_of_lookup in Hb as [j Hj].
      exists 0%nat, (S j). split; [lia | done].
    + exists (S i), (S j). split; [lia | done].
  - intros (i & j & Hij & Hi & Hj). revert i j Hij Hi Hj.
    induction l as [|x l IH]; intros i j Hij Hi Hj; [done|].
    destruct j as [|j]; [lia|]. destruct i as [|i]; simpl in *.
    + simplify_eq. apply ordered_here. by eapply list_elem_of_lookup_2.
    + apply ordered_later. apply (IH i j); [lia | done | done].
Qed.
End ordered_pair_facts.

Section pairs_facts.
Implicit Types (pairs : list (Z * Z)) (p : Z * Z) (l : list Z).

Lemma elem_of_inner_pairs u1 rest pairs p :
  p ∈ foldl (λ ps u2, set_add (Z.min u1 u2, Z.max u1 u2) ps) pairs rest ↔
    p ∈ pairs ∨ ∃ u2, u2 ∈ rest ∧ p = min_max u1 u2.
Proof.
  revert pairs. induction rest as [|u rest IH]; intros pairs; simpl.
  - split; [by left | intros [? | (? & ?%elem_of_nil & _)]; done].
  - rewrite IH, elem_of_set_add. split.
    + intros [[-> | ?] | (u2 & ? & ->)].
      * right. exists u. split; [left | done].
      * by left.
      * right. exists u2. split; [by right | done].
    + intros [? | (u2 & [-> | ?]%elem_of_cons & ->)].
      * left. by right.
      * left. by left.
      * right. eauto.
Qed.

Lemma NoDup_inner_pairs u1 rest pairs :
  NoDup pairs →
  NoDup (foldl (λ ps u2, set_add (Z.min u1 u2, Z.max u1 u2) ps) pairs rest).
Proof.
  revert pairs. induction rest as [|u rest IH]; intros pairs Hp; simpl; [done|].
  by apply IH, NoDup_set_add.
Qed.

Lemma elem_of_bucket_pairs l pairs p :
  p ∈ bucket_pairs l pairs ↔
    p ∈ pairs ∨ ∃ a b, ordered_pair l a b ∧ p = min_max a b.
Proof.
  revert pairs. induction l as [|u1 rest IH]; intros pairs; simpl.
  - split; [by left | intros [? | (? & ? & ?%ordered_pair_nil & _)]; done].
  - rewrite IH, elem_of_inner_pairs. split.
    + intros [[? | (u2 & ? & ->)] | (a & b & ? & ->)].
      * by left.
      * right. exists u1, u2. split; [by apply ordered_here | done].
      * right. exists a, b. split; [by apply ordered_later | done].
    + intros [? | (a & b & [[-> ?] | ?]%ordered_pair_cons & ->)].
      * left. by left.
      * left. right. eauto.
      * right. eauto.
Qed.

Lemma NoDup_bucket_pairs l pairs : NoDup pairs → NoDup (bucket_pairs l pairs).
Proof.
  revert pairs. induction l as [|u1 rest IH]; intros pairs Hp; simpl; [done|].
  by apply IH, NoDup_inner_pairs.
Qed.

Lemma elem_of_index_pairs (idx : list (pyval * list Z)) pairs p :
  p ∈ index_pairs idx pairs ↔
    p ∈ pairs ∨
    ∃ l a b, l ∈ dict_values idx ∧ ordered_pair l a b ∧ p = min_max a b.
Proof.
  unfold index_pairs. revert pairs.
  induction (dict_values idx) as [|l ls IH]; intros pairs; simpl.
  - split; [by left | intros [? | (? & ? & ? & ?%elem_of_nil & _)]; done].
  - rewrite IH. split.
    + intros [Hp | (l' & a & b & ? & ? & ->)].
      * case_decide.
        -- apply elem_of_bucket_pairs in Hp as [? | (a & b & ? & ->)]; [by left|].
           right. exists l, a, b. split; [left | done].
        -- by left.
      * right. exists l', a, b. split; [by right | done].
    + intros [Hp | (l' & a & b & [-> | ?]%elem_of_cons & Hab & ->)].
      * left. case_decide; [|done]. apply elem_of_bucket_pairs. by left.
      * left. rewrite decide_True by by eapply ordered_pair_length.
        apply elem_of_bucket_pairs. right. eauto.
      * right. eauto 6.
Qed.

Lemma NoDup_index_pairs (idx : list (pyval * list Z)) pairs :
  NoDup pairs → NoDup (index_pairs idx pairs).
Proof.
  unfold index_pairs. revert pairs.
  induction (dict_values idx) as [|l ls IH]; intros pairs Hp; simpl; [done|].
  apply IH. case_decide; [by apply NoDup_bucket_pairs | done].
Qed.
End pairs_facts.

Section index_facts.
Implicit Types (f : user_row → pyval) (v : pyval) (idx : list (pyval * list Z))
  (users : list user_row).

Lemma foldl_index_row users a b c d :
  foldl index_row (mkIndexes a b c d) users =
    mkIndexes (index_from email_normalized a users)
              (index_from phone_normalized b users)
              (index_from name_normalized c users)
              (index_from address_normalized d users).
Proof.
  unfold index_from. revert a b c d.
  induction users as [|r users IH]; intros a b c d; simpl; [done|].
  unfold index_row at 2. simpl. apply IH.
Qed.

Lemma build_indexes_from users :
  build_indexes users =
    mkIndexes (index_from email_normalized [] users)
              (index_from phone_normalized [] users)
              (index_from name_normalized [] users)
              (index_from address_normalized [] users).
Proof. apply foldl_index_row. Qed.

Lemma index_add_get v' uid idx v :
  present v →
  dict_get v (index_add v' uid idx) =
    if decide (v' = v) then Some (default [] (dict_get v idx) ++ [uid])
    else dict_get v idx.
Proof.
  intros Hv. unfold index_add.
  destruct (pd_notna v' && truthy v') eqn:E.
  - rewrite dict_get_set. case_decide; by subst.
  - rewrite decide_False; [done|]. intros ->.
    apply indexable_present in Hv. congruence.
Qed.

Lemma index_from_get f v idx users :
  present v →
  dict_get v (index_from f idx users) =
    match ids_with f v users with
    | [] => dict_get v idx
    | l => Some (default [] (dict_get v idx) ++ l)
    end.
Proof.
  intros Hv. unfold index_from, ids_with. revert idx.
  induction users as [|r users IH]; intros idx; simpl; [done|].
  rewrite IH, filter_cons, index_add_get by done.
  destruct (decide (f r = v)) as [Hr | Hr]; csimpl; [|done].
  destruct (row_id <$> filter (λ r0, f r0 = v) users); simpl; [done|].
  by rewrite <- (assoc_L (++)).
Qed.

Lemma index_add_keys v' uid idx v :
  v ∈ dict_keys (index_add v' uid idx) → v ∈ dict_keys idx ∨ present v.
Proof.
  unfold index_add. destruct (pd_notna v' && truthy v') eqn:E; [|by left].
  intros [-> | ?]%dict_keys_set_elem; [|by left].
  right. by apply indexable_present.
Qed.

Lemma index_from_keys f idx users v :
  v ∈ dict_keys (index_from f idx users) → v ∈ dict_keys idx ∨ present v.
Proof.
  unfold index_from. revert idx.
  induction users as [|r users IH]; intros idx; simpl; [by left|].
  intros [[? | ?]%index_add_keys | ?]%IH; auto.
Qed.

Lemma index_from_NoDup f idx users :
  NoDup (dict_keys idx) → NoDup (dict_keys (index_from f idx users)).
Proof.
  unfold index_from. revert idx.
  induction users as [|r users IH]; intros idx Hidx; simpl; [done|].
  apply IH. unfold index_add. case_match; [|done].
  by apply dict_keys_set_NoDup.
Qed.

Lemma elem_of_field_pairs f users p :
  (∃ l a b, l ∈ dict_values (index_from f [] users) ∧
            ordered_pair l a b ∧ p = min_max a b) ↔
  (∃ r1 r2, ordered_pair users r1 r2 ∧ present (f r1) ∧ f r1 = f r2 ∧
            p = min_max (row_id r1) (row_id r2)).
Proof.
  split.
  - intros (l & a & b & Hl & Hab & ->).
    apply list_elem_of_fmap in Hl as ([v l'] & -> & Hvl). simpl in *.
    assert (present v) as Hv.
    { destruct (index_from_keys f [] users v) as [?%elem_of_nil | ?]; [|done..].
      apply list_elem_of_fmap. by exists (v, l'). }
    apply dict_elem_get in Hvl; [|apply index_from_NoDup, NoDup_nil_2].
    rewrite index_from_get in Hvl by done. simpl in Hvl.
    assert (l' = ids_with f v users) as ->.
    { destruct (ids_with f v users); by simplify_eq. }
    apply ordered_pair_fmap in Hab as (r1 & r2 & Hr & -> & ->).
    apply ordered_pair_filter in Hr as (Hr & <- & Hr2).
    exists r1, r2. done.
  - intros (r1 & r2 & Hr & Hv & Heq & ->).
    exists (ids_with f (f r1) users), (row_id r1), (row_id r2).
    assert (ordered_pair (ids_with f (f r1) users) (row_id r1) (row_id r2)) as Hop.
    { apply ordered_pair_fmap. exists r1, r2. split; [|done].
      apply ordered_pair_filter. done. }
    split; [|done].
    apply list_elem_of_fmap. exists (f r1, ids_with f (f r1) users). split; [done|].
    apply dict_get_Some_elem. rewrite index_from_get by done. simpl.
    destruct (ids_with f (f r1) users); [by apply ordered_pair_nil in Hop | done].
Qed.
End index_facts.

Lemma potential_pairs_char (users : list user_row) (p : Z * Z) :
  p ∈ potential_pairs (build_indexes users) ↔
    ∃ r1 r2, ordered_pair users r1 r2 ∧ shares_field r1 r2 ∧
             p = min_max (row_id r1) (row_id r2).
Proof.
  unfold potential_pairs. rewrite build_indexes_from. simpl.
  rewrite !elem_of_index_pairs, !elem_of_field_pairs, elem_of_nil.
  unfold shares_field, field_getters. split.
  - intros [[[[[] | H] | H] | H] | H]; destruct H as (r1 & r2 & ? & ? & ? & ->);
      exists r1, r2; (split; [done|]); (split; [|done]);
      eexists; (split; [|done]); set_solver.
  - intros (r1 & r2 & Hr & (f & Hf & Hv & Heq) & ->).
    repeat apply elem_of_cons in Hf as [-> | Hf]; [..|by apply elem_of_nil in Hf].
    + left; left; left; right. eauto 6.
    + left; left; right. eauto 6.
    + left; right. eauto 6.
    + right. eauto 6.
Qed.

Lemma potential_pairs_NoDup (users : list user_row) :
  NoDup (potential_pairs (build_indexes users)).
Proof. unfold potential_pairs. repeat apply NoDup_index_pairs. apply NoDup_nil_2. Qed.

(** The candidate pairs are a set (no pair occurs twice); a pair is in it
    exactly when it is [(min(id1, id2), max(id1, id2))] for two records at
    different positions that share a present value of one of the four
    fields. *)
Lemma potential_pairs_exact (users : list user_row) :
  let pairs := potential_pairs (build_indexes users) in
  NoDup pairs ∧
  (∀ a b, (a, b) ∈ pairs ↔
     ∃ i j r1 r2,
       (i < j)%nat ∧ users !! i = Some r1 ∧ users !! j = Some r2 ∧
       shares_field r1 r2 ∧
       a = Z.min (row_id r1) (row_id r2) ∧ b = Z.max (row_id r1) (row_id r2)) ∧
  (∀ a b, (a, b) ∈ pairs → a ≤ b).
Proof.
  intros pairs.
  pose proof (potential_pairs_char users) as Hchar. fold pairs in Hchar.
  split_and!.
  - apply potential_pairs_NoDup.
  - intros a b. rewrite Hchar. split.
    + intros (r1 & r2 & (i & j & ? & ? & ?)%ordered_pair_lookup & ? & [= -> ->]).
      exists i, j, r1, r2. done.
    + intros (i & j & r1 & r2 & ? & ? & ? & ? & -> & ->).
      exists r1, r2. split; [|done]. apply ordered_pair_lookup. eauto.
  - intros a b (r1 & r2 & _ & _ & [= -> ->])%Hchar. lia.
Qed.

(** ** The run of [deduplicate_users] on the disjoint-set structure *)

Section run_facts.
Implicit Types (uf : UnionFind) (ops : list uf_op).

Lemma run_ops_app fuel ops1 ops2 uf :
  run_ops fuel (ops1 ++ ops2) uf = run_ops fuel ops1 uf ≫= run_ops fuel ops2.
Proof.
  revert uf. induction ops1 as [|op ops1 IH]; intros uf; simpl; [done|].
  destruct (run_op fuel uf op); simpl; [apply IH | done].
Qed.

Lemma register_all_run fuel uids uf :
  register_all fuel uids uf = run_ops fuel (OpFind <$> uids) uf.
Proof.
  revert uf. induction uids as [|uid uids IH]; intros uf; csimpl; [done|].
  destruct (find fuel uf uid) as [[uf1 r]|]; simpl; [apply IH | done].
Qed.

Lemma judge_pairs_run fuel user_data pairs uf :
  (∀ p, p ∈ pairs → p.1 ∈ dict_keys user_data ∧ p.2 ∈ dict_keys user_data) →
  judge_pairs fuel user_data pairs uf =
    run_ops fuel (union_ops user_data pairs) uf.
Proof.
  unfold union_ops. revert uf.
  induction pairs as [|[u1 u2] pairs IH]; intros uf Hk; [done|].
  destruct (Hk (u1, u2)) as [[d1 H1]%dict_get_is_Some [d2 H2]%dict_get_is_Some];
    [left|]. simpl in H1, H2.
  assert (Hj : judged user_data (u1, u2) = bool_decide (3 ≤ count_matches d1 d2)).
  { unfold judged. simpl. by rewrite H1, H2. }
  cbn [judge_pairs judge_pair]. rewrite filter_cons.
  rewrite (proj2 (dict_index_Ok _ _ _) H1), (proj2 (dict_index_Ok _ _ _) H2).
  cbn [mbind res_bind].
  assert (Hrest : ∀ uf1, judge_pairs fuel user_data pairs uf1 =
    run_ops fuel
      ((λ p, OpUnion p.1 p.2) <$> filter (λ p, judged user_data p = true) pairs) uf1).
  { intros uf1. apply IH. intros p Hp. apply Hk. by right. }
  destruct (decide (judged user_data (u1, u2) = true)) as [Hd | Hd];
    rewrite Hj in Hd.
  - apply bool_decide_eq_true in Hd. rewrite decide_True by done. csimpl.
    destruct (union fuel uf u1 u2); simpl; [apply Hrest | done].
  - rewrite bool_decide_eq_true in Hd. rewrite decide_False by done.
    apply Hrest.
Qed.

Lemma union_calls_app ops1 ops2 :
  union_calls (ops1 ++ ops2) = (union_calls ops1 + union_calls ops2)%nat.
Proof. unfold union_calls. by rewrite filter_app, length_app. Qed.

Lemma union_calls_finds zs : union_calls (OpFind <$> zs) = 0%nat.
Proof. induction zs; done. Qed.

Lemma union_calls_union_ops user_data pairs :
  (union_calls (union_ops user_data pairs) ≤ length pairs)%nat.
Proof.
  unfold union_calls, union_ops.
  etrans; [apply length_filter|]. rewrite length_fmap. apply length_filter.
Qed.

Lemma run_op_keys fuel uf op h uf' :
  uf_inv uf h → (h < fuel)%nat → run_op fuel uf op = Ok uf' →
  ∀ z, z ∈ dict_keys (parent uf') ↔ z ∈ dict_keys (parent uf) ∨ z ∈ op_ids op.
Proof.
  intros Hinv Hfuel Hrun z. destruct op as [x | x y |]; simpl in *.
  - destruct (find_spec fuel uf x h Hinv Hfuel)
      as (uf1 & r & Hf & _ & _ & _ & _ & Hk & _).
    rewrite Hf in Hrun. simpl in Hrun. simplify_eq.
    rewrite Hk, elem_of_set_add, list_elem_of_singleton. tauto.
  - destruct (union_spec fuel uf x y h Hinv Hfuel) as (uf1 & Hu & _ & Hk & _).
    rewrite Hu in Hrun. simplify_eq.
    rewrite Hk, !elem_of_set_add, !elem_of_cons, elem_of_nil. tauto.
  - destruct (get_groups_spec fuel uf h Hinv Hfuel)
      as (P' & groups & Hg & _ & [Hk _] & _).
    rewrite Hg in Hrun. simpl in Hrun. simplify_eq. simpl.
    rewrite Hk, elem_of_nil. tauto.
Qed.

Lemma run_ops_keys fuel ops uf h uf' :
  uf_inv uf h → (h + union_calls ops < fuel)%nat →
  run_ops fuel ops uf = Ok uf' →
  ∀ z, z ∈ dict_keys (parent uf') ↔
       z ∈ dict_keys (parent uf) ∨ ∃ op, op ∈ ops ∧ z ∈ op_ids op.
Proof.
  revert uf h. induction ops as [|op ops IH]; intros uf h Hinv Hfuel Hrun z.
  - simpl in Hrun. simplify_eq. split; [by left|].
    intros [? | (? & ?%elem_of_nil & _)]; done.
  - assert (union_calls (op :: ops) =
            ((if is_union op then 1 else 0) + union_calls ops)%nat) as Hcalls.
    { unfold union_calls. rewrite filter_cons. destruct op; simpl; done. }
    rewrite Hcalls in Hfuel.
    destruct (run_op_spec fuel uf op h Hinv ltac:(lia)) as (uf1 & Hop & Hinv1 & _).
    cbn [run_ops] in Hrun. rewrite Hop in Hrun. cbn in Hrun.
    rewrite (IH uf1 _ Hinv1 ltac:(lia) Hrun z).
    rewrite (run_op_keys fuel uf op h uf1 Hinv ltac:(lia) Hop z).
    split.
    + intros [[? | ?] | (op' & ? & ?)]; [by left | right | right].
      * exists op. split; [left | done].
      * exists op'. split; [by right | done].
    + intros [? | (op' & [-> | ?]%elem_of_cons & ?)]; [by left; left | by left; right |].
      right. eauto.
Qed.
End run_facts.

(** ** Canonical groups *)

Section canonical_facts.
Implicit Types (ms : list Z) (gs : list (list Z)) (acc ug : list (Z * list Z)).

Lemma foldl_min_spec rest x :
  let m := foldl (λ m y, if decide (y < m) then y else m) x rest in
  m ∈ x :: rest ∧ ∀ z, z ∈ x :: rest → m ≤ z.
Proof.
  revert x. induction rest as [|y rest IH]; intros x; simpl.
  - split; [left|]. intros z ->%list_elem_of_singleton. lia.
  - destruct (IH (if decide (y < x) then y else x)) as [Hin Hle]. split.
    + apply elem_of_cons in Hin as [-> | Hin].
      * case_decide; [right; left | left].
      * right. by right.
    + intros z Hz.
      assert (foldl (λ m y0, if decide (y0 < m) then y0 else m)
                    (if decide (y < x) then y else x) rest
              ≤ (if decide (y < x) then y else x)) as Hm by (apply Hle; left).
      apply elem_of_cons in Hz as [-> | [-> | Hz]%elem_of_cons].
      * case_decide; lia.
      * case_decide; lia.
      * apply Hle. by right.
Qed.

Lemma py_min_spec ms :
  ms ≠ [] → ∃ m, py_min ms = Ok m ∧ m ∈ ms ∧ ∀ z, z ∈ ms → m ≤ z.
Proof.
  destruct ms as [|x rest]; [done|]. intros _. eexists. split; [done|].
  apply foldl_min_spec.
Qed.

Lemma dict_set_fresh {V} (d : list (Z * V)) k v :
  k ∉ dict_keys d → dict_set k v d = d ++ [(k, v)].
Proof.
  unfold dict_keys. induction d as [|[k0 v0] d IH]; csimpl; [done|].
  intros [? ?]%not_elem_of_cons. rewrite decide_False by done. by rewrite IH.
Qed.

Lemma canonical_groups_spec gs acc :
  (∀ ms, ms ∈ gs → ms ≠ []) → NoDup (mjoin gs) →
  (∀ k ms, k ∈ dict_keys acc → ms ∈ gs → k ∉ ms) →
  ∃ ug, canonical_groups gs acc = Ok (acc ++ ug) ∧ Forall2 canonical_of gs ug.
Proof.
  revert acc. induction gs as [|ms gs IH]; intros acc Hne Hnd Hacc.
  - exists []. by rewrite app_nil_r.
  - simpl in Hnd. apply NoDup_app in Hnd as (Hms & Hdisj & Hnd).
    destruct (py_min_spec ms) as (m & Hmin & Hin & Hle); [apply Hne; left|].
    cbn [canonical_groups]. rewrite Hmin. cbn [mbind res_bind].
    rewrite dict_set_fresh.
    2:{ intros Hk. by apply (Hacc m ms Hk); [left|]. }
    destruct (IH (acc ++ [(m, sorted ms)])) as (ug & Hug & Hall).
    + intros ms' ?. apply Hne. by right.
    + done.
    + intros k ms'. unfold dict_keys. rewrite fmap_app, elem_of_app.
      intros [Hk | ->%list_elem_of_singleton] Hms'.
      * apply Hacc; [done | by right].
      * intros Hm. apply (Hdisj m Hin). apply list_elem_of_join. eauto.
    + exists ((m, sorted ms) :: ug). rewrite <- (assoc_L (++)) in Hug.
      split; [done|]. by constructor.
Qed.

Lemma canonical_keys_NoDup gs ug :
  Forall2 canonical_of gs ug → NoDup (mjoin gs) → NoDup (dict_keys ug).
Proof.
  unfold dict_keys. induction 1 as [|ms e gs ug (_ & Hin & _) Hall IH]; csimpl.
  - intros _. apply NoDup_nil_2.
  - intros (Hms & Hdisj & Hnd)%NoDup_app. apply NoDup_cons. split; [|by apply IH].
    intros (e' & He & He')%list_elem_of_fmap.
    apply list_elem_of_lookup in He' as [i Hi].
    destruct (Forall2_lookup_r _ _ _ _ _ Hall Hi) as (ms' & Hms' & _ & Hin' & _).
    apply (Hdisj e.1 Hin). apply list_elem_of_join. exists ms'.
    split; [by rewrite He | by eapply list_elem_of_lookup_2].
Qed.

Lemma canonical_values gs ug :
  Forall2 canonical_of gs ug → dict_values ug = sorted <$> gs.
Proof.
  unfold dict_values. induction 1 as [|ms e gs ug (He & _) _ IH]; csimpl; [done|].
  by rewrite He, IH.
Qed.

Lemma join_sorted gs : mjoin (sorted <$> gs) ≡ₚ mjoin gs.
Proof.
  induction gs as [|ms gs IH]; csimpl; [done|].
  unfold sorted at 1. by rewrite merge_sort_Permutation, IH.
Qed.
End canonical_facts.

Section groups_facts.
Implicit Types (P : list (Z * Z)) (groups : list (Z * list Z)).

Lemma dict_values_join_NoDup (d : list (Z * list Z)) :
  NoDup (dict_keys d) →
  (∀ k ms, (k, ms) ∈ d → NoDup ms) →
  (∀ k1 ms1 k2 ms2 x, (k1, ms1) ∈ d → (k2, ms2) ∈ d →
                      x ∈ ms1 → x ∈ ms2 → k1 = k2) →
  NoDup (mjoin (dict_values d)).
Proof.
  unfold dict_keys, dict_values.
  induction d as [|[k ms] d IH]; csimpl; intros Hk Hms Hdisj.
  - apply NoDup_nil_2.
  - apply NoDup_cons in Hk as [Hk Hk']. apply NoDup_app. split_and!.
    + apply (Hms k). left.
    + intros x Hx (ms' & Hx' & (e & -> & He)%list_elem_of_fmap)%list_elem_of_join.
      destruct e as [k' ms']. simpl in *.
      assert (k = k') as <-.
      { apply (Hdisj k ms k' ms' x); [left | by right | done | done]. }
      apply Hk. apply list_elem_of_fmap. by exists (k, ms').
    + apply IH; [done | |].
      * intros k' ms' ?. apply (Hms k'). by right.
      * intros k1 ms1 k2 ms2 x ? ?. apply Hdisj; by right.
Qed.

Lemma groups_lookup groups r ms :
  NoDup (dict_keys groups) → (r, ms) ∈ groups ↔ dict_get r groups = Some ms.
Proof. intros. split; [by apply dict_elem_get | apply dict_get_Some_elem]. Qed.

Lemma groups_join_NoDup P seen groups :
  groups_inv P seen groups → NoDup (mjoin (dict_values groups)).
Proof.
  intros [Hk Hm He Hr]. apply dict_values_join_NoDup; [done | |].
  - intros k ms ?%groups_lookup; [|done]. by apply (Hm k).
  - intros k1 ms1 k2 ms2 x H1%groups_lookup H2%groups_lookup Hx1 Hx2; [|done..].
    apply (He _ _ x H1) in Hx1 as [_ Hx1]. apply (He _ _ x H2) in Hx2 as [_ Hx2].
    by eapply rootR_fun.
Qed.

Lemma groups_values_nonempty P seen groups ms :
  groups_inv P seen groups → ms ∈ dict_values groups → ms ≠ [].
Proof.
  intros [Hk Hm He Hr] ([r ms'] & -> & Hin)%list_elem_of_fmap.
  apply groups_lookup in Hin; [|done]. by apply (Hm r).
Qed.

Lemma groups_join_elem P h groups x :
  (∀ y, y ∈ dict_keys P → ∃ r n, repr P y r n ∧ (n ≤ h)%nat) →
  groups_inv P (dict_keys P) groups →
  x ∈ mjoin (dict_values groups) ↔ x ∈ dict_keys P.
Proof.
  intros Hinv [Hk Hm He Hr]. rewrite list_elem_of_join. split.
  - intros (ms & Hx & ([r ms'] & -> & Hin)%list_elem_of_fmap).
    apply groups_lookup in Hin; [|done]. by apply (He _ _ x Hin) in Hx as [? _].
  - intros Hx. destruct (Hinv x Hx) as (r & n & Hn & _).
    assert (rootR P x r) as Hxr by (left; eauto).
    destruct (proj2 (dict_get_is_Some groups r) (Hr x r Hx Hxr)) as [ms Hms].
    exists ms. split; [by apply (He _ _ x Hms)|].
    apply list_elem_of_fmap. exists (r, ms). split; [done|].
    by apply dict_get_Some_elem.
Qed.
End groups_facts.

(** ** [deduplicate_users] as a whole *)

Section dedup_facts.
Variable set_order : list (Z * Z) → list (Z * Z).
Hypothesis set_order_perm : ∀ l, set_order l ≡ₚ l.

Implicit Types (users : list user_row).

Lemma build_user_data_keys users k :
  k ∈ dict_keys (build_user_data users) ↔ k ∈ row_id <$> users.
Proof.
  unfold build_user_data.
  assert (∀ ud, k ∈ dict_keys (foldl (λ ud row, dict_set (row_id row) (row_fields row) ud)
                                     ud users)
                ↔ k ∈ dict_keys ud ∨ k ∈ row_id <$> users) as Hgen.
  { induction users as [|r users IH]; intros ud; csimpl.
    - rewrite elem_of_nil. tauto.
    - rewrite IH, dict_keys_set_elem, elem_of_cons. tauto. }
  rewrite Hgen. simpl. rewrite elem_of_nil. tauto.
Qed.

Lemma build_user_data_get users u d :
  dict_get u (build_user_data users) = Some d →
  ∃ r, r ∈ users ∧ row_id r = u ∧ d = row_fields r.
Proof.
  unfold build_user_data.
  assert (∀ ud, dict_get u (foldl (λ ud row, dict_set (row_id row) (row_fields row) ud)
                                  ud users) = Some d →
                dict_get u ud = Some d ∨
                ∃ r, r ∈ users ∧ row_id r = u ∧ d = row_fields r) as Hgen.
  { induction users as [|r users IH]; intros ud; csimpl; [by left|].
    intros [Hg | (r' & ? & ? & ?)]%IH.
    - rewrite dict_get_set in Hg. case_decide; [|by left].
      simplify_eq. right. exists r. split; [left | done].
    - right. exists r'. split; [by right | done]. }
  intros [? | ?]%Hgen; done.
Qed.

Lemma pair_ids users p :
  p ∈ potential_pairs (build_indexes users) →
  p.1 ∈ row_id <$> users ∧ p.2 ∈ row_id <$> users.
Proof.
  intros (r1 & r2 & [H1 H2]%ordered_pair_elem & _ & ->)%potential_pairs_char.
  apply (list_elem_of_fmap_2 row_id) in H1, H2. simpl.
  destruct (Z.min_spec (row_id r1) (row_id r2)) as [[_ ->] | [_ ->]];
    destruct (Z.max_spec (row_id r1) (row_id r2)) as [[_ ->] | [_ ->]]; done.
Qed.

Lemma dedup_op_ids users op z :
  op ∈ dedup_ops set_order users → z ∈ op_ids op → z ∈ row_id <$> users.
Proof.
  unfold dedup_ops, union_ops. intros [Hop | Hop]%elem_of_app.
  - apply list_elem_of_fmap in Hop as (x & -> & ?).
    by intros ->%list_elem_of_singleton.
  - apply list_elem_of_fmap in Hop as (q & -> & [_ Hq]%list_elem_of_filter).
    rewrite set_order_perm in Hq. apply pair_ids in Hq as [? ?].
    intros [-> | ->%list_elem_of_singleton]%elem_of_cons; done.
Qed.

(** Step 5 unions candidate pairs only, and only those it judged to match. *)
Lemma dedup_unions_are_candidates users a b :
  unioned (dedup_ops set_order users) a b →
  (a, b) ∈ potential_pairs (build_indexes users) ∧
  judged (build_user_data users) (a, b) = true.
Proof.
  unfold unioned, dedup_ops, union_ops. intros [Hop | Hop]%elem_of_app.
  - by apply list_elem_of_fmap in Hop as (x & ? & _).
  - apply list_elem_of_fmap in Hop as ([a' b'] & [= -> ->] & [Hj Hq]%list_elem_of_filter).
    by rewrite set_order_perm in Hq.
Qed.

Lemma dedup_union_calls users :
  (union_calls (dedup_ops set_order users)
   ≤ length (potential_pairs (build_indexes users)))%nat.
Proof.
  unfold dedup_ops. rewrite union_calls_app, union_calls_finds. simpl.
  etrans; [apply union_calls_union_ops|]. by rewrite set_order_perm.
Qed.

Lemma dedup_spec fuel users :
  (length (potential_pairs (build_indexes users)) < fuel)%nat →
  ∃ uf P' groups ug,
    run_ops fuel (dedup_ops set_order users) UnionFind_init = Ok uf ∧
    uf_inv uf (union_calls (dedup_ops set_order users)) ∧
    (∀ a b, same_group (parent uf) a b ↔ connected (dedup_ops set_order users) a b) ∧
    (∀ z, z ∈ dict_keys (parent uf) ↔ z ∈ row_id <$> users) ∧
    get_groups fuel uf = Ok (mkUF P' (rank uf), groups) ∧
    groups_inv (parent uf) (dict_keys (parent uf)) groups ∧
    deduplicate_users set_order fuel users = Ok (length groups, ug) ∧
    Forall2 canonical_of (dict_values groups) ug.
Proof.
  intros Hfuel. pose proof (dedup_union_calls users) as Hcalls.
  destruct (run_ops_init fuel (dedup_ops set_order users) ltac:(lia))
    as (uf & Hrun & Hinv & Hgrp).
  assert (Hkeys : ∀ z, z ∈ dict_keys (parent uf) ↔ z ∈ row_id <$> users).
  { intros z.
    assert (0 + union_calls (dedup_ops set_order users) < fuel)%nat as Hf0 by lia.
    rewrite (run_ops_keys fuel _ UnionFind_init 0 uf uf_inv_init Hf0 Hrun z).
    simpl. rewrite elem_of_nil. split.
    - intros [[] | (op & ? & ?)]. by eapply dedup_op_ids.
    - intros Hz. right. exists (OpFind z). split; [|by left].
      unfold dedup_ops. apply elem_of_app. left. by apply list_elem_of_fmap_2. }
  destruct (get_groups_spec fuel uf _ Hinv ltac:(lia)) as (P' & groups & Hg & _ & _ & Hgi).
  destruct (canonical_groups_spec (dict_values groups) []) as (ug & Hug & Hall).
  { intros ms. by eapply groups_values_nonempty. }
  { by eapply groups_join_NoDup. }
  { by intros k ms ?%elem_of_nil. }
  exists uf, P', groups, ug. split_and!; try done.
  unfold deduplicate_users. rewrite register_all_run.
  unfold dedup_ops in Hrun. rewrite run_ops_app in Hrun.
  destruct (run_ops fuel (OpFind <$> (row_id <$> users)) UnionFind_init) as [uf0|];
    [|done]. cbn [mbind res_bind] in Hrun |- *.
  rewrite judge_pairs_run.
  2:{ intros q Hq. rewrite set_order_perm in Hq. apply pair_ids in Hq.
      by rewrite !build_user_data_keys. }
  rewrite Hrun. cbn [mbind res_bind]. rewrite Hg. cbn [mbind res_bind].
  by rewrite Hug.
Qed.
End dedup_facts.

Section counting_facts.
Lemma join_length_ge (gs : list (list Z)) :
  (∀ ms, ms ∈ gs → ms ≠ []) → (length gs ≤ length (mjoin gs))%nat.
Proof.
  induction gs as [|ms gs IH]; intros Hne; csimpl; [done|].
  rewrite length_app.
  assert (ms ≠ []) by (apply Hne; left).
  assert (length gs ≤ length (mjoin gs))%nat by (apply IH; intros; apply Hne; by right).
  destruct ms; [done | simpl; lia].
Qed.

Lemma join_length_eq (gs : list (list Z)) :
  (∀ ms, ms ∈ gs → ms ≠ []) →
  length (mjoin gs) = length gs ↔ ∀ ms, ms ∈ gs → length ms = 1%nat.
Proof.
  induction gs as [|ms gs IH]; intros Hne; csimpl.
  - split; [by intros _ ? ?%elem_of_nil | done].
  - rewrite length_app.
    assert (ms ≠ []) by (apply Hne; left).
    assert (Hne' : ∀ ms', ms' ∈ gs → ms' ≠ []) by (intros; apply Hne; by right).
    pose proof (join_length_ge gs Hne').
    assert (1 ≤ length ms)%nat by (destruct ms; [done | simpl; lia]).
    split.
    + intros Hlen ms' [-> | Hin]%elem_of_cons; [lia|].
      apply IH; [done | lia | done].
    + intros Hall. rewrite (Hall ms) by left.
      rewrite (proj2 (IH Hne')); [done|]. intros; apply Hall; by right.
Qed.

Lemma ordered_pair_NoDup {A} (l : list A) a b :
  NoDup l → ordered_pair l a b → a ≠ b.
Proof.
  intros Hl. induction 1 as [x l b Hb | x l a b _ IH];
    apply NoDup_cons in Hl as [Hx Hl]; [|by apply IH].
  by intros ->.
Qed.

Lemma connected_finds zs a b : connected (OpFind <$> zs) a b → a = b.
Proof.
  assert (∀ a b, ¬ unioned (OpFind <$> zs) a b) as Hno.
  { intros a' b' (x & ? & _)%list_elem_of_fmap. done. }
  induction 1 as [a | a c b [Hac | Hca] _ IH]; [done|..]; by edestruct Hno.
Qed.

Lemma unique_group_entry (d : list (Z * list Z)) c ms c' ms' x :
  NoDup (mjoin (dict_values d)) →
  (c, ms) ∈ d → (c', ms') ∈ d → x ∈ ms → x ∈ ms' → c = c' ∧ ms = ms'.
Proof.
  unfold dict_values.
  induction d as [|[k0 m0] d IH]; csimpl; [by intros _ ?%elem_of_nil|].
  intros (Hm0 & Hdisj & Hnd)%NoDup_app H1 H2 Hx Hx'.
  assert (Hin : ∀ k m, (k, m) ∈ d → x ∈ m → x ∈ mjoin d.*2).
  { intros k m ? ?. apply list_elem_of_join. exists m. split; [done|].
    apply list_elem_of_fmap. by exists (k, m). }
  apply elem_of_cons in H1 as [? | H1], H2 as [? | H2]; simplify_eq.
  - done.
  - destruct (Hdisj x Hx). by eapply Hin.
  - destruct (Hdisj x Hx'). by eapply Hin.
  - by apply IH.
Qed.
End counting_facts.

(** ** The deduplication claims *)

Section dedup_claims.
Variable set_order : list (Z * Z) → list (Z * Z).
Hypothesis set_order_perm : ∀ l, set_order l ≡ₚ l.

(** C3.  Whatever the order in which the candidate set is enumerated,
    [deduplicate_users] returns, and the groups of its mapping partition
    the input identifiers: the member lists together hold every input
    identifier and nothing else, no identifier occurs twice in them, and
    each input identifier belongs to exactly one entry, also when its
    record shares no field with any other. *)
Theorem dedup_partition (users : list user_row) (k : nat) :
  let fuel := S (length (potential_pairs (build_indexes users)) + k) in
  ∃ count user_groups,
    deduplicate_users set_order fuel users = Ok (count, user_groups) ∧
    NoDup (dict_keys user_groups) ∧
    NoDup (mjoin (dict_values user_groups)) ∧
    (∀ x, x ∈ mjoin (dict_values user_groups) ↔ x ∈ row_id <$> users) ∧
    (∀ x, x ∈ row_id <$> users →
       ∃ c ms, (c, ms) ∈ user_groups ∧ x ∈ ms ∧
               ∀ c' ms', (c', ms') ∈ user_groups → x ∈ ms' → c' = c ∧ ms' = ms).
Proof.
  intros fuel.
  destruct (dedup_spec set_order set_order_perm fuel users ltac:(unfold fuel; lia))
    as (uf & P' & groups & ug & _ & Hinv & _ & Hkeys & _ & Hgi & Hd & Hall).
  pose proof (groups_join_NoDup _ _ _ Hgi) as Hnd.
  assert (Hperm : mjoin (dict_values ug) ≡ₚ mjoin (dict_values groups)).
  { rewrite (canonical_values _ _ Hall). apply join_sorted. }
  assert (Hnd' : NoDup (mjoin (dict_values ug))) by by rewrite Hperm.
  assert (Hel : ∀ x, x ∈ mjoin (dict_values ug) ↔ x ∈ row_id <$> users).
  { intros x. rewrite Hperm, <- Hkeys.
    eapply groups_join_elem; [|done]. by destruct Hinv. }
  exists (length groups), ug. split_and!; try done.
  - by eapply canonical_keys_NoDup.
  - intros x Hx. apply Hel in Hx.
    apply list_elem_of_join in Hx as (ms & Hx & ([c ms'] & -> & Hin)%list_elem_of_fmap).
    exists c, ms'. split_and!; [done | done |].
    intros c' ms'' Hin' Hx'.
    by destruct (unique_group_entry ug c ms' c' ms'' x Hnd' Hin Hin' Hx Hx').
Qed.

(** C5.  Every entry of the returned mapping is keyed by the minimum of
    its members, and its member list is in ascending order. *)
Theorem dedup_canonical_sorted (users : list user_row) (k : nat) :
  let fuel := S (length (potential_pairs (build_indexes users)) + k) in
  ∃ count user_groups,
    deduplicate_users set_order fuel users = Ok (count, user_groups) ∧
    ∀ c ms, (c, ms) ∈ user_groups →
      c ∈ ms ∧ (∀ z, z ∈ ms → c ≤ z) ∧ StronglySorted Z.le ms.
Proof.
  intros fuel.
  destruct (dedup_spec set_order set_order_perm fuel users ltac:(unfold fuel; lia))
    as (uf & P' & groups & ug & _ & _ & _ & _ & _ & _ & Hd & Hall).
  exists (length groups), ug. split; [done|].
  intros c ms [i Hi]%list_elem_of_lookup.
  destruct (Forall2_lookup_r _ _ _ _ _ Hall Hi) as (members & _ & Hs & Hin & Hle).
  simpl in *. subst ms. unfold sorted. split_and!.
  - by rewrite merge_sort_Permutation.
  - intros z. rewrite merge_sort_Permutation. apply Hle.
  - apply StronglySorted_merge_sort; apply _.
Qed.

(** C6.  The returned count is the number of entries of the returned
    mapping and is at most the number of input records; it equals the
    number of records only when step 5 made no [union] call, and, the
    identifiers being pairwise distinct as the data model has them, it does
    equal it whenever step 5 made no [union] call. *)
Theorem dedup_unique_count (users : list user_row) (k : nat) :
  let pairs := potential_pairs (build_indexes users) in
  let fuel := S (length pairs + k) in
  ∃ count user_groups,
    deduplicate_users set_order fuel users = Ok (count, user_groups) ∧
    count = length user_groups ∧
    (count ≤ length users)%nat ∧
    (count = length users →
     union_ops (build_user_data users) (set_order pairs) = []) ∧
    (NoDup (row_id <$> users) →
     union_ops (build_user_data users) (set_order pairs) = [] →
     count = length users).
Proof.
  intros pairs fuel.
  destruct (dedup_spec set_order set_order_perm fuel users ltac:(unfold fuel, pairs; lia))
    as (uf & P' & groups & ug & _ & Hinv & Hgrp & Hkeys & _ & Hgi & Hd & Hall).
  exists (length groups), ug. split; [done|].
  pose proof (groups_join_NoDup _ _ _ Hgi) as Hnd.
  assert (Hne : ∀ ms, ms ∈ dict_values groups → ms ≠ []).
  { intros ms. by eapply groups_values_nonempty. }
  assert (Hjk : mjoin (dict_values groups) ≡ₚ dict_keys (parent uf)).
  { apply NoDup_Permutation; [done | by destruct Hinv |].
    intros x. eapply groups_join_elem; [|done]. by destruct Hinv. }
  assert (Hlen1 : length groups = length (dict_values groups)).
  { unfold dict_values. by rewrite length_fmap. }
  assert (Hlen2 : (length (dict_values groups) ≤ length (dict_keys (parent uf)))%nat).
  { rewrite <- Hjk. by apply join_length_ge. }
  assert (Hlen3 : (length (dict_keys (parent uf)) ≤ length users)%nat).
  { rewrite <- (length_fmap row_id users). apply submseteq_length.
    apply NoDup_submseteq; [by destruct Hinv|]. intros x. by rewrite Hkeys. }
  assert (Hiff : NoDup (row_id <$> users) →
    (length groups = length users ↔
     union_ops (build_user_data users) (set_order pairs) = [])); last first.
  { split_and!.
    - rewrite Hlen1. by eapply Forall2_length.
    - lia.
    - intros Hc. apply Hiff; [|done].
      assert (dict_keys (parent uf) ≡ₚ row_id <$> users) as <-; [|by destruct Hinv].
      apply submseteq_length_Permutation.
      + apply NoDup_submseteq; [by destruct Hinv|]. intros x. by rewrite Hkeys.
      + rewrite length_fmap. lia.
    - intros Hids. by apply Hiff. }
  { intros Hids.
    assert (Hlen3' : length (dict_keys (parent uf)) = length users).
    { rewrite <- (length_fmap row_id users). apply Permutation_length.
      apply NoDup_Permutation; [by destruct Hinv | done | done]. }
    assert (Hsing : length groups = length users ↔
                    ∀ ms, ms ∈ dict_values groups → length ms = 1%nat).
    { rewrite <- (join_length_eq _ Hne), Hjk. lia. }
    rewrite Hsing. split.
    + intros Hall1.
      destruct (union_ops _ _) as [|op ops'] eqn:Eops; [done|]. exfalso.
      assert (op ∈ union_ops (build_user_data users) (set_order pairs)) as Hop.
      { rewrite Eops. left. }
      unfold union_ops in Hop.
      apply list_elem_of_fmap in Hop as ([a b] & -> & [_ Hq]%list_elem_of_filter).
      simpl in *. rewrite set_order_perm in Hq.
      apply pair_ids in Hq as Hab. destruct Hab as [Ha Hb]. simpl in *.
      apply potential_pairs_char in Hq as (r1 & r2 & Hord & _ & [= -> ->]).
      assert (row_id r1 ≠ row_id r2) as Hneq.
      { eapply (ordered_pair_NoDup (row_id <$> users)); [done|].
        apply ordered_pair_fmap. eauto. }
      set (a := Z.min (row_id r1) (row_id r2)) in *.
      set (b := Z.max (row_id r1) (row_id r2)) in *.
      assert (a ≠ b) as Hab by (unfold a, b; lia).
      assert (same_group (parent uf) a b) as (r & Har & Hbr).
      { apply Hgrp. apply rtsc_lr. unfold unioned, dedup_ops.
        apply elem_of_app. right. fold pairs. rewrite Eops. left. }
      apply Hkeys in Ha, Hb.
      destruct Hgi as [Hgk Hgm Hge Hgr].
      destruct (proj2 (dict_get_is_Some groups r) (Hgr a r Ha Har)) as [ms Hms].
      assert (a ∈ ms) as Ha' by by apply (Hge _ _ a Hms).
      assert (b ∈ ms) as Hb' by by apply (Hge _ _ b Hms).
      assert (length ms = 1%nat) as Hl.
      { apply Hall1. apply list_elem_of_fmap. exists (r, ms).
        split; [done | by apply dict_get_Some_elem]. }
      destruct ms as [|x [|y ms]]; simplify_eq/=.
      apply list_elem_of_singleton in Ha', Hb'. congruence.
    + intros Eops ms ([r ms'] & -> & Hin)%list_elem_of_fmap. simpl.
      destruct Hgi as [Hgk Hgm Hge Hgr].
      apply groups_lookup in Hin; [|done].
      destruct (Hgm _ _ Hin) as [Hnd' Hne'].
      assert (Heq : ∀ x y, x ∈ ms' → y ∈ ms' → x = y).
      { intros x y [_ Hx]%(Hge _ _ x Hin) [_ Hy]%(Hge _ _ y Hin).
        assert (connected (dedup_ops set_order users) x y) as Hc.
        { apply Hgrp. by exists r. }
        unfold dedup_ops in Hc. fold pairs in Hc. rewrite Eops, app_nil_r in Hc.
        by apply connected_finds in Hc. }
      destruct ms' as [|x [|y ms']]; [done | done |].
      apply NoDup_cons in Hnd' as [Hx _]. destruct Hx.
      rewrite (Heq x y); [left | left | right; left]. }
Qed.
End dedup_claims.

(** ** [find_top_customer] *)

Section top_customer_facts.
Context {M : Type} `{Money M}.
Implicit Types (orders : list (order_row M)) (groups : list (Z * list Z))
  (us cs : list (Z * M)) (u2c : list (Z * Z)).

Lemma dict_get_tabulate {V} (f : Z → V) (l : list Z) k :
  dict_get k ((λ k, (k, f k)) <$> l) = if decide (k ∈ l) then Some (f k) else None.
Proof.
  induction l as [|x l IH].
  - destruct (decide (k ∈ [])) as [Hd%elem_of_nil | _]; done.
  - csimpl. rewrite IH.
    destruct (decide (x = k)) as [-> | Hx], (decide (k ∈ l)) as [Hl | Hl],
      (decide (k ∈ _ :: l)) as [Hc | Hc]; try done.
    + destruct Hc. left.
    + destruct Hc. left.
    + destruct Hc. by right.
    + by apply elem_of_cons in Hc as [? | ?].
Qed.

Lemma groupby_sum_get orders k :
  dict_get k (groupby_sum orders) =
    if decide (k ∈ user_id <$> orders)
    then Some (foldl m_add m_zero
                 (paid_price <$> filter (λ o, user_id o = k) orders))
    else None.
Proof.
  unfold groupby_sum. rewrite dict_get_tabulate.
  assert (k ∈ sorted (remove_dups (user_id <$> orders)) ↔ k ∈ user_id <$> orders) as Hk.
  { unfold sorted. by rewrite merge_sort_Permutation, elem_of_remove_dups. }
  repeat case_decide; tauto.
Qed.

Lemma groupby_sum_keys orders :
  dict_keys (groupby_sum orders) = sorted (remove_dups (user_id <$> orders)).
Proof.
  unfold groupby_sum, dict_keys. rewrite <- list_fmap_compose.
  by rewrite list_fmap_id.
Qed.

Lemma invert_members_get u2c c ms uid :
  dict_get uid (foldl (λ u2c uid, dict_set uid c u2c) u2c ms) =
    if decide (uid ∈ ms) then Some c else dict_get uid u2c.
Proof.
  revert u2c. induction ms as [|x ms IH]; intros u2c.
  - destruct (decide (uid ∈ [])) as [Hd%elem_of_nil | _]; done.
  - simpl. rewrite IH, dict_get_set.
    destruct (decide (x = uid)) as [-> | Hx], (decide (uid ∈ ms)) as [Hl | Hl],
      (decide (uid ∈ _ :: ms)) as [Hc | Hc]; try done.
    + destruct Hc. by right.
    + destruct Hc. left.
    + destruct Hc. by right.
    + by apply elem_of_cons in Hc as [? | ?].
Qed.

Lemma u2c_get_Some groups u2c uid c :
  dict_get uid (foldl invert_group u2c groups) = Some c →
  dict_get uid u2c = Some c ∨ ∃ ms, (c, ms) ∈ groups ∧ uid ∈ ms.
Proof.
  revert u2c. induction groups as [|[c' ms'] groups IH]; intros u2c; simpl; [by left|].
  intros [Hg | (ms & ? & ?)]%IH.
  - rewrite invert_members_get in Hg. case_decide; [|by left].
    simplify_eq. right. exists ms'. split; [left | done].
  - right. exists ms. split; [by right | done].
Qed.

Lemma u2c_get_None groups u2c uid :
  dict_get uid (foldl invert_group u2c groups) = None ↔
    dict_get uid u2c = None ∧ ∀ c ms, (c, ms) ∈ groups → uid ∉ ms.
Proof.
  revert u2c. induction groups as [|[c' ms'] groups IH]; intros u2c; simpl.
  - split; [|by intros [? _]]. intros ?. split; [done|]. by intros c ms ?%elem_of_nil.
  - rewrite IH, invert_members_get. split.
    + intros [Hg Hno]. case_decide; [done|]. split; [done|].
      intros c ms [? | ?]%elem_of_cons; [by simplify_eq | by eapply Hno].
    + intros [Hg Hno]. rewrite decide_False by (apply (Hno c'); left).
      split; [done|]. intros c ms ?. apply (Hno c). by right.
Qed.

Lemma spend_get u2c us cs c :
  dict_get c (foldl (spend_step u2c) cs us) =
    match (snd <$> filter (λ e, canonical_id u2c e.1 = c) us) with
    | [] => dict_get c cs
    | l => Some (foldl m_add (default m_zero (dict_get c cs)) l)
    end.
Proof.
  revert cs. induction us as [|[uid sp] us IH]; intros cs; [done|].
  cbn [foldl]. rewrite IH, filter_cons. cbn [fst].
  assert (dict_get c (spend_step u2c cs (uid, sp)) =
          if decide (canonical_id u2c uid = c)
          then Some (m_add (default m_zero (dict_get c cs)) sp)
          else dict_get c cs) as ->.
  { unfold spend_step. rewrite dict_get_set.
    by destruct (decide (canonical_id u2c uid = c)) as [-> | ?]. }
  destruct (decide (canonical_id u2c uid = c)) as [Hc | Hc]; csimpl.
  - by destruct (snd <$> filter _ us).
  - done.
Qed.

Lemma spend_keys_NoDup u2c us cs :
  NoDup (dict_keys cs) → NoDup (dict_keys (foldl (spend_step u2c) cs us)).
Proof.
  revert cs. induction us as [|[uid sp] us IH]; intros cs Hcs; [done|].
  apply IH. by apply dict_keys_set_NoDup.
Qed.

Lemma spend_keys u2c us c :
  c ∈ dict_keys (build_canonical_spending u2c us) ↔
    ∃ uid, uid ∈ dict_keys us ∧ canonical_id u2c uid = c.
Proof.
  unfold build_canonical_spending.
  rewrite <- dict_get_is_Some, (spend_get u2c us [] c). simpl.
  split.
  - destruct (snd <$> filter _ us) as [|x l] eqn:E; [by intros [? ?]|]. intros _.
    assert (x ∈ snd <$> filter (λ e, canonical_id u2c e.1 = c) us) as Hx
      by (rewrite E; left).
    apply list_elem_of_fmap in Hx as ([uid sp] & _ & [Hc Hin]%list_elem_of_filter).
    exists uid. split; [|done]. apply list_elem_of_fmap. by exists (uid, sp).
  - intros (uid & ([uid' sp] & -> & Hin)%list_elem_of_fmap & Hc).
    assert (sp ∈ snd <$> filter (λ e, canonical_id u2c e.1 = c) us) as Hx.
    { apply list_elem_of_fmap. exists (uid', sp). split; [done|].
      by apply list_elem_of_filter. }
    destruct (snd <$> filter _ us); [by apply elem_of_nil in Hx | done].
Qed.
End top_customer_facts.

Section top_customer_claims.
Context {M : Type} `{Money M}.
Implicit Types (orders : list (order_row M)) (user_groups : list (Z * list Z)).

(** The comparison [>] is the strict part of a total preorder, as it is
    on amounts that are numbers. *)
Hypothesis gt_asym : ∀ a b : M, m_gt a b = true → m_gt b a = false.
Hypothesis le_trans : ∀ a b c : M,
  m_gt a b = false → m_gt b c = false → m_gt a c = false.

Lemma foldl_max_spec (key : Z → M) ks k0 :
  let best := foldl (λ best k, if m_gt (key k) (key best) then k else best) k0 ks in
  best ∈ k0 :: ks ∧
  m_gt (key k0) (key best) = false ∧
  ∀ k, k ∈ ks → m_gt (key k) (key best) = false.
Proof.
  assert (Hirr : ∀ a : M, m_gt a a = false).
  { intros a. destruct (m_gt a a) eqn:E; [|done]. by rewrite (gt_asym _ _ E) in E. }
  revert k0. induction ks as [|k1 ks IH]; intros k0; simpl.
  - split_and!; [left | apply Hirr | by intros k ?%elem_of_nil].
  - destruct (IH (if m_gt (key k1) (key k0) then k1 else k0)) as (Hin & Hle & Hall).
    split_and!.
    + apply elem_of_cons in Hin as [-> | Hin]; [|by right; right].
      destruct (m_gt (key k1) (key k0)); [right; left | left].
    + destruct (m_gt (key k1) (key k0)) eqn:E; [|done].
      eapply le_trans; [by apply gt_asym | done].
    + intros k [-> | Hk]%elem_of_cons; [|by apply Hall].
      destruct (m_gt (key k1) (key k0)) eqn:E; [done|].
      by eapply le_trans.
Qed.

Lemma py_max_key_spec (d : list (Z * M)) :
  d ≠ [] →
  ∃ best, py_max_key d = Ok best ∧ best ∈ dict_keys d ∧
    ∀ k, k ∈ dict_keys d →
         m_gt (default m_zero (dict_get k d)) (default m_zero (dict_get best d)) = false.
Proof.
  intros Hd. unfold py_max_key.
  destruct (dict_keys d) as [|k0 ks] eqn:E.
  { destruct d; [done | discriminate]. }
  destruct (foldl_max_spec (λ k, default m_zero (dict_get k d)) ks k0)
    as (Hin & Hle & Hall).
  eexists. split; [done|]. split; [done|].
  intros k [-> | Hk]%elem_of_cons; [done | by apply Hall].
Qed.

(** C7.  For non-empty orders [find_top_customer] returns: the per-record
    spending is the sum of the prices of each [user_id]; an identifier is
    mapped to the key of a group that lists it, and to itself when no
    group lists it; the spending is aggregated per canonical identifier;
    the chosen canonical identifier is that of some order and no
    canonical identifier has a greater total; the result is the members
    of the chosen group (the identifier alone when it keys no group) in
    ascending order, with the total rounded to 2 decimal places. *)
Theorem top_customer_spec orders user_groups :
  orders ≠ [] →
  let user_spending := groupby_sum orders in
  let canon := canonical_id (build_user_to_canonical user_groups) in
  let total c :=
    foldl m_add m_zero (snd <$> filter (λ e, canon e.1 = c) user_spending) in
  (∀ uid, dict_get uid user_spending =
            if decide (uid ∈ user_id <$> orders)
            then Some (foldl m_add m_zero
                         (paid_price <$> filter (λ o, user_id o = uid) orders))
            else None) ∧
  (∀ uid, (canon uid = uid ∧ ∀ c ms, (c, ms) ∈ user_groups → uid ∉ ms) ∨
          (∃ ms, (canon uid, ms) ∈ user_groups ∧ uid ∈ ms)) ∧
  (NoDup (mjoin (dict_values user_groups)) →
   ∀ c ms uid, (c, ms) ∈ user_groups → uid ∈ ms → canon uid = c) ∧
  ∃ top,
    (∃ o, o ∈ orders ∧ canon (user_id o) = top) ∧
    (∀ o, o ∈ orders → m_gt (total (canon (user_id o))) (total top) = false) ∧
    find_top_customer orders user_groups =
      Ok (sorted (default [top] (dict_get top user_groups)), m_round2 (total top)) ∧
    StronglySorted Z.le (sorted (default [top] (dict_get top user_groups))).
Proof.
  intros Hne user_spending canon total.
  set (u2c := build_user_to_canonical user_groups) in *.
  set (cs := build_canonical_spending u2c user_spending).
  assert (Hcanon : ∀ uid,
    (canon uid = uid ∧ ∀ c ms, (c, ms) ∈ user_groups → uid ∉ ms) ∨
    (∃ ms, (canon uid, ms) ∈ user_groups ∧ uid ∈ ms)).
  { intros uid. unfold canon, canonical_id.
    destruct (dict_get uid u2c) as [c|] eqn:E; simpl.
    - right. apply u2c_get_Some in E as [? | ?]; done.
    - left. split; [done|]. by apply u2c_get_None in E as [_ ?]. }
  assert (Hkey : ∀ c, default m_zero (dict_get c cs) = total c).
  { intros c. unfold cs, build_canonical_spending. rewrite spend_get. unfold total.
    fold canon. by destruct (snd <$> filter _ user_spending). }
  assert (Hkeys : ∀ c, c ∈ dict_keys cs ↔ ∃ o, o ∈ orders ∧ canon (user_id o) = c).
  { intros c. unfold cs. rewrite spend_keys. fold canon.
    unfold user_spending. rewrite groupby_sum_keys. unfold sorted. split.
    - intros (uid & Hu & ?). rewrite merge_sort_Permutation, elem_of_remove_dups in Hu.
      apply list_elem_of_fmap in Hu as (o & -> & ?). eauto.
    - intros (o & ? & ?). exists (user_id o). split; [|done].
      rewrite merge_sort_Permutation, elem_of_remove_dups.
      by apply list_elem_of_fmap_2. }
  split_and!.
  - apply groupby_sum_get.
  - done.
  - intros Hnd c ms uid Hin Huid.
    destruct (Hcanon uid) as [[_ Hno] | (ms' & Hin' & Huid')].
    + by destruct (Hno c ms).
    + by destruct (unique_group_entry user_groups _ _ _ _ uid Hnd Hin' Hin Huid' Huid).
  - destruct (py_max_key_spec cs) as (top & Hmax & Htop & Hle).
    { destruct orders as [|o orders']; [done|].
      assert (canon (user_id o) ∈ dict_keys cs) as Hk.
      { apply Hkeys. exists o. split; [left | done]. }
      intros E. rewrite E in Hk. by apply elem_of_nil in Hk. }
    exists top. split_and!.
    + by apply Hkeys.
    + intros o Ho. rewrite <- !Hkey. apply Hle. apply Hkeys. eauto.
    + unfold find_top_customer, top_customer_of.
      fold user_spending. fold u2c. fold cs. rewrite Hmax. cbn [mbind res_bind].
      apply dict_get_is_Some in Htop as [v Hv].
      rewrite (proj2 (dict_index_Ok _ _ _) Hv). cbn [mbind res_bind].
      by rewrite <- Hkey, Hv.
    + apply StronglySorted_merge_sort; apply _.
Qed.
End top_customer_claims.

(** C10.  With no orders the spending map is empty and [find_top_customer]
    raises the [ValueError] of [max] on an empty collection; it returns no
    value, whatever the groups. *)
Theorem top_customer_empty {M : Type} `{Money M} (user_groups : list (Z * list Z)) :
  groupby_sum (@nil (order_row M)) = [] ∧
  find_top_customer (@nil (order_row M)) user_groups = Raise ValueError ∧
  top_customer_of (@nil (Z * M)) user_groups = Raise ValueError ∧
  ∀ r, find_top_customer (@nil (order_row M)) user_groups ≠ Ok r.
Proof. split_and!; try done. Qed.

(** ** Scenarios of the specification *)

(** Three of four fields agree: one group. *)
Example dedup_three_of_four :
  deduplicate_users (λ l, l) 3 [user_101; user_102] = Ok (1%nat, [(101, [101; 102])]).
Proof. vm_compute. reflexivity. Qed.

(** Only two fields agree: two groups. *)
Example dedup_two_of_four :
  deduplicate_users (λ l, l) 3 [user_101; user_103] =
    Ok (2%nat, [(101, [101]); (103, [103])]).
Proof. vm_compute. reflexivity. Qed.

(** A record without any value is its own group; empty input gives 0. *)
Example dedup_blank_record :
  deduplicate_users (λ l, l) 3 [user_102; user_104; user_101] =
    Ok (2%nat, [(101, [101; 102]); (104, [104])]) ∧
  deduplicate_users (λ l, l) 3 [] = Ok (0%nat, []).
Proof. split; vm_compute; reflexivity. Qed.

(** A repeated identifier is registered once: two records, one group, no
    [union] call. *)
Example dedup_repeated_id :
  deduplicate_users (λ l, l) 1 [user_104; user_104] = Ok (1%nat, [(104, [104])]) ∧
  union_ops (build_user_data [user_104; user_104])
            (potential_pairs (build_indexes [user_104; user_104])) = [].
Proof. split; vm_compute; reflexivity. Qed.

(** The usage example of the class: [{101: {101, 102, 103}}]. *)
Example union_find_usage :
  (uf ← union 3 UnionFind_init 101 102;
   uf ← union 3 uf 102 103;
   '(uf, r) ← find 3 uf 103;
   '(_, groups) ← get_groups 3 uf;
   Ok (r, groups)) = Ok (101, [(101, [101; 102; 103])]).
Proof. vm_compute. reflexivity. Qed.

(** Top customer with aliasing: $500 under 101 and $300 under 102. *)
Example top_customer_aliasing :
  find_top_customer
    [mkOrder 101 (200#1)%Q; mkOrder 102 (300#1)%Q; mkOrder 101 (300#1)%Q;
     mkOrder 7 (1599#2)%Q]
    [(101, [101; 102])] = Ok ([101; 102], (800#1)%Q).
Proof. vm_compute. reflexivity. Qed.

Example top_customer_rounding :
  find_top_customer [mkOrder 5 (1#8)%Q; mkOrder 5 (1#3)%Q] [] = Ok ([5], (23#50)%Q) ∧
  Q_round2 (1#8)%Q = (3#25)%Q ∧ Q_round2 (3#8)%Q = (19#50)%Q.
Proof. split_and!; vm_compute; reflexivity. Qed.

Lemma Q_gt_asym (a b : Q) : m_gt a b = true → m_gt b a = false.
Proof.
  simpl. rewrite negb_true_iff, negb_false_iff. intros Hab.
  apply Qle_bool_iff. destruct (Qlt_le_dec b a) as [?%Qlt_le_weak | Hle]; [done|].
  apply Qle_bool_iff in Hle. congruence.
Qed.

Lemma Q_le_trans (a b c : Q) :
  m_gt a b = false → m_gt b c = false → m_gt a c = false.
Proof.
  simpl. rewrite !negb_false_iff, !Qle_bool_iff. apply Qle_trans.
Qed.

(** ** Instances of the claims on the scenarios *)

Lemma judge_threshold_witness :
  let user_data := build_user_data [user_101; user_102; user_103] in
  dict_get 101 user_data = Some (row_fields user_101) ∧
  dict_get 102 user_data = Some (row_fields user_102) ∧
  judge_pair 3 user_data UnionFind_init (101, 102) = union 3 UnionFind_init 101 102.
Proof.
  intros user_data.
  assert (H1 : dict_get 101 user_data = Some (row_fields user_101)) by reflexivity.
  assert (H2 : dict_get 102 user_data = Some (row_fields user_102)) by reflexivity.
  destruct (judge_threshold 3 user_data UnionFind_init 101 102 user_101 user_102 H1 H2)
    as (_ & Hj & _).
  split_and!; [exact H1 | exact H2 |]. rewrite Hj. reflexivity.
Defined.

Lemma find_union_total_witness :
  ∃ uf uf' r,
    run_ops 2 [OpUnion 1 2] UnionFind_init = Ok uf ∧
    find 2 uf 3 = Ok (uf', r) ∧ r = 3 ∧ rank uf' = dict_set 3 0 (rank uf).
Proof.
  destruct (find_union_total [OpUnion 1 2] 3 1 0)
    as (uf & Hrun & _ & (uf' & r & Hf & _ & _ & Hfresh) & _).
  exists uf, uf', r. split_and!; [exact Hrun | exact Hf | |].
  - apply Hfresh. vm_compute in Hrun. injection Hrun as <-. vm_compute.
    intros Hin. repeat (apply elem_of_cons in Hin as [Hin | Hin]; [discriminate|]).
    by apply elem_of_nil in Hin.
  - apply Hfresh. vm_compute in Hrun. injection Hrun as <-. vm_compute.
    intros Hin. repeat (apply elem_of_cons in Hin as [Hin | Hin]; [discriminate|]).
    by apply elem_of_nil in Hin.
Defined.

Lemma find_stable_union_noop_witness :
  ∃ uf uf',
    run_ops 3 [OpUnion 1 2; OpUnion 2 3] UnionFind_init = Ok uf ∧
    union 3 uf 3 1 = Ok uf' ∧
    dict_keys (parent uf') = dict_keys (parent uf) ∧ rank uf' = rank uf.
Proof.
  destruct (find_stable_union_noop [OpUnion 1 2; OpUnion 2 3] [] 3 1 0)
    as (uf & Hrun & _ & Hnoop & _).
  assert (Huf : uf = mkUF [(1, 1); (2, 1); (3, 1)] [(1, 1); (2, 0); (3, 0)]).
  { vm_compute in Hrun. by injection Hrun as <-. }
  destruct Hnoop as (uf' & Hu & Hk & Hr & _).
  - rewrite Huf. right; right; left.
  - exists uf, uf, 1. rewrite Huf. split; reflexivity.
  - exists uf, uf'. split_and!; [exact Hrun | exact Hu | exact Hk | exact Hr].
Defined.

Lemma potential_pairs_exact_witness :
  (101, 102) ∈ potential_pairs (build_indexes [user_101; user_102; user_104]) ∧
  101 ≤ 102.
Proof.
  destruct (potential_pairs_exact [user_101; user_102; user_104]) as (_ & Hiff & Hle).
  assert ((101, 102) ∈ potential_pairs (build_indexes [user_101; user_102; user_104]))
    as Hin.
  { apply Hiff. exists 0%nat, 1%nat, user_101, user_102.
    split_and!; [lia | reflexivity | reflexivity | | reflexivity | reflexivity].
    exists email_normalized. split_and!; [left | | reflexivity].
    exists "a@x.com"%string. split; [reflexivity | discriminate]. }
  split; [exact Hin | exact (Hle _ _ Hin)].
Defined.

Lemma dedup_partition_witness :
  (∀ l : list (Z * Z), l ≡ₚ l) ∧
  ∃ count user_groups,
    deduplicate_users (λ l, l) 4 [user_101; user_102; user_103] = Ok (count, user_groups) ∧
    NoDup (mjoin (dict_values user_groups)) ∧
    (∀ x, x ∈ mjoin (dict_values user_groups) ↔ x ∈ [101; 102; 103]).
Proof.
  split; [intros l; reflexivity|].
  destruct (dedup_partition (λ l, l) (λ l, reflexivity l) [user_101; user_102; user_103] 0)
    as (count & ug & Hd & _ & Hnd & Hel & _).
  exists count, ug. split_and!; [exact Hd | exact Hnd | exact Hel].
Defined.

Lemma dedup_canonical_sorted_witness :
  (∀ l : list (Z * Z), l ≡ₚ l) ∧
  ∃ count user_groups,
    deduplicate_users (λ l, l) 4 [user_103; user_102; user_101] = Ok (count, user_groups) ∧
    ∀ c ms, (c, ms) ∈ user_groups → c ∈ ms ∧ StronglySorted Z.le ms.
Proof.
  split; [intros l; reflexivity|].
  destruct (dedup_canonical_sorted (λ l, l) (λ l, reflexivity l)
              [user_103; user_102; user_101] 0) as (count & ug & Hd & Hall).
  exists count, ug. split; [exact Hd|].
  intros c ms Hin. destruct (Hall c ms Hin) as (? & _ & ?). by split.
Defined.

Lemma dedup_unique_count_witness :
  (∀ l : list (Z * Z), l ≡ₚ l) ∧
  NoDup (row_id <$> [user_101; user_103; user_104]) ∧
  ∃ count user_groups,
    deduplicate_users (λ l, l) 2 [user_101; user_103; user_104] = Ok (count, user_groups) ∧
    count = length user_groups ∧ count = 3%nat.
Proof.
  assert (NoDup (row_id <$> [user_101; user_103; user_104])) as Hnd.
  { repeat (apply NoDup_cons; split; [by intros ?%list_elem_of_In; simpl in *; intuition lia|]).
    apply NoDup_nil_2. }
  split; [intros l; reflexivity|]. split; [exact Hnd|].
  destruct (dedup_unique_count (λ l, l) (λ l, reflexivity l)
              [user_101; user_103; user_104] 0) as (count & ug & Hd & Hlen & _ & _ & Hiff).
  exists count, ug. split_and!; [exact Hd | exact Hlen |].
  apply (Hiff Hnd). reflexivity.
Defined.

Lemma top_customer_spec_witness :
  let orders := [mkOrder 101 (500#1)%Q; mkOrder 102 (300#1)%Q; mkOrder 7 (700#1)%Q] in
  let user_groups := [(101, [101; 102])] in
  orders ≠ [] ∧
  (∀ a b : Q, m_gt a b = true → m_gt b a = false) ∧
  (∀ a b c : Q, m_gt a b = false → m_gt b c = false → m_gt a c = false) ∧
  ∃ top,
    (∃ o, o ∈ orders ∧
          canonical_id (build_user_to_canonical user_groups) (user_id o) = top) ∧
    StronglySorted Z.le (sorted (default [top] (dict_get top user_groups))).
Proof.
  intros orders user_groups.
  split; [discriminate|]. split; [exact Q_gt_asym|]. split; [exact Q_le_trans|].
  destruct (top_customer_spec Q_gt_asym Q_le_trans orders user_groups)
    as (_ & _ & _ & top & Ho & _ & _ & Hs); [discriminate|].
  exists top. split; [exact Ho | exact Hs].
Defined.

(** * Further properties of the code *)

(** ** Path compression *)

Section compression_facts.
Implicit Types (uf : UnionFind) (P : list (Z * Z)) (x y r : Z) (n h : nat).

Lemma link_root_none P x y : dict_get x P = Some x → ¬ link P x y.
Proof. intros Hx [Hy Hne]. congruence. Qed.

Lemma rtc_link_step P x p y :
  dict_get x P = Some p → rtc (link P) x y → y = x ∨ (p ≠ x ∧ rtc (link P) p y).
Proof.
  intros Hx Hxy. destruct Hxy as [| x c y [Hc Hne] Hcy]; [by left|].
  right. by simplify_eq.
Qed.

(** [find] on a seen identifier redirects every node of its chain to the
    root and touches nothing else. *)
Lemma find_path fuel uf x r n :
  repr (parent uf) x r n → (n < fuel)%nat →
  ∃ P', find fuel uf x = Ok (mkUF P' (rank uf), r) ∧
        (∀ y, rtc (link (parent uf)) x y → dict_get y P' = Some r) ∧
        (∀ y, ¬ rtc (link (parent uf)) x y → dict_get y P' = dict_get y (parent uf)).
Proof.
  intros Hr. revert fuel.
  induction Hr as [x Hx | x p r n Hx Hne Hr IH]; intros [|fuel] Hfuel; try lia.
  - exists (parent uf). rewrite (find_seen _ _ _ _ Hx).
    rewrite decide_False by auto. destruct uf; simpl in *.
    split_and!; [done | | done].
    intros y [-> | [? _]]%(rtc_link_step _ _ _ _ Hx); done.
  - destruct (IH fuel ltac:(lia)) as (P2 & Hfind & Hon & Hoff).
    exists (dict_set x r P2). rewrite (find_seen _ _ _ _ Hx).
    rewrite decide_True by done. rewrite Hfind. cbn.
    split_and!; [done | |].
    + intros y Hy. rewrite dict_get_set. case_decide; [done|].
      apply (rtc_link_step _ _ _ _ Hx) in Hy as [? | [_ Hy]]; [done|]. by apply Hon.
    + intros y Hy. rewrite dict_get_set.
      rewrite decide_False by (intros ->; apply Hy; reflexivity).
      apply Hoff. intros Hpy. apply Hy. eapply rtc_l; [|done]. by split.
Qed.
End compression_facts.

(** X1.  Path compression: after any history, [find(x)] makes [x] and every
    node on its former parent chain point directly at the returned root,
    and leaves the parent of every other identifier as it was. *)
Theorem find_compresses_path (ops : list uf_op) (x : Z) (k : nat) :
  let fuel := S (union_calls ops + k) in
  ∃ uf uf' r,
    run_ops fuel ops UnionFind_init = Ok uf ∧
    find fuel uf x = Ok (uf', r) ∧
    (∀ y, rtc (link (parent uf)) x y → dict_get y (parent uf') = Some r) ∧
    (∀ y, ¬ rtc (link (parent uf)) x y →
          dict_get y (parent uf') = dict_get y (parent uf)).
Proof.
  intros fuel.
  assert (union_calls ops < fuel)%nat as Hfuel by (unfold fuel; lia).
  destruct (run_ops_init fuel ops Hfuel) as (uf & Hrun & Hinv & _).
  destruct (decide (x ∈ dict_keys (parent uf))) as [Hx | Hx].
  - destruct Hinv as [Hh _ _]. destruct (Hh x Hx) as (r & n & Hr & Hn).
    destruct (find_path fuel uf x r n Hr ltac:(lia)) as (P' & Hf & Hon & Hoff).
    by exists uf, (mkUF P' (rank uf)), r.
  - exists uf, (mkUF (dict_set x x (parent uf)) (dict_set x 0 (rank uf))), x.
    split; [done|]. split; [by apply find_fresh|]. simpl.
    assert (Hnone : dict_get x (parent uf) = None) by by apply dict_get_None.
    split.
    + intros y Hy. destruct Hy as [| x c y [Hc _] _]; [apply dict_get_set_eq | congruence].
    + intros y Hy. rewrite dict_get_set_ne; [done|]. intros ->. apply Hy. reflexivity.
Qed.

(** ** [get_groups] after a history *)

Section groups_history_facts.
Implicit Types (uf : UnionFind) (P : list (Z * Z)) (x y r : Z) (n h : nat).

Lemma flat_compress P P' x : compress_rel P P' → flat P x → flat P' x.
Proof.
  intros Hc (r & Hx & Hr).
  assert (∃ m, repr P x r m) as [m Hm].
  { destruct (decide (r = x)) as [-> | Hne].
    - exists 0%nat. by apply repr_root.
    - exists 1%nat. eapply repr_step; [done | done | by apply repr_root]. }
  exists r. split; [|by apply (compress_root _ _ _ Hc)].
  pose proof Hc as [Hk Hc'].
  assert (is_Some (dict_get x P')) as [p' Hp'].
  { apply dict_get_is_Some. rewrite Hk. apply dict_get_is_Some. eauto. }
  destruct (Hc' _ _ Hp') as [? | [n Hn]]; [congruence|].
  by destruct (repr_fun _ _ _ _ _ _ Hn Hm) as [-> _].
Qed.

Lemma find_flat fuel uf x uf' r h :
  uf_inv uf h → (h < fuel)%nat → x ∈ dict_keys (parent uf) →
  find fuel uf x = Ok (uf', r) → flat (parent uf') x.
Proof.
  intros [Hh _ _] Hfuel Hx Hf. destruct (Hh x Hx) as (r0 & n & Hr & Hn).
  destruct (find_path fuel uf x r0 n Hr ltac:(lia)) as (P' & Hf' & Hon & _).
  rewrite Hf in Hf'. simplify_eq. simpl. exists r0. split.
  - apply Hon. reflexivity.
  - apply Hon. clear -Hr. induction Hr as [x Hx | x p r n Hx Hne Hr IH]; [reflexivity|].
    eapply rtc_l; [|done]. by split.
Qed.

Lemma get_groups_loop_flat fuel ks uf groups h uf' g :
  uf_inv uf h → (h < fuel)%nat →
  (∀ x, x ∈ ks → x ∈ dict_keys (parent uf)) →
  get_groups_loop fuel ks uf groups = Ok (uf', g) →
  ∀ x, x ∈ ks ∨ flat (parent uf) x → flat (parent uf') x.
Proof.
  revert uf groups. induction ks as [|z ks IH]; intros uf groups Hinv Hfuel Hks Hloop x Hx.
  - simpl in Hloop. simplify_eq. by destruct Hx as [?%elem_of_nil | ?].
  - assert (Hz : z ∈ dict_keys (parent uf)) by (apply Hks; left).
    destruct (find_spec fuel uf z h Hinv Hfuel)
      as (uf1 & r & Hf & Hinv1 & _ & _ & _ & Hk1 & _ & Hc & _).
    specialize (Hc Hz). rewrite set_add_old in Hk1 by done.
    cbn [get_groups_loop] in Hloop. rewrite Hf in Hloop. cbn in Hloop.
    rewrite decide_True in Hloop.
    2:{ rewrite <- !(length_fmap fst). unfold dict_keys in Hk1. by rewrite Hk1. }
    apply (IH uf1 _ Hinv1 Hfuel) with (x := x) in Hloop; [done | |].
    + intros y Hy. rewrite Hk1. apply Hks. by right.
    + destruct Hx as [[-> | Hx]%elem_of_cons | Hx]; [right | by left | right].
      * exact (find_flat fuel uf z uf1 r h Hinv Hfuel Hz Hf).
      * by eapply flat_compress.
Qed.

Lemma groups_root_member P h groups r ms :
  (∀ y, y ∈ dict_keys P → ∃ r n, repr P y r n ∧ (n ≤ h)%nat) →
  groups_inv P (dict_keys P) groups → (r, ms) ∈ groups →
  dict_get r P = Some r ∧ r ∈ ms.
Proof.
  intros Hinv [Hk Hm He Hr] Hin. apply groups_lookup in Hin; [|done].
  destruct (Hm _ _ Hin) as [_ Hne]. destruct ms as [|x ms]; [done|].
  assert (x ∈ x :: ms) as Hx by left.
  apply (He _ _ x Hin) in Hx as [Hxk Hxr].
  destruct Hxr as [[n Hn] | [? _]]; [|done].
  apply repr_end_root in Hn as Hroot. split; [done|].
  apply (He _ _ r Hin). by apply root_iff_rootR.
Qed.
End groups_history_facts.

(** X2.  After any history, [get_groups] returns a partition of the
    identifiers the history mentions: the member sets are disjoint and
    together hold exactly those identifiers, every set is keyed by its root,
    which is one of its members, and two identifiers are in one set exactly
    when the [union] calls connect them. *)
Theorem get_groups_partition (ops : list uf_op) (k : nat) :
  let fuel := S (union_calls ops + k) in
  ∃ uf uf' groups,
    run_ops fuel ops UnionFind_init = Ok uf ∧
    get_groups fuel uf = Ok (uf', groups) ∧
    NoDup (dict_keys groups) ∧
    NoDup (mjoin (dict_values groups)) ∧
    (∀ x, x ∈ mjoin (dict_values groups) ↔ ∃ op, op ∈ ops ∧ x ∈ op_ids op) ∧
    (∀ r ms, (r, ms) ∈ groups →
       r ∈ ms ∧ dict_get r (parent uf) = Some r ∧
       ∀ x, x ∈ ms → rootR (parent uf) x r) ∧
    (∀ r1 ms1 r2 ms2 x y,
       (r1, ms1) ∈ groups → (r2, ms2) ∈ groups → x ∈ ms1 → y ∈ ms2 →
       (r1 = r2 ↔ connected ops x y)).
Proof.
  intros fuel.
  assert (union_calls ops < fuel)%nat as Hfuel by (unfold fuel; lia).
  destruct (run_ops_init fuel ops Hfuel) as (uf & Hrun & Hinv & Hgrp).
  destruct (get_groups_spec fuel uf _ Hinv Hfuel) as (P' & groups & Hg & _ & _ & Hgi).
  exists uf, (mkUF P' (rank uf)), groups.
  pose proof Hinv as [Hh _ _]. pose proof Hgi as [Hgk Hgm Hge Hgr].
  split_and!; try done.
  - by eapply groups_join_NoDup.
  - intros x. rewrite (groups_join_elem _ _ _ x Hh Hgi).
    assert (0 + union_calls ops < fuel)%nat as Hf0 by lia.
    rewrite (run_ops_keys fuel ops UnionFind_init 0 uf uf_inv_init Hf0 Hrun x).
    simpl. rewrite elem_of_nil. tauto.
  - intros r ms Hin.
    destruct (groups_root_member _ _ _ _ _ Hh Hgi Hin) as [? ?].
    split_and!; [done | done |].
    apply groups_lookup in Hin; [|done].
    intros x Hx. by apply (Hge _ _ x Hin) in Hx as [_ ?].
  - intros r1 ms1 r2 ms2 x y H1%groups_lookup H2%groups_lookup Hx Hy; [|done..].
    apply (Hge _ _ x H1) in Hx as [_ Hx]. apply (Hge _ _ y H2) in Hy as [_ Hy].
    rewrite <- Hgrp. split.
    + intros ->. by exists r2.
    + intros (r & Hx' & Hy').
      by rewrite (rootR_fun _ _ _ _ Hx Hx'), (rootR_fun _ _ _ _ Hy Hy').
Qed.

(** X3.  [get_groups] fully compresses the structure: afterwards every seen
    identifier points directly at its root, while the keys, the ranks and
    the root of every identifier are as before. *)
Theorem get_groups_flattens (ops : list uf_op) (k : nat) :
  let fuel := S (union_calls ops + k) in
  ∃ uf uf' groups,
    run_ops fuel ops UnionFind_init = Ok uf ∧
    get_groups fuel uf = Ok (uf', groups) ∧
    dict_keys (parent uf') = dict_keys (parent uf) ∧
    rank uf' = rank uf ∧
    (∀ x r, rootR (parent uf') x r ↔ rootR (parent uf) x r) ∧
    (∀ x, x ∈ dict_keys (parent uf) →
       ∃ r, rootR (parent uf) x r ∧
            dict_get x (parent uf') = Some r ∧ dict_get r (parent uf') = Some r).
Proof.
  intros fuel.
  assert (union_calls ops < fuel)%nat as Hfuel by (unfold fuel; lia).
  destruct (run_ops_init fuel ops Hfuel) as (uf & Hrun & Hinv & _).
  destruct (get_groups_spec fuel uf _ Hinv Hfuel) as (P' & groups & Hg & _ & Hc & _).
  exists uf, (mkUF P' (rank uf)), groups. simpl.
  split_and!; [done | done | by destruct Hc | done | |].
  - intros x r. by apply compress_rootR.
  - intros x Hx.
    destruct (get_groups_loop_flat fuel (dict_keys (parent uf)) uf [] _ _ _
                Hinv Hfuel ltac:(done) Hg x ltac:(by left)) as (r & Hxr & Hr).
    simpl in *. exists r. split_and!; [|done..].
    apply (compress_rootR _ _ _ _ Hc). left.
    destruct (decide (r = x)) as [-> | Hne].
    + exists 0%nat. by apply repr_root.
    + exists 1%nat. eapply repr_step; [done | done | by apply repr_root].
Qed.

(** ** More recursion depth changes nothing *)

Section fuel_facts.
Implicit Types (uf : UnionFind) (x y r : Z).

Lemma find_fuel_mono fuel fuel' uf x v :
  (fuel ≤ fuel')%nat → find fuel uf x = Ok v → find fuel' uf x = Ok v.
Proof.
  revert fuel' uf x v.
  induction fuel as [|fuel IH]; intros fuel' uf x v Hle Hf; [done|].
  destruct fuel' as [|fuel']; [lia|].
  cbn [find] in Hf |- *.
  set (uf1 := if dict_mem x (parent uf) then uf
              else mkUF (dict_set x x (parent uf)) (dict_set x 0 (rank uf))) in *.
  destruct (dict_index x (parent uf1)) as [px|]; [|done]. cbn in Hf |- *.
  case_decide; [|done].
  destruct (find fuel uf1 px) as [[uf2 r]|] eqn:E; [|done].
  by rewrite (IH fuel' uf1 px (uf2, r) ltac:(lia) E).
Qed.

Lemma union_fuel_mono fuel fuel' uf x y v :
  (fuel ≤ fuel')%nat → union fuel uf x y = Ok v → union fuel' uf x y = Ok v.
Proof.
  intros Hle. unfold union.
  destruct (find fuel uf x) as [[uf1 rx]|] eqn:E1; [|done].
  rewrite (find_fuel_mono _ _ _ _ _ Hle E1). cbn.
  destruct (find fuel uf1 y) as [[uf2 ry]|] eqn:E2; [|done].
  by rewrite (find_fuel_mono _ _ _ _ _ Hle E2).
Qed.

Lemma get_groups_loop_fuel_mono fuel fuel' ks uf groups v :
  (fuel ≤ fuel')%nat →
  get_groups_loop fuel ks uf groups = Ok v → get_groups_loop fuel' ks uf groups = Ok v.
Proof.
  intros Hle. revert uf groups.
  induction ks as [|x ks IH]; intros uf groups; [done|]. cbn [get_groups_loop].
  destruct (find fuel uf x) as [[uf1 r]|] eqn:E; [|done].
  rewrite (find_fuel_mono _ _ _ _ _ Hle E). cbn.
  case_decide; [apply IH | done].
Qed.

Lemma run_op_fuel_mono fuel fuel' uf op v :
  (fuel ≤ fuel')%nat → run_op fuel uf op = Ok v → run_op fuel' uf op = Ok v.
Proof.
  intros Hle. destruct op as [x | x y |]; simpl.
  - destruct (find fuel uf x) as [[uf1 r]|] eqn:E; [|done].
    by rewrite (find_fuel_mono _ _ _ _ _ Hle E).
  - by apply union_fuel_mono.
  - unfold get_groups.
    destruct (get_groups_loop fuel _ uf []) as [[uf1 g]|] eqn:E; [|done].
    by rewrite (get_groups_loop_fuel_mono _ _ _ _ _ _ Hle E).
Qed.

Lemma run_ops_fuel_mono fuel fuel' ops uf v :
  (fuel ≤ fuel')%nat → run_ops fuel ops uf = Ok v → run_ops fuel' ops uf = Ok v.
Proof.
  intros Hle. revert uf. induction ops as [|op ops IH]; intros uf; [done|].
  cbn [run_ops]. destruct (run_op fuel uf op) as [uf1|] eqn:E; [|done].
  rewrite (run_op_fuel_mono _ _ _ _ _ Hle E). cbn. apply IH.
Qed.
End fuel_facts.

(** ** Union by rank *)

Section rank_facts.
Implicit Types (uf : UnionFind) (P : list (Z * Z)) (x y r : Z) (n h : nat).

Lemma union_unfold fuel uf x y :
  union fuel uf x y =
    '(uf1, root_x) ← find fuel uf x;
    '(uf2, root_y) ← find fuel uf1 y;
    if decide (root_x = root_y) then Ok uf2 else link_roots uf2 root_x root_y.
Proof. reflexivity. Qed.

Lemma rank_is_Some uf h x :
  uf_inv uf h → x ∈ dict_keys (parent uf) → is_Some (dict_get x (rank uf)).
Proof. intros [_ Hrk _] Hx. apply dict_get_is_Some. by rewrite Hrk. Qed.

(** Along a chain of [n] links the rank grows by at least [n]. *)
Lemma rank_path uf h x r n kx kr :
  uf_inv uf h → rank_inv uf → repr (parent uf) x r n →
  dict_get x (rank uf) = Some kx → dict_get r (rank uf) = Some kr →
  kx + Z.of_nat n ≤ kr.
Proof.
  intros Hinv [_ Hincr _] Hr. revert kx.
  induction Hr as [x Hx | x p r n Hx Hne Hr IH]; intros kx Hkx Hkr.
  - simplify_eq. lia.
  - destruct (rank_is_Some uf h p Hinv) as [kp Hkp]; [by eapply repr_key|].
    specialize (IH kp Hkp Hkr). specialize (Hincr x p kx kp Hx Hne Hkx Hkp). lia.
Qed.

(** A chain of [n] links lives in a structure of at least [2 ^ n] keys. *)
Lemma height_log uf h x r n :
  uf_inv uf h → rank_inv uf → repr (parent uf) x r n →
  (2 ^ n ≤ length (dict_keys (parent uf)))%nat.
Proof.
  intros Hinv Hri Hr.
  destruct (rank_is_Some uf h x Hinv) as [kx Hkx]; [by eapply repr_key|].
  pose proof (repr_end_root _ _ _ _ Hr) as Hroot.
  destruct (rank_is_Some uf h r Hinv) as [kr Hkr]; [apply dict_get_is_Some; eauto|].
  pose proof (rank_path uf h x r n kx kr Hinv Hri Hr Hkx Hkr) as Hle.
  destruct Hri as [Hnn _ Hsize].
  pose proof (Hnn _ _ Hkx). pose proof (Hnn _ _ Hkr).
  destruct (Hsize r kr Hroot Hkr) as (l & Hnd & Hl & Hpow).
  assert (length l ≤ length (dict_keys (parent uf)))%nat as Hlen.
  { apply submseteq_length, NoDup_submseteq; [done|].
    intros y Hy. destruct (Hl y Hy) as [m Hm]. by eapply repr_key. }
  assert (2 ^ Z.of_nat n ≤ 2 ^ kr) by (apply Z.pow_le_mono_r; lia).
  apply Nat2Z.inj_le. rewrite Nat2Z.inj_pow. simpl. lia.
Qed.

Lemma uf_inv_log uf h fuel :
  uf_inv uf h → rank_inv uf →
  (length (dict_keys (parent uf)) < 2 ^ fuel)%nat → uf_inv uf (fuel - 1).
Proof.
  intros Hinv Hri Hlen. pose proof Hinv as [Hh Hrk Hnd]. split; [|done..].
  intros x Hx. destruct (Hh x Hx) as (r & n & Hr & _). exists r, n. split; [done|].
  pose proof (height_log uf h x r n Hinv Hri Hr) as Hpow.
  assert (n < fuel)%nat; [|lia].
  apply (Nat.pow_lt_mono_r_iff 2); lia.
Qed.

Lemma rank_lt_root uf h y r n ky kr :
  uf_inv uf h → rank_inv uf → repr (parent uf) y r n → r ≠ y →
  dict_get y (rank uf) = Some ky → dict_get r (rank uf) = Some kr → ky < kr.
Proof.
  intros Hinv Hri Hr Hne Hky Hkr.
  pose proof (rank_path uf h y r n ky kr Hinv Hri Hr Hky Hkr).
  destruct Hr; [done | lia].
Qed.

Lemma rank_inv_compress uf h P' :
  uf_inv uf h → rank_inv uf → compress_rel (parent uf) P' →
  rank_inv (mkUF P' (rank uf)).
Proof.
  intros Hinv Hri Hc. pose proof Hri as [Hnn Hincr Hsize]. split; simpl.
  - done.
  - intros x p kx kp Hx Hne Hkx Hkp. destruct Hc as [_ Hc].
    destruct (Hc _ _ Hx) as [Hx' | [n Hn]]; [by eapply Hincr|].
    by eapply rank_lt_root.
  - intros r k Hr Hk. apply (compress_root _ _ _ Hc) in Hr.
    destruct (Hsize r k Hr Hk) as (l & Hnd & Hl & Hpow).
    exists l. split_and!; [done | | done].
    intros y Hy. destruct (Hl y Hy) as [n Hn].
    destruct (compress_fwd _ _ _ _ _ Hc Hn) as (m & _ & ?). eauto.
Qed.

Lemma rank_inv_fresh uf h x :
  uf_inv uf h → rank_inv uf → x ∉ dict_keys (parent uf) →
  rank_inv (mkUF (dict_set x x (parent uf)) (dict_set x 0 (rank uf))).
Proof.
  intros Hinv [Hnn Hincr Hsize] Hx. pose proof Hinv as [Hh Hrk _]. split; simpl.
  - intros y k. rewrite dict_get_set. case_decide; [by intros [= <-] | apply Hnn].
  - intros y p ky kp. rewrite !dict_get_set.
    destruct (decide (x = y)) as [-> | Hxy]; [by intros [= <-] ?|].
    intros Hy Hne.
    assert (p ≠ x) as Hpx.
    { intros ->. apply Hx.
      destruct (Hh y) as (r & n & Hr & _); [apply dict_get_is_Some; eauto|].
      inversion Hr; simplify_eq. by eapply repr_key. }
    rewrite decide_False by done. by apply Hincr.
  - intros r k. rewrite !dict_get_set.
    destruct (decide (x = r)) as [-> | Hxr].
    + intros _ [= <-]. exists [r]. split_and!; [apply NoDup_singleton | | simpl; lia].
      intros y ->%list_elem_of_singleton. exists 0%nat.
      apply repr_root, dict_get_set_eq.
    + intros Hr Hk. destruct (Hsize r k Hr Hk) as (l & Hnd & Hl & Hpow).
      exists l. split_and!; [done | | done].
      intros y Hy. destruct (Hl y Hy) as [n Hn]. exists n. by apply repr_fresh.
Qed.

Lemma find_rank_inv fuel uf x uf' r h :
  uf_inv uf h → (h < fuel)%nat → rank_inv uf →
  find fuel uf x = Ok (uf', r) → rank_inv uf'.
Proof.
  intros Hinv Hfuel Hri Hf.
  destruct (find_spec fuel uf x h Hinv Hfuel)
    as (uf1 & r1 & Hf1 & _ & _ & _ & _ & _ & Hrk & Hseen & Hfresh).
  rewrite Hf in Hf1. simplify_eq. destruct uf1 as [P1 R1]. simpl in *.
  destruct (decide (x ∈ dict_keys (parent uf))) as [Hx | Hx].
  - apply dict_mem_true in Hx as Hm. rewrite Hm in Hrk. subst R1.
    eapply rank_inv_compress; [done | done | by apply Hseen].
  - apply dict_mem_false in Hx as Hm. rewrite Hm in Hrk. subst R1.
    destruct (Hfresh Hx) as [_ ->]. by eapply rank_inv_fresh.
Qed.
End rank_facts.

Section link_facts.
Implicit Types (uf : UnionFind) (P : list (Z * Z)) (x y r : Z) (n h : nat).

Lemma link_roots_spec uf h rx ry :
  uf_inv uf h →
  dict_get rx (parent uf) = Some rx → dict_get ry (parent uf) = Some ry →
  ∃ w l kw kl,
    ((w = rx ∧ l = ry) ∨ (w = ry ∧ l = rx)) ∧
    dict_get w (rank uf) = Some kw ∧ dict_get l (rank uf) = Some kl ∧
    kl ≤ kw ∧ (kl = kw → w = rx) ∧
    link_roots uf rx ry =
      Ok (mkUF (dict_set l w (parent uf))
               (if decide (kw = kl) then dict_set w (kw + 1) (rank uf) else rank uf)).
Proof.
  intros Hinv Hrx Hry.
  destruct (rank_is_Some uf h rx Hinv) as [kx Hkx]; [apply dict_get_is_Some; eauto|].
  destruct (rank_is_Some uf h ry Hinv) as [ky Hky]; [apply dict_get_is_Some; eauto|].
  unfold link_roots.
  rewrite (proj2 (dict_index_Ok _ _ _) Hkx). cbn.
  rewrite (proj2 (dict_index_Ok _ _ _) Hky). cbn.
  destruct (decide (kx < ky)) as [Hlt | Hge]; cbn.
  - exists ry, rx, ky, kx.
    rewrite (proj2 (dict_index_Ok _ _ _) Hky). cbn.
    rewrite (proj2 (dict_index_Ok _ _ _) Hkx). cbn.
    split_and!; [by right | done | done | lia | lia |].
    by destruct (decide (ky = kx)).
  - exists rx, ry, kx, ky.
    rewrite (proj2 (dict_index_Ok _ _ _) Hkx). cbn.
    rewrite (proj2 (dict_index_Ok _ _ _) Hky). cbn.
    split_and!; [by left | done | done | lia | done |].
    by destruct (decide (kx = ky)).
Qed.

Lemma link_rank_inv uf h w l kw kl :
  uf_inv uf h → rank_inv uf →
  dict_get w (parent uf) = Some w → dict_get l (parent uf) = Some l → w ≠ l →
  dict_get w (rank uf) = Some kw → dict_get l (rank uf) = Some kl → kl ≤ kw →
  rank_inv (mkUF (dict_set l w (parent uf))
                 (if decide (kw = kl) then dict_set w (kw + 1) (rank uf) else rank uf)).
Proof.
  intros Hinv [Hnn Hincr Hsize] Hw Hl Hwl Hkw Hkl Hle.
  pose proof (Hnn _ _ Hkw) as Hkw0. pose proof (Hnn _ _ Hkl) as Hkl0.
  set (R' := if decide (kw = kl) then dict_set w (kw + 1) (rank uf) else rank uf).
  assert (HR' : ∀ z k, dict_get z R' = Some k →
            if decide (z = w) then k = (if decide (kw = kl) then kw + 1 else kw)
            else dict_get z (rank uf) = Some k).
  { intros z k. unfold R'. destruct (decide (kw = kl)).
    - rewrite dict_get_set. destruct (decide (w = z)) as [-> | ?].
      + rewrite decide_True by done. by intros [= <-].
      + by rewrite decide_False by done.
    - destruct (decide (z = w)) as [-> | ?]; [|done]. rewrite Hkw. by intros [= <-]. }
  split; simpl.
  - intros z k Hz. apply HR' in Hz.
    destruct (decide (z = w)); [|by eapply Hnn]. destruct (decide (kw = kl)); lia.
  - intros z p kz kp. rewrite dict_get_set.
    destruct (decide (l = z)) as [<- | Hlz].
    + intros [= <-] _ Hkz Hkp. apply HR' in Hkz, Hkp.
      rewrite decide_False in Hkz by done. rewrite decide_True in Hkp by done.
      simplify_eq. repeat case_decide; lia.
    + intros Hz Hne Hkz Hkp. apply HR' in Hkz, Hkp.
      assert (z ≠ w) as Hzw by (intros ->; congruence).
      rewrite decide_False in Hkz by done.
      destruct (decide (p = w)) as [-> | Hpw].
      * pose proof (Hincr z w kz kw Hz Hne Hkz Hkw). destruct (decide (kw = kl)); lia.
      * by eapply Hincr.
  - intros r k. rewrite dict_get_set.
    destruct (decide (l = r)) as [<- | Hlr]; [by intros [= ?]|].
    intros Hr Hk. apply HR' in Hk.
    destruct (decide (r = w)) as [-> | Hrw].
    + destruct (Hsize w kw Hw Hkw) as (lw & Hndw & Hlw & Hpw).
      destruct (Hsize l kl Hl Hkl) as (ll & Hndl & Hll & Hpl).
      exists (lw ++ ll). split_and!.
      * apply NoDup_app. split_and!; [done | | done].
        intros z Hz1 Hz2. destruct (Hlw z Hz1) as [n1 H1], (Hll z Hz2) as [n2 H2].
        by destruct (repr_fun _ _ _ _ _ _ H1 H2).
      * intros z [Hz | Hz]%elem_of_app.
        -- destruct (Hlw z Hz) as [n Hn]. exists n. by apply repr_link_keep.
        -- destruct (Hll z Hz) as [n Hn]. exists (S n). by apply repr_link_move.
      * rewrite length_app, Nat2Z.inj_add. subst k.
        destruct (decide (kw = kl)) as [<- | ?]; [|lia].
        rewrite Z.pow_add_r by lia. lia.
    + destruct (Hsize r k Hr Hk) as (lr & Hnd & Hlr' & Hp).
      exists lr. split_and!; [done | | done].
      intros z Hz. destruct (Hlr' z Hz) as [n Hn]. exists n.
      by apply repr_link_keep.
Qed.

Lemma union_rank_inv fuel uf x y uf' h :
  uf_inv uf h → (h < fuel)%nat → rank_inv uf →
  union fuel uf x y = Ok uf' → rank_inv uf'.
Proof.
  intros Hinv Hfuel Hri Hu. rewrite union_unfold in Hu.
  destruct (find_spec fuel uf x h Hinv Hfuel)
    as (uf1 & rx & Hf1 & Hinv1 & _ & Hrx1 & _).
  pose proof (find_rank_inv _ _ _ _ _ _ Hinv Hfuel Hri Hf1) as Hri1.
  destruct (find_spec fuel uf1 y h Hinv1 Hfuel)
    as (uf2 & ry & Hf2 & Hinv2 & _ & Hry2 & Heq2 & Hk2 & _).
  pose proof (find_rank_inv _ _ _ _ _ _ Hinv1 Hfuel Hri1 Hf2) as Hri2.
  rewrite Hf1 in Hu. cbn in Hu. rewrite Hf2 in Hu. cbn in Hu.
  destruct (decide (rx = ry)) as [-> | Hne]; [by simplify_eq|].
  assert (Hrx2 : dict_get rx (parent uf2) = Some rx).
  { apply root_iff_rootR. apply root_iff_rootR in Hrx1 as [Hin Hr]. split.
    - rewrite Hk2. apply elem_of_set_add. by right.
    - by apply Heq2. }
  destruct (link_roots_spec uf2 h rx ry Hinv2 Hrx2 Hry2)
    as (w & l & kw & kl & Hwl & Hkw & Hkl & Hle & _ & Hlink).
  rewrite Hlink in Hu. simplify_eq.
  eapply link_rank_inv; try done.
  - by destruct Hwl as [[-> ->] | [-> ->]].
  - by destruct Hwl as [[-> ->] | [-> ->]].
  - destruct Hwl as [[-> ->] | [-> ->]]; congruence.
Qed.
End link_facts.

Section log_depth_facts.
Implicit Types (uf : UnionFind) (P : list (Z * Z)) (x y r : Z) (n h : nat).

Lemma set_add_length_le (x : Z) (s : list Z) : (length s ≤ length (set_add x s))%nat.
Proof. unfold set_add. case_decide; [done|]. rewrite length_app. lia. Qed.

Lemma op_keys_length_le ks op : (length ks ≤ length (op_keys ks op))%nat.
Proof.
  unfold op_keys. revert ks. induction (op_ids op) as [|x l IH]; intros ks; [done|].
  simpl. etrans; [apply (set_add_length_le x)|]. apply IH.
Qed.

Lemma keys_after_length_le ks ops : (length ks ≤ length (foldl op_keys ks ops))%nat.
Proof.
  revert ks. induction ops as [|op ops IH]; intros ks; [done|].
  simpl. etrans; [apply (op_keys_length_le ks op)|]. apply IH.
Qed.

Lemma run_op_log fuel uf op h :
  uf_inv uf h → rank_inv uf → (0 < fuel)%nat →
  (length (op_keys (dict_keys (parent uf)) op) < 2 ^ fuel)%nat →
  ∃ uf' h',
    run_op fuel uf op = Ok uf' ∧ uf_inv uf' h' ∧ rank_inv uf' ∧
    dict_keys (parent uf') = op_keys (dict_keys (parent uf)) op.
Proof.
  intros Hinv Hri Hpos Hlen.
  pose proof (op_keys_length_le (dict_keys (parent uf)) op) as Hle.
  pose proof (uf_inv_log uf h fuel Hinv Hri ltac:(lia)) as Hinv'.
  assert (fuel - 1 < fuel)%nat as Hfuel by lia.
  destruct op as [x | x y |]; simpl in *.
  - destruct (find_spec fuel uf x _ Hinv' Hfuel)
      as (uf' & r & Hf & Hinv1 & _ & _ & _ & Hk & _).
    exists uf', (fuel - 1)%nat. rewrite Hf. cbn.
    split_and!; [done | done | | done].
    exact (find_rank_inv fuel uf x uf' r _ Hinv' Hfuel Hri Hf).
  - destruct (union_spec fuel uf x y _ Hinv' Hfuel) as (uf' & Hu & Hinv1 & Hk & _).
    exists uf', (S (fuel - 1)). split_and!; [done | done | | done].
    exact (union_rank_inv fuel uf x y uf' _ Hinv' Hfuel Hri Hu).
  - destruct (get_groups_spec fuel uf _ Hinv' Hfuel)
      as (P' & groups & Hg & Hinv1 & Hc & _).
    exists (mkUF P' (rank uf)), (fuel - 1)%nat. rewrite Hg. cbn.
    split_and!; [done | done | | by destruct Hc].
    exact (rank_inv_compress uf _ P' Hinv' Hri Hc).
Qed.

Lemma run_ops_log fuel ops uf h :
  uf_inv uf h → rank_inv uf → (0 < fuel)%nat →
  (length (foldl op_keys (dict_keys (parent uf)) ops) < 2 ^ fuel)%nat →
  ∃ uf' h',
    run_ops fuel ops uf = Ok uf' ∧ uf_inv uf' h' ∧ rank_inv uf' ∧
    dict_keys (parent uf') = foldl op_keys (dict_keys (parent uf)) ops.
Proof.
  revert uf h. induction ops as [|op ops IH]; intros uf h Hinv Hri Hpos Hlen.
  - by exists uf, h.
  - simpl in Hlen.
    pose proof (keys_after_length_le (op_keys (dict_keys (parent uf)) op) ops).
    destruct (run_op_log fuel uf op h Hinv Hri Hpos ltac:(lia))
      as (uf1 & h1 & Hop & Hinv1 & Hri1 & Hk1).
    rewrite <- Hk1 in Hlen.
    destruct (IH uf1 h1 Hinv1 Hri1 Hpos Hlen) as (uf' & h' & Hrun & Hinv' & Hri' & Hk').
    exists uf', h'. cbn [run_ops]. rewrite Hop. cbn.
    split_and!; [done | done | done |]. simpl. by rewrite <- Hk1.
Qed.

Lemma rank_inv_init : rank_inv UnionFind_init.
Proof. split; simpl; done. Qed.

Lemma log2_fuel (n k : nat) : (n < 2 ^ (S (Nat.log2 n) + k))%nat.
Proof.
  assert (n < 2 ^ S (Nat.log2 n))%nat as Hn.
  { destruct n as [|n]; [simpl; lia|]. apply Nat.log2_spec. lia. }
  assert (2 ^ S (Nat.log2 n) ≤ 2 ^ (S (Nat.log2 n) + k))%nat; [|lia].
  apply Nat.pow_le_mono_r; lia.
Qed.
End log_depth_facts.

(** X4.  Union by rank: after any history, run with a recursion depth of
    one more than the binary logarithm of the number of identifiers, ranks
    are not negative and strictly grow along parent links, a root of rank
    [k] heads at least [2 ^ k] identifiers, and so a parent chain of [n]
    links needs at least [2 ^ n] identifiers in the structure. *)
Theorem union_by_rank_invariant (ops : list uf_op) (k : nat) :
  let keys := foldl op_keys [] ops in
  let fuel := (S (Nat.log2 (length keys)) + k)%nat in
  ∃ uf,
    run_ops fuel ops UnionFind_init = Ok uf ∧
    dict_keys (parent uf) = keys ∧
    rank_inv uf ∧
    ∀ x r n, repr (parent uf) x r n → (2 ^ n ≤ length keys)%nat.
Proof.
  intros keys fuel.
  destruct (run_ops_log fuel ops UnionFind_init 0 uf_inv_init rank_inv_init)
    as (uf & h & Hrun & Hinv & Hri & Hk); [unfold fuel; lia | apply log2_fuel |].
  simpl in Hk. fold keys in Hk.
  exists uf. split_and!; [done | done | done |].
  intros x r n Hr. rewrite <- Hk. by eapply height_log.
Qed.

(** X5.  Logarithmic recursion depth: a recursion depth of one more than
    the binary logarithm of the number of distinct identifiers involved is
    enough for any history followed by [find(x)] and by [union(x, y)]. *)
Theorem find_depth_logarithmic (ops : list uf_op) (x y : Z) (k : nat) :
  let keys := foldl op_keys [] (ops ++ [OpUnion x y]) in
  let fuel := (S (Nat.log2 (length keys)) + k)%nat in
  ∃ uf uf1 r uf2,
    run_ops fuel ops UnionFind_init = Ok uf ∧
    find fuel uf x = Ok (uf1, r) ∧
    union fuel uf x y = Ok uf2 ∧
    dict_keys (parent uf2) = keys.
Proof.
  intros keys fuel.
  assert (0 < fuel)%nat as Hpos by (unfold fuel; lia).
  assert (length keys < 2 ^ fuel)%nat as Hlen by apply log2_fuel.
  unfold keys in Hlen. rewrite foldl_app in Hlen. simpl in Hlen.
  pose proof (keys_after_length_le [] ops) as Hle0.
  pose proof (op_keys_length_le (foldl op_keys [] ops) (OpUnion x y)) as Hle1.
  destruct (run_ops_log fuel ops UnionFind_init 0 uf_inv_init rank_inv_init Hpos)
    as (uf & h & Hrun & Hinv & Hri & Hk); [simpl; lia|]. simpl in Hk.
  rewrite <- Hk in Hlen.
  destruct (run_op_log fuel uf (OpUnion x y) h Hinv Hri Hpos Hlen)
    as (uf2 & h2 & Hu & _ & _ & Hk2). simpl in Hu.
  destruct (run_op_log fuel uf (OpFind x) h Hinv Hri Hpos)
    as (uf1 & h1 & Hf & _).
  { eapply Nat.le_lt_trans; [|exact Hlen]. unfold op_keys. simpl.
    apply set_add_length_le. }
  unfold run_op in Hf. destruct (find fuel uf x) as [[uf1' r]|] eqn:Hfx; [|done].
  exists uf, uf1', r, uf2. split_and!; [done | done | done |].
  rewrite Hk2, Hk. unfold keys. by rewrite foldl_app.
Qed.

(** X6.  Root choice of [union]: when the roots of [x] and [y] differ, the
    root of higher rank becomes the root of both (the root of [x] on equal
    ranks); its rank grows by one exactly on equal ranks and no other rank
    changes.  When the roots are equal, [union] does what the two [find]
    calls do. *)
Theorem union_root_choice (ops : list uf_op) (x y : Z) (k : nat) :
  let fuel := S (union_calls ops + k) in
  ∃ uf uf1 rx uf2 ry uf',
    run_ops fuel ops UnionFind_init = Ok uf ∧
    find fuel uf x = Ok (uf1, rx) ∧
    find fuel uf1 y = Ok (uf2, ry) ∧
    union fuel uf x y = Ok uf' ∧
    (rx = ry → uf' = uf2) ∧
    (rx ≠ ry →
     ∃ kx ky,
       dict_get rx (rank uf2) = Some kx ∧ dict_get ry (rank uf2) = Some ky ∧
       let w := if decide (kx < ky) then ry else rx in
       rootR (parent uf') x w ∧ rootR (parent uf') y w ∧
       dict_get w (parent uf') = Some w ∧
       dict_get w (rank uf') = Some (if decide (kx = ky) then kx + 1 else Z.max kx ky) ∧
       ∀ z, z ≠ w → dict_get z (rank uf') = dict_get z (rank uf2)).
Proof.
  intros fuel.
  assert (union_calls ops < fuel)%nat as Hfuel by (unfold fuel; lia).
  clearbody fuel.
  destruct (run_ops_init fuel ops Hfuel) as (uf & Hrun & Hinv & _).
  destruct (find_spec fuel uf x _ Hinv Hfuel)
    as (uf1 & rx & Hf1 & Hinv1 & Hrx & Hrx1 & Heq1 & _).
  destruct (find_spec fuel uf1 y _ Hinv1 Hfuel)
    as (uf2 & ry & Hf2 & Hinv2 & Hry & Hry2 & Heq2 & Hk2 & _).
  assert (Hrx2 : dict_get rx (parent uf2) = Some rx).
  { apply root_iff_rootR. apply root_iff_rootR in Hrx1 as [Hin Hr]. split.
    - rewrite Hk2. apply elem_of_set_add. by right.
    - by apply Heq2. }
  assert (Hx2 : rootR (parent uf2) x rx) by by apply Heq2, Heq1.
  assert (Hy2 : rootR (parent uf2) y ry) by by apply Heq2.
  destruct (decide (rx = ry)) as [Heq | Hne].
  - exists uf, uf1, rx, uf2, ry, uf2. rewrite union_unfold, Hf1. cbn. rewrite Hf2. cbn.
    rewrite decide_True by done. split_and!; done.
  - destruct (link_roots_spec uf2 _ rx ry Hinv2 Hrx2 Hry2)
      as (w & l & kw & kl & Hwl & Hkw & Hkl & Hle & Htie & Hlink).
    eexists uf, uf1, rx, uf2, ry, _. rewrite union_unfold, Hf1. cbn. rewrite Hf2. cbn.
    rewrite decide_False by done. rewrite Hlink.
    split_and!; [done | done | done | done | done |]. intros _.
    assert (Hroots : dict_get w (parent uf2) = Some w ∧ dict_get l (parent uf2) = Some l
                     ∧ w ≠ l).
    { destruct Hwl as [[-> ->] | [-> ->]]; split_and!; done. }
    destruct Hroots as (Hw & Hl & Hwl').
    assert (Hlinked : ∀ z r, rootR (parent uf2) z r → r = w ∨ r = l →
                             rootR (dict_set l w (parent uf2)) z w).
    { intros z r Hz Hr. pose proof Hinv2 as [Hh2 _ _].
      apply (rootR_link _ _ _ _ _ _ Hh2 Hw Hl Hwl').
      destruct Hr as [-> | ->]; [left | right]; done. }
    assert (Hwdef : ∀ kx ky, dict_get rx (rank uf2) = Some kx →
                             dict_get ry (rank uf2) = Some ky →
              w = (if decide (kx < ky) then ry else rx) ∧
              (if decide (kw = kl) then kw + 1 else kw) =
              (if decide (kx = ky) then kx + 1 else Z.max kx ky)).
    { intros kx ky Hkx Hky. destruct Hwl as [[-> ->] | [-> ->]]; simplify_eq.
      - rewrite decide_False by lia. split; [done|]. repeat case_decide; lia.
      - assert (kl ≠ kw) by (intros E; by specialize (Htie E)).
        rewrite decide_True by lia. split; [done|]. repeat case_decide; lia. }
    assert (∃ kx ky, dict_get rx (rank uf2) = Some kx ∧ dict_get ry (rank uf2) = Some ky)
      as (kx & ky & Hkx & Hky).
    { destruct Hwl as [[-> ->] | [-> ->]]; eauto. }
    destruct (Hwdef kx ky Hkx Hky) as [Hw' Hrank].
    exists kx, ky. split; [done|]. split; [done|]. cbn zeta. rewrite <- Hw'. simpl.
    split_and!.
    + eapply Hlinked; [done|]. destruct Hwl as [[-> ->] | [-> ->]]; auto.
    + eapply Hlinked; [done|]. destruct Hwl as [[-> ->] | [-> ->]]; auto.
    + by rewrite dict_get_set_ne.
    + rewrite <- Hrank. destruct (decide (kw = kl)); [apply dict_get_set_eq | done].
    + intros z Hz. destruct (decide (kw = kl)); [|done]. by rewrite dict_get_set_ne.
Qed.

(** ** More on [deduplicate_users] *)

Section dedup_more.
Variable set_order : list (Z * Z) → list (Z * Z).
Hypothesis set_order_perm : ∀ l, set_order l ≡ₚ l.

Implicit Types (users : list user_row).

Lemma judged_matched users a b :
  (a, b) ∈ potential_pairs (build_indexes users) →
  judged (build_user_data users) (a, b) = true ↔ matched users a b.
Proof.
  intros Hin. unfold judged, matched. simpl. split.
  - intros Hj. split; [done|].
    destruct (dict_get a _) as [d1|]; [|done]. destruct (dict_get b _) as [d2|]; [|done].
    apply bool_decide_eq_true in Hj. eauto.
  - intros (_ & d1 & d2 & -> & -> & ?). by apply bool_decide_eq_true.
Qed.

Lemma unioned_matched users a b :
  unioned (dedup_ops set_order users) a b ↔ matched users a b.
Proof.
  split.
  - intros [Hin Hj]%(dedup_unions_are_candidates set_order set_order_perm).
    by apply judged_matched.
  - intros Hm. pose proof Hm as [Hin _]. apply judged_matched in Hm; [|done].
    unfold unioned, dedup_ops, union_ops. apply elem_of_app. right.
    apply list_elem_of_fmap. exists (a, b). split; [done|].
    apply list_elem_of_filter. split; [done | by rewrite set_order_perm].
Qed.

Lemma connected_matched users a b :
  connected (dedup_ops set_order users) a b ↔ rtsc (matched users) a b.
Proof.
  unfold connected. split; apply rtsc_sub; intros x y Hxy; apply rtsc_lr;
    by apply unioned_matched.
Qed.

Lemma canonical_entry (gs : list (list Z)) (ug : list (Z * list Z)) c ms :
  Forall2 canonical_of gs ug → (c, ms) ∈ ug →
  ∃ members, members ∈ gs ∧ ms = sorted members ∧ c ∈ members ∧
             ∀ z, z ∈ members → c ≤ z.
Proof.
  intros Hall [i Hi]%list_elem_of_lookup.
  destruct (Forall2_lookup_r _ _ _ _ _ Hall Hi) as (members & Hm & Hs & Hin & Hle).
  exists members. split_and!; [by eapply list_elem_of_lookup_2 | done..].
Qed.

Lemma canonical_entry_of (gs : list (list Z)) (ug : list (Z * list Z)) members :
  Forall2 canonical_of gs ug → members ∈ gs →
  ∃ c, (c, sorted members) ∈ ug ∧ c ∈ members.
Proof.
  intros Hall [i Hi]%list_elem_of_lookup.
  destruct (Forall2_lookup_l _ _ _ _ _ Hall Hi) as ([c ms] & Hm & Hs & Hin & Hle).
  simpl in *. subst ms. exists c. split; [by eapply list_elem_of_lookup_2 | done].
Qed.

Lemma elem_of_sorted (l : list Z) x : x ∈ sorted l ↔ x ∈ l.
Proof. unfold sorted. by rewrite merge_sort_Permutation. Qed.

(** What the entries of the returned mapping are, in terms of the final
    structure. *)
Lemma dedup_entries fuel users :
  (length (potential_pairs (build_indexes users)) < fuel)%nat →
  ∃ count ug,
    deduplicate_users set_order fuel users = Ok (count, ug) ∧
    (count = 0%nat ↔ users = []) ∧
    (∀ x, x ∈ row_id <$> users → ∃ c ms, (c, ms) ∈ ug ∧ x ∈ ms) ∧
    (∀ c ms, (c, ms) ∈ ug →
       c ∈ ms ∧ NoDup ms ∧ (∀ x, x ∈ ms → x ∈ row_id <$> users)) ∧
    (∀ c ms x y, (c, ms) ∈ ug → x ∈ ms →
       y ∈ ms ↔ rtsc (matched users) x y).
Proof.
  intros Hfuel.
  destruct (dedup_spec set_order set_order_perm fuel users Hfuel)
    as (uf & P' & groups & ug & _ & Hinv & Hgrp & Hkeys & _ & Hgi & Hd & Hall).
  exists (length groups), ug. split; [done|].
  pose proof Hinv as [Hh _ _]. pose proof Hgi as [Hgk Hgm Hge Hgr].
  assert (Hval : ∀ members, members ∈ dict_values groups ↔
                            ∃ r, dict_get r groups = Some members).
  { intros members. unfold dict_values. rewrite list_elem_of_fmap. split.
    - intros ([r ms] & -> & Hin). exists r. by apply groups_lookup.
    - intros (r & Hr). exists (r, members). split; [done|]. by apply dict_get_Some_elem. }
  split_and!.
  - destruct users as [|u users].
    + split; [done|]. intros _. destruct groups as [|[r ms] groups]; [done|]. exfalso.
      destruct (groups_root_member _ _ _ r ms Hh Hgi) as [Hr _]; [left|].
      assert (r ∈ dict_keys (parent uf)) as Hk by (apply dict_get_is_Some; eauto).
      apply Hkeys in Hk. by apply elem_of_nil in Hk.
    + split; [|done]. intros Hlen. exfalso.
      assert (row_id u ∈ dict_keys (parent uf)) as Hu by (apply Hkeys; left).
      destruct (Hh _ Hu) as (r & n & Hr & _).
      assert (r ∈ dict_keys groups) as Hrk by (eapply Hgr; [done | left; eauto]).
      destruct groups; [by apply elem_of_nil in Hrk | done].
  - intros x Hx%Hkeys.
    destruct (Hh x Hx) as (r & n & Hr & _).
    assert (rootR (parent uf) x r) as Hxr by (left; eauto).
    destruct (proj2 (dict_get_is_Some groups r) (Hgr x r Hx Hxr)) as [members Hm].
    destruct (canonical_entry_of _ _ members Hall) as (c & Hc & _).
    { apply Hval. eauto. }
    exists c, (sorted members). split; [done|].
    apply elem_of_sorted. by apply (Hge _ _ x Hm).
  - intros c ms Hin.
    destruct (canonical_entry _ _ _ _ Hall Hin) as (members & Hm & -> & Hc & _).
    apply Hval in Hm as [r Hr]. split_and!.
    + by apply elem_of_sorted.
    + unfold sorted. rewrite merge_sort_Permutation. by apply (Hgm _ _ Hr).
    + intros x Hx. apply (proj1 (elem_of_sorted _ _)) in Hx.
      apply Hkeys. by apply (Hge _ _ x Hr) in Hx as [? _].
  - intros c ms x y Hin Hx.
    destruct (canonical_entry _ _ _ _ Hall Hin) as (members & Hm & -> & _ & _).
    apply Hval in Hm as [r Hr]. apply (proj1 (elem_of_sorted _ _)) in Hx.
    apply (Hge _ _ x Hr) in Hx as [Hxk Hxr].
    rewrite elem_of_sorted, (Hge _ _ y Hr), <- connected_matched, <- Hgrp. split.
    + intros [_ Hyr]. by exists r.
    + intros (r' & Hxr' & Hyr'). rewrite (rootR_fun _ _ _ _ Hxr Hxr').
      split; [|done]. eapply same_group_key; [done|]. by exists r'.
Qed.
End dedup_more.

(** ** The enumeration order of the candidate set *)

Section order_facts.
Implicit Types (uf : UnionFind) (P : list (Z * Z)) (x y r : Z) (n h : nat).

Lemma dict_get_Forall2 {V} k1 k2 (g1 g2 : list (Z * V)) :
  Forall2 (λ e1 e2, (e1.1 = k1 ↔ e2.1 = k2) ∧ e1.2 = e2.2) g1 g2 →
  dict_get k1 g1 = dict_get k2 g2.
Proof.
  induction 1 as [|[a1 v1] [a2 v2] g1 g2 [Hk Hv] _ IH]; [done|].
  simpl in *. subst v2. repeat case_decide; tauto.
Qed.

Lemma dict_set_Forall2 {V} (Q : Z * V → Z * V → Prop) k1 k2 v1 v2
    (g1 g2 : list (Z * V)) :
  Forall2 (λ e1 e2, (e1.1 = k1 ↔ e2.1 = k2) ∧ Q e1 e2) g1 g2 →
  Q (k1, v1) (k2, v2) →
  Forall2 Q (dict_set k1 v1 g1) (dict_set k2 v2 g2).
Proof.
  intros Hall Hq.
  induction Hall as [|[a1 w1] [a2 w2] g1 g2 [Hk Hv] Hrest IH]; simpl in *.
  - by constructor.
  - repeat case_decide; try tauto.
    + constructor; [done|]. eapply Forall2_impl; [done|]. by intros ?? [_ ?].
    + by constructor.
Qed.

Lemma bucket_rel_roots P1 P2 P1' P2' e1 e2 :
  (∀ z r, rootR P1' z r ↔ rootR P1 z r) →
  (∀ z r, rootR P2' z r ↔ rootR P2 z r) →
  bucket_rel P1 P2 e1 e2 → bucket_rel P1' P2' e1 e2.
Proof.
  intros H1 H2 (Hms & Hne & Hr). split_and!; [done..|].
  intros y Hy. rewrite H1, H2. by apply Hr.
Qed.

(** The buckets of two structures that group the keys alike hold the same
    members in the same order. *)
Lemma get_groups_loop_rel fuel ks uf1 uf2 g1 g2 h1 h2 :
  uf_inv uf1 h1 → uf_inv uf2 h2 → (h1 < fuel)%nat → (h2 < fuel)%nat →
  (∀ a b, same_group (parent uf1) a b ↔ same_group (parent uf2) a b) →
  (∀ x, x ∈ ks → x ∈ dict_keys (parent uf1)) →
  (∀ x, x ∈ ks → x ∈ dict_keys (parent uf2)) →
  Forall2 (bucket_rel (parent uf1) (parent uf2)) g1 g2 →
  ∃ u1 u2 g1' g2',
    get_groups_loop fuel ks uf1 g1 = Ok (u1, g1') ∧
    get_groups_loop fuel ks uf2 g2 = Ok (u2, g2') ∧
    Forall2 (λ e1 e2, e1.2 = e2.2) g1' g2'.
Proof.
  revert uf1 uf2 g1 g2.
  induction ks as [|x ks IH];
    intros uf1 uf2 g1 g2 Hinv1 Hinv2 Hfuel1 Hfuel2 Hsame Hks1 Hks2 Hall.
  - exists uf1, uf2, g1, g2. split_and!; [done..|].
    eapply Forall2_impl; [done|]. by intros ?? [? _].
  - assert (Hx1 : x ∈ dict_keys (parent uf1)) by (apply Hks1; left).
    assert (Hx2 : x ∈ dict_keys (parent uf2)) by (apply Hks2; left).
    destruct (find_spec fuel uf1 x h1 Hinv1 Hfuel1)
      as (uf1' & r1 & Hf1 & Hinv1' & Hr1 & _ & Heq1 & Hk1 & _).
    destruct (find_spec fuel uf2 x h2 Hinv2 Hfuel2)
      as (uf2' & r2 & Hf2 & Hinv2' & Hr2 & _ & Heq2 & Hk2 & _).
    rewrite set_add_old in Hk1 by done. rewrite set_add_old in Hk2 by done.
    cbn [get_groups_loop]. rewrite Hf1, Hf2. cbn.
    rewrite !decide_True.
    2:{ rewrite <- !(length_fmap fst). unfold dict_keys in Hk2. by rewrite Hk2. }
    2:{ rewrite <- !(length_fmap fst). unfold dict_keys in Hk1. by rewrite Hk1. }
    assert (Hkey : Forall2 (λ e1 e2, (e1.1 = r1 ↔ e2.1 = r2) ∧
                     bucket_rel (parent uf1) (parent uf2) e1 e2) g1 g2).
    { eapply Forall2_impl; [done|]. intros [a1 ms1] [a2 ms2] Hb. split; [|done].
      destruct Hb as (Hms & Hne & Hr). simpl in *. subst ms2.
      destruct ms1 as [|y ms1]; [done|]. destruct (Hr y) as [Hy1 Hy2]; [left|].
      split; intros ->.
      - destruct (proj1 (Hsame x y)) as (r & Hxr & Hyr); [by exists r1|].
        by rewrite (rootR_fun _ _ _ _ Hy2 Hyr), (rootR_fun _ _ _ _ Hr2 Hxr).
      - destruct (proj2 (Hsame x y)) as (r & Hxr & Hyr); [by exists r2|].
        by rewrite (rootR_fun _ _ _ _ Hy1 Hyr), (rootR_fun _ _ _ _ Hr1 Hxr). }
    assert (Hget : dict_get r1 g1 = dict_get r2 g2).
    { apply dict_get_Forall2. eapply Forall2_impl; [exact Hkey|].
      by intros ?? [? [? _]]. }
    apply (IH uf1' uf2' _ _ Hinv1' Hinv2' Hfuel1 Hfuel2).
    + intros a b. specialize (Hsame a b). unfold same_group in *.
      split; intros (r & Ha & Hb).
      * apply Heq1 in Ha, Hb. destruct (proj1 Hsame) as (r' & ? & ?); [by exists r|].
        exists r'. by rewrite !Heq2.
      * apply Heq2 in Ha, Hb. destruct (proj2 Hsame) as (r' & ? & ?); [by exists r|].
        exists r'. by rewrite !Heq1.
    + intros z Hz. rewrite Hk1. apply Hks1. by right.
    + intros z Hz. rewrite Hk2. apply Hks2. by right.
    + eapply Forall2_impl; [|intros ??; by apply bucket_rel_roots].
      apply (dict_set_Forall2 (bucket_rel (parent uf1) (parent uf2))); [done|].
      rewrite <- Hget. split_and!; simpl; [done | |].
      * unfold set_add. case_decide as Hin.
        -- intros E. rewrite E in Hin. by apply elem_of_nil in Hin.
        -- by intros ?%app_nil_r_inv.
      * intros y [-> | Hy]%elem_of_set_add; [done|].
        destruct (dict_get r1 g1) as [ms|] eqn:E; [|by apply elem_of_nil in Hy].
        simpl in Hy. apply dict_get_Some_elem in E.
        apply list_elem_of_lookup in E as [i Hi].
        destruct (Forall2_lookup_l _ _ _ _ _ Hkey Hi) as ([a2 ms2] & _ & Hk & _ & _ & Hr).
        simpl in *. destruct (Hr y Hy) as [? ?].
        by rewrite <- (proj1 Hk eq_refl).
Qed.
End order_facts.

Section dedup_keys_facts.
Implicit Types (uf : UnionFind) (ks : list Z) (ops : list uf_op).

Lemma elem_of_op_keys ks op z : z ∈ op_keys ks op ↔ z ∈ ks ∨ z ∈ op_ids op.
Proof.
  unfold op_keys. revert ks. induction (op_ids op) as [|x l IH]; intros ks; simpl.
  - rewrite elem_of_nil. tauto.
  - rewrite IH, elem_of_set_add, elem_of_cons. tauto.
Qed.

Lemma op_keys_old ks op : (∀ z, z ∈ op_ids op → z ∈ ks) → op_keys ks op = ks.
Proof.
  unfold op_keys. induction (op_ids op) as [|x l IH]; intros Hin; simpl; [done|].
  rewrite set_add_old by (apply Hin; left). apply IH. intros z ?. apply Hin. by right.
Qed.

Lemma foldl_op_keys_old ks ops :
  (∀ op z, op ∈ ops → z ∈ op_ids op → z ∈ ks) → foldl op_keys ks ops = ks.
Proof.
  induction ops as [|op ops IH]; intros Hin; simpl; [done|].
  rewrite op_keys_old by (intros z; apply Hin; left).
  apply IH. intros op' z ?. apply Hin. by right.
Qed.

Lemma elem_of_foldl_op_keys ks ops z :
  z ∈ foldl op_keys ks ops ↔ z ∈ ks ∨ ∃ op, op ∈ ops ∧ z ∈ op_ids op.
Proof.
  revert ks. induction ops as [|op ops IH]; intros ks; simpl.
  - split; [by left | intros [? | (? & ?%elem_of_nil & _)]; done].
  - rewrite IH, elem_of_op_keys. split.
    + intros [[? | ?] | (op' & ? & ?)]; [by left | right | right].
      * exists op. split; [left | done].
      * exists op'. split; [by right | done].
    + intros [? | (op' & [-> | ?]%elem_of_cons & ?)]; [by left; left | by left; right |].
      right. by exists op'.
Qed.

Lemma op_keys_length ks op : (length (op_keys ks op) ≤ length ks + length (op_ids op))%nat.
Proof.
  unfold op_keys. revert ks. induction (op_ids op) as [|x l IH]; intros ks; simpl; [lia|].
  etrans; [apply IH|]. unfold set_add. case_decide; [lia|]. rewrite length_app. simpl. lia.
Qed.

Lemma find_keys_length ks (ids : list Z) :
  (length (foldl op_keys ks (OpFind <$> ids)) ≤ length ks + length ids)%nat.
Proof.
  revert ks. induction ids as [|x ids IH]; intros ks; csimpl; [lia|].
  etrans; [apply IH|]. pose proof (op_keys_length ks (OpFind x)). simpl in *. lia.
Qed.

(** The keys of the structure are the identifiers of the calls, in the
    order of their first mention, whatever depth the calls ran with. *)
Lemma run_ops_keys_list fuel ops uf :
  run_ops fuel ops UnionFind_init = Ok uf →
  dict_keys (parent uf) = foldl op_keys [] ops.
Proof.
  intros Hrun.
  set (fuel' := (S (Nat.log2 (length (foldl op_keys [] ops))) + fuel)%nat).
  destruct (run_ops_log fuel' ops UnionFind_init 0 uf_inv_init rank_inv_init)
    as (uf' & h' & Hrun' & _ & _ & Hk); [unfold fuel'; lia | apply log2_fuel |].
  apply (run_ops_fuel_mono fuel fuel') in Hrun; [|unfold fuel'; lia].
  rewrite Hrun in Hrun'. by injection Hrun' as ->.
Qed.

Lemma dedup_keys_list set_order users :
  (∀ l, set_order l ≡ₚ l) →
  foldl op_keys [] (dedup_ops set_order users)
  = foldl op_keys [] (OpFind <$> (row_id <$> users)).
Proof.
  intros Hperm. unfold dedup_ops. rewrite foldl_app. apply foldl_op_keys_old.
  intros op z Hop Hz. apply elem_of_foldl_op_keys. right.
  exists (OpFind z). split; [|by left]. apply list_elem_of_fmap_2.
  apply (dedup_op_ids set_order Hperm users op); [|done].
  unfold dedup_ops. apply elem_of_app. by right.
Qed.

Lemma dedup_unfold_run set_order fuel users :
  (∀ l, set_order l ≡ₚ l) →
  deduplicate_users set_order fuel users =
    (uf ← run_ops fuel (dedup_ops set_order users) UnionFind_init;
     '(_, groups) ← get_groups fuel uf;
     user_groups ← canonical_groups (dict_values groups) [];
     Ok (length groups, user_groups)).
Proof.
  intros Hperm. unfold deduplicate_users, dedup_ops.
  rewrite register_all_run, run_ops_app.
  destruct (run_ops fuel (OpFind <$> (row_id <$> users)) UnionFind_init) as [uf0|];
    [|done]. cbn [mbind res_bind].
  rewrite judge_pairs_run; [done|].
  intros q Hq. rewrite Hperm in Hq. apply pair_ids in Hq.
  by rewrite !build_user_data_keys.
Qed.

(** From the structure after steps 1 and 5 on: what steps 6 and 7 return,
    whatever bounds the depth of its parent chains. *)
Lemma dedup_from_run set_order fuel users uf h :
  (∀ l, set_order l ≡ₚ l) →
  run_ops fuel (dedup_ops set_order users) UnionFind_init = Ok uf →
  uf_inv uf h → (h < fuel)%nat →
  ∃ P' groups ug,
    get_groups fuel uf = Ok (mkUF P' (rank uf), groups) ∧
    groups_inv (parent uf) (dict_keys (parent uf)) groups ∧
    deduplicate_users set_order fuel users = Ok (length groups, ug) ∧
    Forall2 canonical_of (dict_values groups) ug.
Proof.
  intros Hperm Hrun Hinv Hfuel.
  destruct (get_groups_spec fuel uf _ Hinv Hfuel) as (P' & groups & Hg & _ & _ & Hgi).
  destruct (canonical_groups_spec (dict_values groups) []) as (ug & Hug & Hall).
  { intros ms. by eapply groups_values_nonempty. }
  { by eapply groups_join_NoDup. }
  { by intros k ms ?%elem_of_nil. }
  exists P', groups, ug. split_and!; try done.
  rewrite dedup_unfold_run by done. rewrite Hrun. cbn [mbind res_bind].
  rewrite Hg. cbn [mbind res_bind]. by rewrite Hug.
Qed.

Lemma deduplicate_users_fuel_mono set_order fuel fuel' users v :
  (∀ l, set_order l ≡ₚ l) → (fuel ≤ fuel')%nat →
  deduplicate_users set_order fuel users = Ok v →
  deduplicate_users set_order fuel' users = Ok v.
Proof.
  intros Hperm Hle. rewrite !dedup_unfold_run by done.
  destruct (run_ops fuel _ _) as [uf|] eqn:Hrun; [|done].
  rewrite (run_ops_fuel_mono _ _ _ _ _ Hle Hrun). cbn [mbind res_bind].
  unfold get_groups.
  destruct (get_groups_loop fuel _ _ _) as [[u g]|] eqn:Hg; [|done].
  by rewrite (get_groups_loop_fuel_mono _ _ _ _ _ _ Hle Hg).
Qed.
End dedup_keys_facts.

(** ** Groups and matching records *)

Section matching_facts.
Implicit Types (users : list user_row) (r : user_row).

Lemma spec_match_count_sym r1 r2 : spec_match_count r1 r2 = spec_match_count r2 r1.
Proof.
  unfold spec_match_count, field_values. cbn [zip zip_with].
  rewrite !length_filter_cons, !filter_nil. cbn [fst snd].
  assert (∀ v1 v2 : pyval,
    (if decide (present v1 ∧ present v2 ∧ v1 = v2) then 1 else 0)%nat =
    (if decide (present v2 ∧ present v1 ∧ v2 = v1) then 1 else 0)%nat) as Hsym.
  { intros v1 v2. repeat case_decide; try done; exfalso; intuition congruence. }
  by rewrite (Hsym (email_normalized r1)), (Hsym (phone_normalized r1)),
    (Hsym (name_normalized r1)), (Hsym (address_normalized r1)).
Qed.

Lemma spec_match_shares r1 r2 :
  (0 < spec_match_count r1 r2)%nat → shares_field r1 r2.
Proof.
  unfold spec_match_count. intros Hlen.
  destruct (filter _ _) as [|vs l] eqn:E; [simpl in Hlen; lia|].
  assert (vs ∈ vs :: l) as Hin by left. rewrite <- E in Hin.
  apply list_elem_of_filter in Hin as [(Hp & _ & Heq) Hin].
  unfold field_values in Hin. cbn [zip zip_with] in Hin.
  unfold shares_field, field_getters.
  repeat (apply elem_of_cons in Hin as [-> | Hin]); [..|by apply elem_of_nil in Hin];
    simpl in *; eexists; (split; [|done]); set_solver.
Qed.

Lemma same_person_sym users a b : same_person users a b → same_person users b a.
Proof.
  intros (r1 & r2 & ? & ? & ? & ? & ?). exists r2, r1.
  by rewrite spec_match_count_sym.
Qed.

Lemma build_user_data_lookup users r :
  NoDup (row_id <$> users) → r ∈ users →
  dict_get (row_id r) (build_user_data users) = Some (row_fields r).
Proof.
  intros Hnd Hr.
  assert (is_Some (dict_get (row_id r) (build_user_data users))) as [d Hd].
  { apply dict_get_is_Some, build_user_data_keys. by apply list_elem_of_fmap_2. }
  rewrite Hd. destruct (build_user_data_get _ _ _ Hd) as (r' & Hr' & Hid & ->).
  apply list_elem_of_lookup in Hr as [i Hi]. apply list_elem_of_lookup in Hr' as [j Hj].
  assert (i = j) as ->; [|congruence].
  eapply NoDup_lookup; [done| |]; rewrite list_lookup_fmap.
  - by rewrite Hi.
  - rewrite Hj. simpl. by rewrite Hid.
Qed.

Lemma matched_same_person users a b : matched users a b → same_person users a b.
Proof.
  intros (_ & d1 & d2 & H1 & H2 & Hc).
  destruct (build_user_data_get _ _ _ H1) as (r1 & ? & ? & ->).
  destruct (build_user_data_get _ _ _ H2) as (r2 & ? & ? & ->).
  rewrite count_matches_spec in Hc. exists r1, r2. split_and!; [done..|lia].
Qed.

Lemma same_person_matched users a b :
  NoDup (row_id <$> users) → same_person users a b →
  a = b ∨ matched users a b ∨ matched users b a.
Proof.
  intros Hnd (r1 & r2 & Hr1 & Hr2 & <- & <- & Hc).
  destruct (decide (row_id r1 = row_id r2)) as [| Hid]; [by left | right].
  pose proof Hr1 as [i Hi]%list_elem_of_lookup.
  pose proof Hr2 as [j Hj]%list_elem_of_lookup.
  assert (i ≠ j) as Hij by congruence.
  assert (min_max (row_id r1) (row_id r2) ∈ potential_pairs (build_indexes users)) as Hp.
  { destruct (decide (i < j)%nat).
    - apply potential_pairs_char. exists r1, r2. split_and!; [|apply spec_match_shares; lia|done].
      apply ordered_pair_lookup. exists i, j. done.
    - apply potential_pairs_char. exists r2, r1. split_and!.
      + apply ordered_pair_lookup. exists j, i. split; [lia | done].
      + apply spec_match_shares. rewrite spec_match_count_sym. lia.
      + unfold min_max. by rewrite Z.min_comm, Z.max_comm. }
  pose proof (build_user_data_lookup users r1 Hnd Hr1) as H1.
  pose proof (build_user_data_lookup users r2 Hnd Hr2) as H2.
  unfold min_max in Hp.
  destruct (decide (row_id r1 < row_id r2)).
  - left. rewrite Z.min_l, Z.max_r in Hp by lia. split; [done|].
    exists (row_fields r1), (row_fields r2). rewrite count_matches_spec.
    split_and!; [done..|lia].
  - right. rewrite Z.min_r, Z.max_l in Hp by lia. split; [done|].
    exists (row_fields r2), (row_fields r1).
    rewrite count_matches_spec, spec_match_count_sym.
    split_and!; [done..|lia].
Qed.

Lemma rtsc_matched_same_person users a b :
  NoDup (row_id <$> users) →
  rtsc (matched users) a b ↔ rtsc (same_person users) a b.
Proof.
  intros Hnd. split; apply rtsc_sub; clear a b; intros a b H.
  - apply rtsc_lr. by apply matched_same_person.
  - destruct (same_person_matched users a b Hnd H) as [-> | [? | ?]];
      [reflexivity | by apply rtsc_lr | by apply rtsc_rl].
Qed.

(** Nothing is reachable from an identifier none of whose records agrees
    on three fields with a record of another identifier. *)
Lemma rtsc_matched_isolated users x y :
  (∀ r1 r2, r1 ∈ users → r2 ∈ users → row_id r1 = x → row_id r2 ≠ x →
            (spec_match_count r1 r2 < 3)%nat) →
  rtsc (matched users) x y → y = x.
Proof.
  intros Hiso Hxy. induction Hxy as [x | x z y Hxz _ IH]; [done|].
  assert (z = x) as ->; [|by apply IH].
  destruct (decide (z = x)) as [|Hne]; [done | exfalso].
  destruct Hxz as [Hm | Hm]; apply matched_same_person in Hm;
    [|apply same_person_sym in Hm];
    destruct Hm as (r1 & r2 & H1 & H2 & Hid1 & Hid2 & Hc);
    specialize (Hiso r1 r2 H1 H2 Hid1); rewrite Hid2 in Hiso;
    specialize (Hiso Hne); lia.
Qed.
End matching_facts.

(** X7.  With pairwise distinct identifiers, the groups returned by
    [deduplicate_users] are the connected components of the relation
    "agree on at least three fields": two identifiers lie in the same
    entry exactly when a chain of records, each agreeing with the next on
    at least three fields, leads from one to the other.  Records that agree
    on three fields are always compared, because they share a field. *)
Theorem dedup_groups_are_components (set_order : list (Z * Z) → list (Z * Z))
    (users : list user_row) (k : nat) :
  (∀ l, set_order l ≡ₚ l) → NoDup (row_id <$> users) →
  let fuel := S (length (potential_pairs (build_indexes users)) + k) in
  ∃ count user_groups,
    deduplicate_users set_order fuel users = Ok (count, user_groups) ∧
    ∀ x y, x ∈ row_id <$> users →
      (∃ c ms, (c, ms) ∈ user_groups ∧ x ∈ ms ∧ y ∈ ms) ↔
      rtsc (same_person users) x y.
Proof.
  intros Hperm Hnd fuel.
  destruct (dedup_entries set_order Hperm fuel users ltac:(unfold fuel; lia))
    as (count & ug & Hd & _ & Hcover & _ & Hrel).
  exists count, ug. split; [done|]. intros x y Hx.
  rewrite <- rtsc_matched_same_person by done. split.
  - intros (c & ms & Hin & Hxm & Hym). by apply (Hrel c ms x y Hin Hxm).
  - intros Hxy. destruct (Hcover x Hx) as (c & ms & Hin & Hxm).
    exists c, ms. split_and!; [done..|]. by apply (Hrel c ms x y Hin Hxm).
Qed.

(** X8.  An identifier none of whose records agrees on three fields with
    a record of another identifier comes back as a group of its own: the
    mapping has the entry [x ↦ [x]], and no other entry mentions [x]. *)
Theorem dedup_isolated_singleton (set_order : list (Z * Z) → list (Z * Z))
    (users : list user_row) (x : Z) (k : nat) :
  (∀ l, set_order l ≡ₚ l) → x ∈ row_id <$> users →
  (∀ r1 r2, r1 ∈ users → r2 ∈ users → row_id r1 = x → row_id r2 ≠ x →
            (spec_match_count r1 r2 < 3)%nat) →
  let fuel := S (length (potential_pairs (build_indexes users)) + k) in
  ∃ count user_groups,
    deduplicate_users set_order fuel users = Ok (count, user_groups) ∧
    (x, [x]) ∈ user_groups ∧
    ∀ c ms, (c, ms) ∈ user_groups → x ∈ ms → c = x ∧ ms = [x].
Proof.
  intros Hperm Hx Hiso fuel.
  destruct (dedup_entries set_order Hperm fuel users ltac:(unfold fuel; lia))
    as (count & ug & Hd & _ & Hcover & Hent & Hrel).
  exists count, ug. split; [done|].
  assert (Hone : ∀ c ms, (c, ms) ∈ ug → x ∈ ms → c = x ∧ ms = [x]).
  { intros c ms Hin Hxm. destruct (Hent c ms Hin) as (Hc & Hnd & _).
    assert (Hall : ∀ y, y ∈ ms → y = x).
    { intros y Hy. apply (rtsc_matched_isolated users x y Hiso).
      by apply (Hrel c ms x y Hin Hxm). }
    split; [by apply Hall|].
    destruct ms as [|a ms]; [by apply elem_of_nil in Hxm|].
    rewrite (Hall a) in * by left. f_equal.
    destruct ms as [|b ms]; [done|]. apply NoDup_cons in Hnd as [Hnot _].
    destruct Hnot. rewrite (Hall b) by (right; left). left. }
  split; [|done].
  destruct (Hcover x Hx) as (c & ms & Hin & Hxm).
  by destruct (Hone c ms Hin Hxm) as [-> ->].
Qed.

(** X9.  The result of [deduplicate_users] does not depend on the order
    in which the candidate set is enumerated: two enumerations give the
    same count and the same mapping, entry for entry and in the same
    order, although the roots inside the structure may differ. *)
Theorem dedup_order_independent (set_order1 set_order2 : list (Z * Z) → list (Z * Z))
    (users : list user_row) (k : nat) :
  (∀ l, set_order1 l ≡ₚ l) → (∀ l, set_order2 l ≡ₚ l) →
  let fuel := S (length (potential_pairs (build_indexes users)) + k) in
  ∃ v, deduplicate_users set_order1 fuel users = Ok v ∧
       deduplicate_users set_order2 fuel users = Ok v.
Proof.
  intros Hperm1 Hperm2 fuel.
  destruct (dedup_spec set_order1 Hperm1 fuel users ltac:(unfold fuel; lia))
    as (uf1 & P1 & groups1 & ug1 & Hrun1 & Hinv1 & Hgrp1 & Hkeys1 & Hg1 & _ & Hd1 & _).
  destruct (dedup_spec set_order2 Hperm2 fuel users ltac:(unfold fuel; lia))
    as (uf2 & P2 & groups2 & ug2 & Hrun2 & Hinv2 & Hgrp2 & Hkeys2 & Hg2 & _ & Hd2 & _).
  pose proof (dedup_union_calls set_order1 Hperm1 users) as Hc1.
  pose proof (dedup_union_calls set_order2 Hperm2 users) as Hc2.
  assert (Hk : dict_keys (parent uf2) = dict_keys (parent uf1)).
  { rewrite (run_ops_keys_list _ _ _ Hrun1), (run_ops_keys_list _ _ _ Hrun2).
    by rewrite !dedup_keys_list. }
  unfold get_groups in Hg1, Hg2. rewrite Hk in Hg2.
  destruct (get_groups_loop_rel fuel (dict_keys (parent uf1)) uf1 uf2 [] [] _ _
              Hinv1 Hinv2 ltac:(unfold fuel; lia) ltac:(unfold fuel; lia))
    as (u1 & u2 & g1 & g2 & Hl1 & Hl2 & Hall); [| done | by rewrite Hk | constructor |].
  { intros a b. by rewrite Hgrp1, Hgrp2, !connected_matched. }
  rewrite Hg1 in Hl1. rewrite Hg2 in Hl2. simplify_eq.
  assert (dict_values g1 = dict_values g2) as Hv.
  { unfold dict_values. clear -Hall.
    induction Hall as [|[] [] ???? IH]; csimpl in *; [done|]. by f_equal. }
  exists (length g1, ug1). split; [done|].
  rewrite dedup_unfold_run in Hd1, Hd2 |- * by done.
  rewrite Hrun1 in Hd1. rewrite Hrun2 in Hd2 |- *. cbn [mbind res_bind] in *.
  unfold get_groups in *. rewrite Hk, Hg2 in Hd2 |- *. rewrite Hg1 in Hd1.
  cbn [mbind res_bind] in *. rewrite <- Hv.
  destruct (canonical_groups (dict_values g1) []); [|done].
  cbn [mbind res_bind] in *. simplify_eq. by rewrite (Forall2_length _ _ _ Hall).
Qed.

(** X10.  A recursion depth of one more than the binary logarithm of the
    number of records is enough for [deduplicate_users], however many
    candidate pairs there are, and a larger depth changes nothing of the
    result. *)
Theorem dedup_depth_logarithmic (set_order : list (Z * Z) → list (Z * Z))
    (users : list user_row) (k : nat) :
  (∀ l, set_order l ≡ₚ l) →
  let fuel := (S (Nat.log2 (length users)) + k)%nat in
  ∃ v, deduplicate_users set_order fuel users = Ok v ∧
       ∀ fuel', (fuel ≤ fuel')%nat → deduplicate_users set_order fuel' users = Ok v.
Proof.
  intros Hperm fuel.
  assert (length (foldl op_keys [] (dedup_ops set_order users)) < 2 ^ fuel)%nat as Hlen.
  { rewrite dedup_keys_list by done.
    pose proof (find_keys_length [] (row_id <$> users)) as Hle.
    rewrite length_fmap in Hle. simpl in Hle.
    pose proof (log2_fuel (length users) k). unfold fuel. lia. }
  destruct (run_ops_log fuel (dedup_ops set_order users) UnionFind_init 0
              uf_inv_init rank_inv_init ltac:(unfold fuel; lia) Hlen)
    as (uf & h & Hrun & Hinv & Hri & Hk).
  simpl in Hk. rewrite <- Hk in Hlen.
  pose proof (uf_inv_log uf h fuel Hinv Hri Hlen) as Hinv'.
  destruct (dedup_from_run set_order fuel users uf _ Hperm Hrun Hinv'
              ltac:(unfold fuel; lia)) as (P' & groups & ug & _ & _ & Hd & _).
  exists (length groups, ug). split; [done|].
  intros fuel' Hle. by apply (deduplicate_users_fuel_mono set_order fuel fuel').
Qed.

(** X11.  [deduplicate_users] returns the count 0, and likewise the empty
    mapping, for the empty table only. *)
Theorem dedup_empty_iff (set_order : list (Z * Z) → list (Z * Z))
    (users : list user_row) (k : nat) :
  (∀ l, set_order l ≡ₚ l) →
  let fuel := S (length (potential_pairs (build_indexes users)) + k) in
  ∃ count user_groups,
    deduplicate_users set_order fuel users = Ok (count, user_groups) ∧
    (count = 0%nat ↔ users = []) ∧ (user_groups = [] ↔ users = []).
Proof.
  intros Hperm fuel.
  destruct (dedup_entries set_order Hperm fuel users ltac:(unfold fuel; lia))
    as (count & ug & Hd & Hzero & Hcover & Hent & _).
  exists count, ug. split_and!; [done..|]. split.
  - intros ->. destruct users as [|r users]; [done|].
    destruct (Hcover (row_id r)) as (c & ms & Hin & _); [left|].
    by apply elem_of_nil in Hin.
  - intros ->. destruct ug as [|[c ms] ug]; [done|].
    destruct (Hent c ms) as (Hc & _ & Hids); [left|].
    apply Hids in Hc. by apply elem_of_nil in Hc.
Qed.

Lemma dedup_groups_are_components_witness :
  (∀ l : list (Z * Z), l ≡ₚ l) ∧
  NoDup (row_id <$> [user_101; user_102; user_103]) ∧
  ∃ count user_groups,
    deduplicate_users (λ l, l) 4 [user_101; user_102; user_103] = Ok (count, user_groups) ∧
    ∀ x y, x ∈ row_id <$> [user_101; user_102; user_103] →
      (∃ c ms, (c, ms) ∈ user_groups ∧ x ∈ ms ∧ y ∈ ms) ↔
      rtsc (same_person [user_101; user_102; user_103]) x y.
Proof.
  assert (NoDup (row_id <$> [user_101; user_102; user_103])) as Hnd.
  { repeat (apply NoDup_cons; split; [by intros ?%list_elem_of_In; simpl in *; intuition lia|]).
    apply NoDup_nil_2. }
  split; [intros l; reflexivity|]. split; [exact Hnd|].
  exact (dedup_groups_are_components (λ l, l) [user_101; user_102; user_103] 0
           (λ l, reflexivity l) Hnd).
Defined.

Lemma dedup_isolated_singleton_witness :
  (∀ l : list (Z * Z), l ≡ₚ l) ∧
  104 ∈ row_id <$> [user_101; user_102; user_104] ∧
  ∃ count user_groups,
    deduplicate_users (λ l, l) 2 [user_101; user_102; user_104] = Ok (count, user_groups) ∧
    (104, [104]) ∈ user_groups.
Proof.
  assert (104 ∈ row_id <$> [user_101; user_102; user_104]) as Hin.
  { simpl. do 2 right. left. }
  split; [intros l; reflexivity|]. split; [exact Hin|].
  destruct (dedup_isolated_singleton (λ l, l) [user_101; user_102; user_104] 104 0
              (λ l, reflexivity l) Hin) as (count & ug & Hd & Hone & _).
  { intros r1 r2 H1 H2 Hid1 Hid2.
    repeat (apply elem_of_cons in H1 as [-> | H1]); [..|by apply elem_of_nil in H1];
      simpl in Hid1; try lia;
      repeat (apply elem_of_cons in H2 as [-> | H2]); [..|by apply elem_of_nil in H2];
      simpl in Hid2; try lia; vm_compute; lia. }
  exists count, ug. split; [exact Hd | exact Hone].
Defined.

Lemma dedup_order_independent_witness :
  (∀ l : list (Z * Z), l ≡ₚ l) ∧ (∀ l : list (Z * Z), reverse l ≡ₚ l) ∧
  ∃ v, deduplicate_users (λ l, l) 4 [user_101; user_102; user_103] = Ok v ∧
       deduplicate_users reverse 4 [user_101; user_102; user_103] = Ok v.
Proof.
  split; [intros l; reflexivity|]. split; [apply reverse_Permutation|].
  exact (dedup_order_independent (λ l, l) reverse [user_101; user_102; user_103] 0
           (λ l, reflexivity l) reverse_Permutation).
Defined.

Lemma dedup_depth_logarithmic_witness :
  (∀ l : list (Z * Z), l ≡ₚ l) ∧
  ∃ v, deduplicate_users (λ l, l) 2 [user_101; user_102; user_103] = Ok v ∧
       ∀ fuel', (2 ≤ fuel')%nat →
         deduplicate_users (λ l, l) fuel' [user_101; user_102; user_103] = Ok v.
Proof.
  split; [intros l; reflexivity|].
  exact (dedup_depth_logarithmic (λ l, l) [user_101; user_102; user_103] 0
           (λ l, reflexivity l)).
Defined.

Lemma dedup_empty_iff_witness :
  (∀ l : list (Z * Z), l ≡ₚ l) ∧
  ∃ count user_groups,
    deduplicate_users (λ l, l) 1 [user_104] = Ok (count, user_groups) ∧
    (count = 0%nat ↔ [user_104] = []) ∧ (user_groups = [] ↔ [user_104] = []).
Proof.
  split; [intros l; reflexivity|].
  exact (dedup_empty_iff (λ l, l) [user_104] 0 (λ l, reflexivity l)).
Defined.

(** ** More on [find_top_customer] *)

Section seen_order_facts.
Context {A : Type}.
Implicit Types (f : A → Z) (ks : list Z) (l : list A).

Lemma seen_order_prefix f ks l : ∃ r, seen_order f ks l = ks ++ r.
Proof.
  revert ks. induction l as [|x l IH]; intros ks; simpl.
  - exists []. by rewrite app_nil_r.
  - destruct (IH (set_add (f x) ks)) as [r Hr].
    change (seen_order f ks (x :: l)) with (seen_order f (set_add (f x) ks) l).
    rewrite Hr. unfold set_add. case_decide; [by exists r|].
    exists ([f x] ++ r). by rewrite app_assoc.
Qed.

Lemma seen_order_NoDup f ks l : NoDup ks → NoDup (seen_order f ks l).
Proof.
  revert ks. induction l as [|x l IH]; intros ks Hks; [done|].
  apply (IH (set_add (f x) ks)). by apply NoDup_set_add.
Qed.

(** A key that comes before another one was first produced before it. *)
Lemma seen_order_first f ks l k1 a k2 b :
  NoDup ks → seen_order f ks l = k1 ++ a :: k2 → b ∈ k2 → b ∉ ks →
  a ∈ ks ∨ ∃ l1 x l2, l = l1 ++ x :: l2 ∧ f x = a ∧ ∀ y, y ∈ l1 → f y ≠ b.
Proof.
  revert ks. induction l as [|x l IH]; intros ks Hnd Heq Hb Hnot.
  - unfold seen_order in Heq. simpl in Heq. subst ks. destruct Hnot.
    apply elem_of_app. right. by right.
  - change (seen_order f ks (x :: l)) with (seen_order f (set_add (f x) ks) l) in Heq.
    destruct (decide (b ∈ set_add (f x) ks)) as [Hin | Hout].
    + left. apply elem_of_set_add in Hin as [-> | ?]; [|done].
      pose proof (seen_order_NoDup f _ l (NoDup_set_add (f x) ks Hnd)) as Hnd'.
      destruct (seen_order_prefix f (set_add (f x) ks) l) as [r Hr].
      rewrite Heq in Hnd', Hr.
      unfold set_add in Hr. rewrite decide_False in Hr by done.
      apply list_elem_of_lookup in Hb as [j Hj].
      assert ((k1 ++ a :: k2) !! (length k1 + S j)%nat = Some (f x)) as H1.
      { by rewrite lookup_app_r, Nat.add_comm, Nat.add_sub by lia. }
      assert ((k1 ++ a :: k2) !! length ks = Some (f x)) as H2.
      { rewrite Hr, <- app_assoc. by rewrite lookup_app_r, Nat.sub_diag by lia. }
      pose proof (NoDup_lookup _ _ _ _ Hnd' H1 H2) as Hlen.
      assert ((k1 ++ a :: k2) !! length k1 = Some a) as Ha.
      { by rewrite lookup_app_r, Nat.sub_diag by lia. }
      rewrite Hr, <- app_assoc, lookup_app_l in Ha by lia.
      by eapply list_elem_of_lookup_2.
    + destruct (IH _ (NoDup_set_add (f x) ks Hnd) Heq Hb Hout)
        as [[-> | ?]%elem_of_set_add | (l1 & x' & l2 & -> & Hx' & Hl1)].
      * right. exists [], x, l. split_and!; [done..|]. by intros y ?%elem_of_nil.
      * by left.
      * right. exists (x :: l1), x', l2. split_and!; [done..|].
        intros y [-> | Hy]%elem_of_cons; [|by apply Hl1].
        intros Hfx. apply Hout. apply elem_of_set_add. by left.
Qed.
End seen_order_facts.

Section top_customer_more.
Context {M : Type} `{Money M}.
Implicit Types (orders : list (order_row M)) (user_groups : list (Z * list Z)).

Lemma foldl_pick_elem (key : Z → M) ks k0 :
  foldl (λ best k, if m_gt (key k) (key best) then k else best) k0 ks ∈ k0 :: ks.
Proof.
  revert k0. induction ks as [|k1 ks IH]; intros k0; simpl; [left|].
  specialize (IH (if m_gt (key k1) (key k0) then k1 else k0)).
  apply elem_of_cons in IH as [-> | ?]; [|by right; right].
  destruct (m_gt (key k1) (key k0)); [right; left | left].
Qed.

Lemma canonical_spending_total orders user_groups c :
  default m_zero
    (dict_get c (build_canonical_spending (build_user_to_canonical user_groups)
                   (groupby_sum orders)))
  = group_total orders user_groups c.
Proof.
  unfold build_canonical_spending, group_total. rewrite spend_get.
  by destruct (snd <$> filter _ (groupby_sum orders)).
Qed.

Lemma groupby_sum_keys_elem orders uid :
  uid ∈ dict_keys (groupby_sum orders) ↔ uid ∈ user_id <$> orders.
Proof.
  rewrite groupby_sum_keys. unfold sorted.
  by rewrite merge_sort_Permutation, elem_of_remove_dups.
Qed.

Lemma canonical_spending_keys orders user_groups c :
  c ∈ dict_keys (build_canonical_spending (build_user_to_canonical user_groups)
                   (groupby_sum orders)) ↔
  ∃ o, o ∈ orders ∧
       canonical_id (build_user_to_canonical user_groups) (user_id o) = c.
Proof.
  rewrite spend_keys. split.
  - intros (uid & Hu & ?). apply groupby_sum_keys_elem in Hu.
    apply list_elem_of_fmap in Hu as (o & -> & ?). eauto.
  - intros (o & ? & ?). exists (user_id o). split; [|done].
    apply groupby_sum_keys_elem. by apply list_elem_of_fmap_2.
Qed.

Lemma spend_keys_list u2c (us cs : list (Z * M)) :
  dict_keys (foldl (spend_step u2c) cs us)
  = seen_order (canonical_id u2c) (dict_keys cs) (dict_keys us).
Proof.
  revert cs. induction us as [|[uid sp] us IH]; intros cs; [done|].
  cbn [foldl]. rewrite IH. unfold seen_order. csimpl. f_equal.
  unfold spend_step. rewrite dict_keys_set. unfold set_add.
  destruct (dict_mem _ cs) eqn:E.
  - apply dict_mem_true in E. by rewrite decide_True.
  - apply dict_mem_false in E. by rewrite decide_False.
Qed.

(** With orders, the call returns, whatever the comparison of amounts
    does. *)
Lemma top_customer_returns orders user_groups :
  orders ≠ [] →
  ∃ top,
    top ∈ dict_keys (build_canonical_spending (build_user_to_canonical user_groups)
                       (groupby_sum orders)) ∧
    py_max_key (build_canonical_spending (build_user_to_canonical user_groups)
                  (groupby_sum orders)) = Ok top ∧
    find_top_customer orders user_groups =
      Ok (sorted (default [top] (dict_get top user_groups)),
          m_round2 (group_total orders user_groups top)).
Proof.
  intros Hne.
  set (cs := build_canonical_spending (build_user_to_canonical user_groups)
               (groupby_sum orders)).
  assert (∃ top, py_max_key cs = Ok top ∧ top ∈ dict_keys cs) as (top & Hmax & Htop).
  { unfold py_max_key. destruct (dict_keys cs) as [|k0 ks] eqn:E.
    - destruct orders as [|o orders']; [done|].
      assert (canonical_id (build_user_to_canonical user_groups) (user_id o)
              ∈ dict_keys cs) as Hk.
      { apply canonical_spending_keys. exists o. split; [left | done]. }
      rewrite E in Hk. by apply elem_of_nil in Hk.
    - eexists. split; [done|]. apply foldl_pick_elem. }
  exists top. split_and!; [done..|].
  unfold find_top_customer, top_customer_of. fold cs. rewrite Hmax.
  cbn [mbind res_bind].
  pose proof Htop as [v Hv]%dict_get_is_Some.
  rewrite (proj2 (dict_index_Ok _ _ _) Hv). cbn [mbind res_bind].
  by rewrite <- canonical_spending_total; fold cs; rewrite Hv.
Qed.
End top_customer_more.

(** X12.  The [ValueError] on an empty orders table is the only exception
    of [find_top_customer]: with at least one order it returns, whatever
    the groups and however amounts add and compare, the chosen identifier
    being the canonical identifier of some order; the lookup of its total
    never misses. *)
Theorem top_customer_only_error {M : Type} `{Money M}
    (orders : list (order_row M)) (user_groups : list (Z * list Z)) :
  (orders = [] ∧ find_top_customer orders user_groups = Raise ValueError) ∨
  (orders ≠ [] ∧
   ∃ top,
     (∃ o, o ∈ orders ∧
           canonical_id (build_user_to_canonical user_groups) (user_id o) = top) ∧
     find_top_customer orders user_groups =
       Ok (sorted (default [top] (dict_get top user_groups)),
           m_round2 (group_total orders user_groups top))).
Proof.
  destruct orders as [|o orders]; [by left | right]. split; [done|].
  destruct (top_customer_returns (o :: orders) user_groups) as (top & Hk & _ & Hf); [done|].
  exists top. split; [|done]. by apply canonical_spending_keys.
Qed.

Section top_customer_ties.
Context {M : Type} `{Money M}.
Implicit Types (orders : list (order_row M)) (user_groups : list (Z * list Z)).

Hypothesis gt_asym : ∀ a b : M, m_gt a b = true → m_gt b a = false.
Hypothesis le_trans : ∀ a b c : M,
  m_gt a b = false → m_gt b c = false → m_gt a c = false.

Lemma gt_le_gt (a b c : M) : m_gt a b = true → m_gt c b = false → m_gt a c = true.
Proof.
  intros Hab Hcb. destruct (m_gt a c) eqn:E; [done|].
  by rewrite (le_trans a c b E Hcb) in Hab.
Qed.

(** [max] keeps the first of the greatest keys: the keys before the chosen
    one are strictly smaller, those after it are not greater. *)
Lemma foldl_max_first (key : Z → M) pre mid ks k0 :
  (∀ p, p ∈ pre → m_gt (key k0) (key p) = true) →
  (∀ m, m ∈ mid → m_gt (key m) (key k0) = false) →
  let best := foldl (λ best k, if m_gt (key k) (key best) then k else best) k0 ks in
  ∃ l1 l2, pre ++ k0 :: mid ++ ks = l1 ++ best :: l2 ∧
    (∀ p, p ∈ l1 → m_gt (key best) (key p) = true) ∧
    (∀ m, m ∈ l2 → m_gt (key m) (key best) = false).
Proof.
  revert pre mid k0. induction ks as [|k ks IH]; intros pre mid k0 Hpre Hmid; simpl.
  - exists pre, mid. by rewrite app_nil_r.
  - destruct (m_gt (key k) (key k0)) eqn:E.
    + destruct (IH (pre ++ k0 :: mid) [] k) as (l1 & l2 & Heq & H1 & H2).
      * intros p [Hp | [-> | Hp]%elem_of_cons]%elem_of_app.
        -- eapply gt_le_gt; [done|]. apply gt_asym. by apply Hpre.
        -- done.
        -- eapply gt_le_gt; [done|]. by apply Hmid.
      * by intros m ?%elem_of_nil.
      * exists l1, l2. split; [|done]. rewrite <- Heq. by rewrite <- app_assoc.
    + destruct (IH pre (mid ++ [k]) k0) as (l1 & l2 & Heq & H1 & H2).
      * done.
      * intros m [Hm | ->%list_elem_of_singleton]%elem_of_app; [by apply Hmid | done].
      * exists l1, l2. split; [|done]. rewrite <- Heq. by rewrite <- app_assoc.
Qed.

(** X13.  Ties between customers are settled by the order of the
    identifiers: [find_top_customer] returns a customer whose total no
    other exceeds, and every customer with the same total has all its
    orders under identifiers larger than the smallest identifier the chosen
    customer ordered under. *)
Theorem top_customer_tie_break orders user_groups :
  orders ≠ [] →
  ∃ top,
    find_top_customer orders user_groups =
      Ok (sorted (default [top] (dict_get top user_groups)),
          m_round2 (group_total orders user_groups top)) ∧
    ∀ o, o ∈ orders →
      let c := canonical_id (build_user_to_canonical user_groups) (user_id o) in
      m_gt (group_total orders user_groups c) (group_total orders user_groups top)
        = false ∧
      (m_gt (group_total orders user_groups top) (group_total orders user_groups c)
         = true ∨
       ∃ o', o' ∈ orders ∧
             canonical_id (build_user_to_canonical user_groups) (user_id o') = top ∧
             user_id o' ≤ user_id o).
Proof.
  intros Hne.
  assert (Hirr : ∀ a : M, m_gt a a = false).
  { intros a. destruct (m_gt a a) eqn:E; [|done]. by rewrite (gt_asym _ _ E) in E. }
  destruct (top_customer_returns orders user_groups Hne) as (top & Htop & Hmax & Hf).
  exists top. split; [done|].
  set (u2c := build_user_to_canonical user_groups) in *.
  set (cs := build_canonical_spending u2c (groupby_sum orders)) in *.
  assert (∃ l1 l2, dict_keys cs = l1 ++ top :: l2 ∧
            (∀ p, p ∈ l1 → m_gt (group_total orders user_groups top)
                                (group_total orders user_groups p) = true) ∧
            (∀ m, m ∈ l2 → m_gt (group_total orders user_groups m)
                                (group_total orders user_groups top) = false))
    as (l1 & l2 & Hkeys & H1 & H2).
  { unfold py_max_key in Hmax. destruct (dict_keys cs) as [|k0 ks] eqn:E; [done|].
    destruct (foldl_max_first (λ k, default m_zero (dict_get k cs)) [] [] ks k0)
      as (l1 & l2 & Heq & H1 & H2); [by intros ? ?%elem_of_nil..|].
    simplify_eq. simpl in Heq. exists l1, l2. split; [done|].
    unfold cs, u2c in H1, H2. setoid_rewrite canonical_spending_total in H1.
    setoid_rewrite canonical_spending_total in H2. done. }
  intros o Ho c.
  assert (c ∈ dict_keys cs) as Hc.
  { apply canonical_spending_keys. by exists o. }
  rewrite Hkeys in Hc.
  apply elem_of_app in Hc as [Hc | [Hc | Hc]%elem_of_cons].
  - split; [apply gt_asym|left]; by apply H1.
  - rewrite Hc. split; [apply Hirr|]. right. by exists o.
  - split; [by apply H2|]. right.
    unfold cs, build_canonical_spending in Hkeys. rewrite spend_keys_list in Hkeys.
    destruct (seen_order_first _ _ _ _ _ _ c (NoDup_nil_2) Hkeys Hc)
      as [[]%elem_of_nil | (u1 & x & u2 & Hus & Hx & Hu1)]; [by intros ?%elem_of_nil|].
    assert (x ∈ dict_keys (groupby_sum orders)) as Hxin.
    { rewrite Hus. apply elem_of_app. right. left. }
    apply groupby_sum_keys_elem, list_elem_of_fmap in Hxin as (o' & -> & Ho').
    exists o'. split_and!; [done..|].
    assert (user_id o ∈ dict_keys (groupby_sum orders)) as Hoin.
    { apply groupby_sum_keys_elem. by apply list_elem_of_fmap_2. }
    rewrite Hus in Hoin.
    apply elem_of_app in Hoin as [Hin | [-> | Hin]%elem_of_cons].
    + by destruct (Hu1 _ Hin).
    + done.
    + assert (StronglySorted Z.le (dict_keys (groupby_sum orders))) as Hs.
      { rewrite groupby_sum_keys. apply StronglySorted_merge_sort; apply _. }
      rewrite Hus in Hs. apply StronglySorted_app_1_r in Hs.
      apply StronglySorted_inv in Hs as [_ Hall].
      by apply (proj1 (Forall_forall _ _) Hall).
Qed.
End top_customer_ties.

Section dedup_then_top.
Context {M : Type} `{Money M}.
Implicit Types (orders : list (order_row M)) (user_groups : list (Z * list Z)).

Lemma canonical_id_cases user_groups uid :
  let canon := canonical_id (build_user_to_canonical user_groups) in
  (canon uid = uid ∧ ∀ c ms, (c, ms) ∈ user_groups → uid ∉ ms) ∨
  (∃ ms, (canon uid, ms) ∈ user_groups ∧ uid ∈ ms).
Proof.
  simpl. unfold canonical_id, build_user_to_canonical.
  destruct (dict_get uid _) as [c|] eqn:E; simpl.
  - right. apply u2c_get_Some in E as [? | ?]; done.
  - left. split; [done|]. by apply u2c_get_None in E as [_ ?].
Qed.

Lemma canonical_id_member user_groups c ms uid :
  NoDup (mjoin (dict_values user_groups)) → (c, ms) ∈ user_groups → uid ∈ ms →
  canonical_id (build_user_to_canonical user_groups) uid = c.
Proof.
  intros Hnd Hin Huid.
  destruct (canonical_id_cases user_groups uid) as [[_ Hno] | (ms' & Hin' & Huid')].
  - by destruct (Hno c ms).
  - by destruct (unique_group_entry user_groups _ _ _ _ uid Hnd Hin' Hin Huid' Huid).
Qed.

Lemma sorted_sorted (l : list Z) : StronglySorted Z.le l → sorted l = l.
Proof.
  intros Hl. apply (StronglySorted_unique Z.le); [|done|].
  - apply StronglySorted_merge_sort; apply _.
  - apply merge_sort_Permutation.
Qed.

(** The shape of the mapping [deduplicate_users] returns. *)
Lemma dedup_shape set_order fuel users :
  (∀ l, set_order l ≡ₚ l) →
  (length (potential_pairs (build_indexes users)) < fuel)%nat →
  ∃ count ug,
    deduplicate_users set_order fuel users = Ok (count, ug) ∧
    NoDup (dict_keys ug) ∧ NoDup (mjoin (dict_values ug)) ∧
    (∀ x, x ∈ row_id <$> users → ∃ c ms, (c, ms) ∈ ug ∧ x ∈ ms) ∧
    (∀ c ms, (c, ms) ∈ ug → c ∈ ms ∧ StronglySorted Z.le ms).
Proof.
  intros Hperm Hfuel.
  destruct (dedup_spec set_order Hperm fuel users Hfuel)
    as (uf & P' & groups & ug & _ & Hinv & _ & Hkeys & _ & Hgi & Hd & Hall).
  destruct (dedup_entries set_order Hperm fuel users Hfuel)
    as (count' & ug' & Hd' & _ & Hcover & Hent & _).
  rewrite Hd in Hd'. simplify_eq.
  pose proof (groups_join_NoDup _ _ _ Hgi) as Hnd.
  exists (length groups), ug'. split_and!; [done| | |done|].
  - by eapply canonical_keys_NoDup.
  - rewrite (canonical_values _ _ Hall). by rewrite join_sorted.
  - intros c ms Hin. split; [by apply (Hent c ms)|].
    destruct (canonical_entry _ _ _ _ Hall Hin) as (members & _ & -> & _).
    apply StronglySorted_merge_sort; apply _.
Qed.

(** X14.  [find_top_customer] on the mapping [deduplicate_users] returns:
    when every order is placed under an identifier of the users table, the
    identifiers it returns are exactly the member list of one entry of the
    mapping, as stored; some order was placed under one of them, and the
    amount is the rounded total of the orders placed under the members of
    that entry and no others. *)
Theorem top_customer_of_dedup (set_order : list (Z * Z) → list (Z * Z))
    (users : list user_row) orders (k : nat) :
  (∀ l, set_order l ≡ₚ l) → orders ≠ [] →
  (∀ o, o ∈ orders → user_id o ∈ row_id <$> users) →
  let fuel := S (length (potential_pairs (build_indexes users)) + k) in
  ∃ count user_groups c ms,
    deduplicate_users set_order fuel users = Ok (count, user_groups) ∧
    (c, ms) ∈ user_groups ∧
    (∃ o, o ∈ orders ∧ user_id o ∈ ms) ∧
    find_top_customer orders user_groups =
      Ok (ms, m_round2 (group_total orders user_groups c)) ∧
    ∀ uid, canonical_id (build_user_to_canonical user_groups) uid = c ↔ uid ∈ ms.
Proof.
  intros Hperm Hne Hids fuel.
  destruct (dedup_shape set_order fuel users Hperm ltac:(unfold fuel; lia))
    as (count & ug & Hd & Hndk & Hnd & Hcover & Hsorted).
  destruct (top_customer_returns orders ug Hne) as (top & Htop & _ & Hf).
  apply canonical_spending_keys in Htop as (o & Ho & Hcanon).
  destruct (Hcover _ (Hids o Ho)) as (c & ms & Hin & Hom).
  rewrite (canonical_id_member ug c ms _ Hnd Hin Hom) in Hcanon. subst top.
  exists count, ug, c, ms. split_and!; [done | done | by exists o | |].
  - rewrite Hf, (dict_elem_get _ _ _ Hndk Hin). simpl.
    by rewrite sorted_sorted by by apply (Hsorted c ms).
  - intros uid. split; [|by apply canonical_id_member].
    intros Hc. destruct (canonical_id_cases ug uid) as [[Hself Hno] | (ms' & Hin' & Huid)].
    + simpl in Hself. rewrite Hc in Hself. subst uid.
      destruct (Hno c ms Hin). by apply (Hsorted c ms).
    + simpl in Hin'. rewrite Hc in Hin'.
      pose proof (dict_elem_get _ _ _ Hndk Hin) as E1.
      pose proof (dict_elem_get _ _ _ Hndk Hin') as E2. congruence.
Qed.
End dedup_then_top.

Lemma top_customer_tie_break_witness :
  let orders := [mkOrder 102 (300#1)%Q; mkOrder 7 (800#1)%Q; mkOrder 101 (500#1)%Q] in
  let user_groups := [(101, [101; 102])] in
  orders ≠ [] ∧
  (∀ a b : Q, m_gt a b = true → m_gt b a = false) ∧
  (∀ a b c : Q, m_gt a b = false → m_gt b c = false → m_gt a c = false) ∧
  ∃ top,
    find_top_customer orders user_groups =
      Ok (sorted (default [top] (dict_get top user_groups)),
          m_round2 (group_total orders user_groups top)) ∧
    ∀ o, o ∈ orders →
      m_gt (group_total orders user_groups
              (canonical_id (build_user_to_canonical user_groups) (user_id o)))
           (group_total orders user_groups top) = false.
Proof.
  intros orders user_groups.
  split; [discriminate|]. split; [exact Q_gt_asym|]. split; [exact Q_le_trans|].
  destruct (top_customer_tie_break Q_gt_asym Q_le_trans orders user_groups)
    as (top & Hf & Hall); [discriminate|].
  exists top. split; [exact Hf|]. intros o Ho. exact (proj1 (Hall o Ho)).
Defined.

Lemma top_customer_of_dedup_witness :
  let orders := [mkOrder 101 (500#1)%Q; mkOrder 102 (300#1)%Q] in
  (∀ l : list (Z * Z), l ≡ₚ l) ∧ orders ≠ [] ∧
  (∀ o, o ∈ orders → user_id o ∈ row_id <$> [user_101; user_102]) ∧
  ∃ count user_groups c ms,
    deduplicate_users (λ l, l) 2 [user_101; user_102] = Ok (count, user_groups) ∧
    (c, ms) ∈ user_groups ∧
    find_top_customer orders user_groups =
      Ok (ms, m_round2 (group_total orders user_groups c)).
Proof.
  intros orders.
  assert (∀ o, o ∈ orders → user_id o ∈ row_id <$> [user_101; user_102]) as Hids.
  { intros o Ho. unfold orders in Ho.
    repeat (apply elem_of_cons in Ho as [-> | Ho]); [..|by apply elem_of_nil in Ho];
      simpl; [left | right; left]. }
  split; [intros l; reflexivity|]. split; [discriminate|]. split; [exact Hids|].
  destruct (top_customer_of_dedup (λ l, l) [user_101; user_102] orders 0
              (λ l, reflexivity l)) as (count & ug & c & ms & Hd & Hin & _ & Hf & _);
    [discriminate | exact Hids |].
  exists count, ug, c, ms. split_and!; [exact Hd | exact Hin | exact Hf].
Defined.

(** ** [count_unique_author_sets] *)

#[global] Instance str_le_trans : Transitive str_le.
Proof.
  unfold str_le, String.leb. intros a.
  induction a as [|x a IH]; intros [|y b] [|z c]; simpl; try done.
  unfold Ascii.compare.
  destruct (N.compare_spec (Ascii.N_of_ascii x) (Ascii.N_of_ascii y)),
    (N.compare_spec (Ascii.N_of_ascii y) (Ascii.N_of_ascii z)),
    (N.compare_spec (Ascii.N_of_ascii x) (Ascii.N_of_ascii z)); try done; try lia.
  apply IH.
Qed.

#[global] Instance str_le_total : Total str_le.
Proof. intros a b. apply String.leb_total. Qed.

#[global] Instance str_le_antisym : AntiSymm (=) str_le.
Proof. intros a b. apply String.leb_antisym. Qed.

Lemma sorted_str_perm (l1 l2 : list string) :
  l1 ≡ₚ l2 → sorted_str l1 = sorted_str l2.
Proof.
  intros Hp. unfold sorted_str. apply (Sorted_unique str_le).
  - apply Sorted_merge_sort; apply _.
  - apply Sorted_merge_sort; apply _.
  - by rewrite !merge_sort_Permutation.
Qed.

Section author_set_facts.
Implicit Types (column : list (option author_set)) (aset : author_set).

Lemma collect_author_sets_spec column :
  NoDup (collect_author_sets column) ∧
  (∀ aset, aset ∈ collect_author_sets column ↔ Some aset ∈ column) ∧
  (length (collect_author_sets column) ≤ length column)%nat.
Proof.
  unfold collect_author_sets.
  assert (∀ acc : list author_set, NoDup acc →
    let r := foldl (λ unique_sets cell,
                      match cell with
                      | Some aset => set_add aset unique_sets
                      | None => unique_sets
                      end) acc column in
    NoDup r ∧ (∀ aset, aset ∈ r ↔ aset ∈ acc ∨ Some aset ∈ column) ∧
    (length r ≤ length acc + length column)%nat) as Hgen.
  { induction column as [|cell column IH]; intros acc Hacc; simpl.
    - split_and!; [done| |lia]. intros aset. rewrite elem_of_nil. tauto.
    - destruct cell as [a|].
      + destruct (IH (set_add a acc) (NoDup_set_add a acc Hacc)) as (Hnd & Hel & Hlen).
        split_and!; [done| |].
        * intros aset. rewrite Hel, elem_of_set_add, elem_of_cons.
          split; [intros [[-> | ?] | ?] | intros [? | [[= ->] | ?]]]; tauto.
        * etrans; [exact Hlen|]. unfold set_add. case_decide; [lia|].
          rewrite length_app. simpl. lia.
      + destruct (IH acc Hacc) as (Hnd & Hel & Hlen).
        split_and!; [done| |lia].
        intros aset. rewrite Hel, elem_of_cons. split; [tauto|].
        intros [? | [[=] | ?]]; tauto. }
  destruct (Hgen [] (NoDup_nil_2)) as (Hnd & Hel & Hlen).
  split_and!; [done| |done]. intros aset. rewrite Hel, elem_of_nil. tauto.
Qed.

Lemma author_set_string_display frozenset_iter aset :
  (∀ s, frozenset_iter s ≡ₚ elements s) →
  author_set_string frozenset_iter aset = display aset.
Proof.
  intros Hiter. unfold author_set_string, display. f_equal.
  apply sorted_str_perm, Hiter.
Qed.
End author_set_facts.

(** X15.  In whatever order CPython enumerates the sets,
    [count_unique_author_sets] returns the number of distinct sets of the
    column, [None] cells left out, and one display string for each of
    them, in ascending order; the count is the length of the list and at
    most the number of rows. *)
Theorem author_sets_counted (set_iter : list author_set → list author_set)
    (frozenset_iter : author_set → list string)
    (column : list (option author_set)) :
  (∀ l, set_iter l ≡ₚ l) → (∀ s, frozenset_iter s ≡ₚ elements s) →
  ∃ count strings sets,
    count_unique_author_sets set_iter frozenset_iter column = (count, strings) ∧
    NoDup sets ∧ (∀ aset, aset ∈ sets ↔ Some aset ∈ column) ∧
    count = length sets ∧ length strings = count ∧
    (count ≤ length column)%nat ∧
    strings ≡ₚ display <$> sets ∧ Sorted str_le strings.
Proof.
  intros Hset Hiter.
  destruct (collect_author_sets_spec column) as (Hnd & Hel & Hlen).
  exists (length (collect_author_sets column)),
    (sorted_str (author_set_string frozenset_iter
                   <$> set_iter (collect_author_sets column))),
    (collect_author_sets column).
  assert (sorted_str (author_set_string frozenset_iter
                        <$> set_iter (collect_author_sets column))
          ≡ₚ display <$> collect_author_sets column) as Hperm.
  { unfold sorted_str. rewrite merge_sort_Permutation, Hset.
    assert (author_set_string frozenset_iter <$> collect_author_sets column
            = display <$> collect_author_sets column) as ->; [|done].
    apply list_fmap_ext. intros _ aset _. by apply author_set_string_display. }
  split_and!; [done..| | | |]; try done.
  - by rewrite Hperm, length_fmap.
  - apply Sorted_merge_sort; apply _.
Qed.

(** X16.  The result of [count_unique_author_sets] does not depend on the
    order in which CPython enumerates the set of author sets or the names
    of a [frozenset]. *)
Theorem author_sets_order_independent
    (set_iter1 set_iter2 : list author_set → list author_set)
    (frozenset_iter1 frozenset_iter2 : author_set → list string)
    (column : list (option author_set)) :
  (∀ l, set_iter1 l ≡ₚ l) → (∀ l, set_iter2 l ≡ₚ l) →
  (∀ s, frozenset_iter1 s ≡ₚ elements s) → (∀ s, frozenset_iter2 s ≡ₚ elements s) →
  count_unique_author_sets set_iter1 frozenset_iter1 column =
  count_unique_author_sets set_iter2 frozenset_iter2 column.
Proof.
  intros Hs1 Hs2 Hf1 Hf2. unfold count_unique_author_sets. f_equal.
  apply sorted_str_perm. rewrite Hs1, Hs2.
  assert (author_set_string frozenset_iter1 <$> collect_author_sets column
          = author_set_string frozenset_iter2 <$> collect_author_sets column) as ->;
    [|done].
  apply list_fmap_ext. intros _ aset _. by rewrite !author_set_string_display.
Qed.

Lemma author_sets_counted_witness :
  let column : list (option author_set) :=
    [Some {["john"%string]}; Some {["john"%string; "paul"%string]}; None;
     Some {["paul"%string]}; Some {["john"%string]}] in
  (∀ l : list author_set, l ≡ₚ l) ∧
  (∀ s : author_set, elements s ≡ₚ elements s) ∧
  ∃ count strings sets,
    count_unique_author_sets (λ l, l) elements column = (count, strings) ∧
    NoDup sets ∧ (∀ aset, aset ∈ sets ↔ Some aset ∈ column) ∧
    count = length sets ∧ length strings = count.
Proof.
  intros column.
  split; [intros l; reflexivity|]. split; [intros s; reflexivity|].
  destruct (author_sets_counted (λ l, l) elements column
              (λ l, reflexivity l) (λ s, reflexivity (elements s)))
    as (count & strings & sets & Hc & Hnd & Hel & Hlen & Hlen' & _).
  exists count, strings, sets.
  split_and!; [exact Hc | exact Hnd | exact Hel | exact Hlen | exact Hlen'].
Defined.

Lemma author_sets_order_independent_witness :
  let column : list (option author_set) :=
    [Some {["john"%string]}; Some {["john"%string; "paul"%string]}; None;
     Some {["paul"%string]}] in
  (∀ l : list author_set, l ≡ₚ l) ∧ (∀ l : list author_set, reverse l ≡ₚ l) ∧
  (∀ s : author_set, elements s ≡ₚ elements s) ∧
  (∀ s : author_set, reverse (elements s) ≡ₚ elements s) ∧
  count_unique_author_sets (λ l, l) elements column =
  count_unique_author_sets reverse (λ s, reverse (elements s)) column.
Proof.
  intros column.
  split; [intros l; reflexivity|]. split; [apply reverse_Permutation|].
  split; [intros s; reflexivity|]. split; [intros s; apply reverse_Permutation|].
  exact (author_sets_order_independent (λ l, l) reverse elements
           (λ s, reverse (elements s)) column
           (λ l, reflexivity l) reverse_Permutation
           (λ s, reflexivity (elements s)) (λ s, reverse_Permutation (elements s))).
Defined.

(** ** After [get_groups] *)

Section flat_facts.
Implicit Types (uf : UnionFind) (P : list (Z * Z)) (x y r : Z) (n h : nat).

Lemma dict_set_same {V} (d : list (Z * V)) k v :
  dict_get k d = Some v → dict_set k v d = d.
Proof.
  induction d as [|[k0 v0] d IH]; simpl; [done|].
  case_decide; intros ?; simplify_eq; [done|]. by rewrite IH.
Qed.

(** On an identifier that points at its root, [find] needs two levels of
    recursion and changes nothing. *)
Lemma find_flat_id fuel uf x :
  flat (parent uf) x →
  ∃ r, find (S (S fuel)) uf x = Ok (uf, r) ∧ dict_get x (parent uf) = Some r.
Proof.
  intros (r & Hx & Hr). exists r. split; [|done].
  rewrite (find_seen _ _ _ _ Hx). case_decide as Hne.
  - rewrite (find_seen _ _ _ _ Hr). rewrite decide_False by auto. cbn.
    rewrite (dict_set_same _ _ _ Hx). by destruct uf.
  - assert (r = x) as -> by by destruct (decide (r = x)). done.
Qed.

Lemma get_groups_loop_flat_id fuel ks uf groups :
  (∀ x, x ∈ ks → flat (parent uf) x) →
  ∃ g, get_groups_loop (S (S fuel)) ks uf groups = Ok (uf, g).
Proof.
  revert groups. induction ks as [|x ks IH]; intros groups Hks; [by eexists|].
  destruct (find_flat_id fuel uf x) as (r & Hf & _); [apply Hks; left|].
  cbn [get_groups_loop]. rewrite Hf. cbn [mbind res_bind].
  rewrite decide_True by done. apply IH. intros y ?. apply Hks. by right.
Qed.
End flat_facts.

(** X17.  [get_groups] is idempotent: called again on the structure it
    left, with room for two levels of recursion only, it returns the same
    groups and leaves the structure as it is; and so does every [find] of
    a seen identifier. *)
Theorem get_groups_idempotent (ops : list uf_op) (k : nat) :
  let fuel := S (union_calls ops + k) in
  ∃ uf uf' groups,
    run_ops fuel ops UnionFind_init = Ok uf ∧
    get_groups fuel uf = Ok (uf', groups) ∧
    get_groups 2 uf' = Ok (uf', groups) ∧
    ∀ x, x ∈ dict_keys (parent uf) →
         ∃ r, find 2 uf' x = Ok (uf', r) ∧ rootR (parent uf) x r.
Proof.
  intros fuel.
  assert (union_calls ops < fuel)%nat as Hfuel by (unfold fuel; lia).
  destruct (run_ops_init fuel ops Hfuel) as (uf & Hrun & Hinv & _).
  destruct (get_groups_spec fuel uf _ Hinv Hfuel)
    as (P' & groups & Hg & Hinv' & Hc & _).
  set (uf' := mkUF P' (rank uf)) in *.
  assert (Hflat : ∀ x, x ∈ dict_keys (parent uf) → flat (parent uf') x).
  { intros x Hx.
    exact (get_groups_loop_flat fuel (dict_keys (parent uf)) uf [] _ _ _
             Hinv Hfuel ltac:(done) Hg x ltac:(by left)). }
  assert (Hk : dict_keys (parent uf') = dict_keys (parent uf)) by by destruct Hc.
  exists uf, uf', groups. split_and!; [done | done | |].
  - unfold get_groups. rewrite Hk.
    destruct (get_groups_loop_flat_id 0 (dict_keys (parent uf)) uf' [] Hflat) as [g Hg2].
    rewrite Hg2. do 2 f_equal.
    destruct (get_groups_loop_det fuel (dict_keys (parent uf)) uf uf' [] _ _
                Hinv Hinv' Hfuel Hfuel) as (u1 & u2 & g' & Hl1 & Hl2); [|done|done|].
    { intros z r. by apply compress_rootR. }
    unfold get_groups in Hg. rewrite Hg in Hl1. simplify_eq.
    apply (get_groups_loop_fuel_mono _ (fuel + 2)) in Hl2; [|lia].
    apply (get_groups_loop_fuel_mono _ (fuel + 2)) in Hg2; [|lia].
    congruence.
  - intros x Hx. destruct (find_flat_id 0 uf' x (Hflat x Hx)) as (r & Hf & Hxr).
    exists r. split; [done|].
    apply (compress_rootR _ _ _ _ Hc). left.
    destruct (Hflat x Hx) as (r' & Hxr' & Hr'). simplify_eq.
    destruct (decide (r = x)) as [-> | Hne].
    + exists 0%nat. by apply repr_root.
    + exists 1%nat. eapply repr_step; [done | done | by apply repr_root].
Qed.

(** ** Repeated identifiers *)

Section user_data_facts.
Lemma user_data_last users u :
  dict_get u (build_user_data users)
  = row_fields <$> last (filter (λ r, row_id r = u) users).
Proof.
  unfold build_user_data.
  induction users as [|r users IH] using rev_ind; [done|].
  rewrite foldl_app, filter_app. simpl. rewrite dict_get_set, filter_cons, filter_nil.
  case_decide as Hid.
  - by rewrite last_snoc.
  - by rewrite app_nil_r.
Qed.
End user_data_facts.

(** X18.  When an identifier occurs on several rows of the users table,
    step 5 judges it by its last row: the pair is unioned exactly when the
    last row of the one identifier and the last row of the other agree on
    at least three fields.  A pair with an identifier of no row raises
    [KeyError]. *)
Theorem dedup_judges_last_rows (fuel : nat) (users : list user_row)
    (uf : UnionFind) (a b : Z) :
  judge_pair fuel (build_user_data users) uf (a, b) =
    match last (filter (λ r, row_id r = a) users),
          last (filter (λ r, row_id r = b) users) with
    | Some r1, Some r2 =>
        if decide (3 ≤ spec_match_count r1 r2)%nat
        then union fuel uf a b else Ok uf
    | _, _ => Raise KeyError
    end.
Proof.
  unfold judge_pair, dict_index. rewrite !user_data_last.
  destruct (last (filter (λ r, row_id r = a) users)) as [r1|]; simpl; [|done].
  destruct (last (filter (λ r, row_id r = b) users)) as [r2|]; simpl; [|done].
  rewrite count_matches_spec. repeat case_decide; try done; lia.
Qed.

(** * The threshold and the candidate set in the whole run *)

Section whole_run_facts.
Implicit Types (users : list user_row) (r : user_row).

Lemma users_id_inj users r r' :
  NoDup (row_id <$> users) → r ∈ users → r' ∈ users → row_id r = row_id r' → r = r'.
Proof.
  intros Hnd [i Hi]%list_elem_of_lookup [j Hj]%list_elem_of_lookup Hid.
  assert (i = j) as ->; [|congruence].
  eapply NoDup_lookup; [done| |]; rewrite list_lookup_fmap.
  - by rewrite Hi.
  - rewrite Hj. simpl. by rewrite Hid.
Qed.

(** A chain between two different points leaves the first one. *)
Lemma rtsc_first_step (R : relation Z) x y :
  rtsc R x y → x ≠ y → ∃ z, z ≠ x ∧ (R x z ∨ R z x).
Proof.
  induction 1 as [x | x z y Hxz _ IH]; intros Hne; [done|].
  destruct (decide (z = x)) as [-> | Hz]; [by apply IH|].
  exists z. split; [done|]. by destruct Hxz; [left | right].
Qed.

Lemma elem_of_union_ops user_data pairs a b :
  OpUnion a b ∈ union_ops user_data pairs ↔
    (a, b) ∈ pairs ∧ judged user_data (a, b) = true.
Proof.
  unfold union_ops. rewrite list_elem_of_fmap. split.
  - intros ([a' b'] & [= -> ->] & [? ?]%list_elem_of_filter). done.
  - intros [? ?]. exists (a, b). split; [done|]. by apply list_elem_of_filter.
Qed.

Lemma matched_records users a b :
  NoDup (row_id <$> users) →
  matched users a b ↔
    ∃ r1 r2, r1 ∈ users ∧ r2 ∈ users ∧ a = row_id r1 ∧ b = row_id r2 ∧
             (a, b) ∈ potential_pairs (build_indexes users) ∧
             (3 ≤ spec_match_count r1 r2)%nat.
Proof.
  intros Hnd. split.
  - intros Hm. pose proof Hm as [Hin _].
    destruct (matched_same_person users a b Hm) as (r1 & r2 & ? & ? & <- & <- & ?).
    exists r1, r2. done.
  - intros (r1 & r2 & H1 & H2 & -> & -> & Hin & Hc). split; [done|].
    exists (row_fields r1), (row_fields r2).
    rewrite !build_user_data_lookup, count_matches_spec by done.
    split_and!; [done..|lia].
Qed.

Lemma singleton_of_all (ms : list Z) x :
  NoDup ms → x ∈ ms → (∀ y, y ∈ ms → y = x) → ms = [x].
Proof.
  intros Hnd Hx Hall.
  destruct ms as [|a ms]; [by apply elem_of_nil in Hx|].
  rewrite (Hall a) in * by left. f_equal.
  destruct ms as [|b ms]; [done|]. apply NoDup_cons in Hnd as [Hnot _].
  destruct Hnot. rewrite (Hall b) by (right; left). left.
Qed.
End whole_run_facts.

(** C1.  In [deduplicate_users] on records with pairwise distinct
    identifiers: the loop body of step 5 calls [union] on a pair of records
    exactly when at least 3 of the four fields are present on both sides
    and equal, so a pair agreeing on exactly 2 such fields, or with fewer
    than 3 comparable fields, is not unioned; the [union] calls of the
    whole loop are those on the candidate pairs with at least 3 such
    fields; and two records come back in one group exactly when a chain of
    records, each agreeing with the next on at least 3 fields, links them.
    Two records below the threshold can therefore share a group, but only
    when the first agrees on at least 3 fields with a third record. *)
Theorem dedup_merge_threshold (set_order : list (Z * Z) → list (Z * Z))
    (users : list user_row) (k : nat) :
  (∀ l, set_order l ≡ₚ l) → NoDup (row_id <$> users) →
  let pairs := potential_pairs (build_indexes users) in
  let user_data := build_user_data users in
  let fuel := S (length pairs + k) in
  (∀ uf r1 r2, r1 ∈ users → r2 ∈ users →
     count_matches (row_fields r1) (row_fields r2) = Z.of_nat (spec_match_count r1 r2) ∧
     judge_pair fuel user_data uf (row_id r1, row_id r2) =
       (if decide (3 ≤ spec_match_count r1 r2)%nat
        then union fuel uf (row_id r1) (row_id r2) else Ok uf) ∧
     (spec_match_count r1 r2 = 2%nat →
      judge_pair fuel user_data uf (row_id r1, row_id r2) = Ok uf) ∧
     ((comparable_count r1 r2 < 3)%nat →
      judge_pair fuel user_data uf (row_id r1, row_id r2) = Ok uf)) ∧
  (∀ uf, judge_pairs fuel user_data (set_order pairs) uf =
         run_ops fuel (union_ops user_data (set_order pairs)) uf) ∧
  (∀ a b, OpUnion a b ∈ union_ops user_data (set_order pairs) ↔
     ∃ r1 r2, r1 ∈ users ∧ r2 ∈ users ∧ a = row_id r1 ∧ b = row_id r2 ∧
              (a, b) ∈ pairs ∧ (3 ≤ spec_match_count r1 r2)%nat) ∧
  ∃ count user_groups,
    deduplicate_users set_order fuel users = Ok (count, user_groups) ∧
    ∀ r1 r2, r1 ∈ users → r2 ∈ users →
      ((∃ c ms, (c, ms) ∈ user_groups ∧ row_id r1 ∈ ms ∧ row_id r2 ∈ ms) ↔
       rtsc (same_person users) (row_id r1) (row_id r2)) ∧
      ((spec_match_count r1 r2 < 3)%nat → row_id r1 ≠ row_id r2 →
       (∃ c ms, (c, ms) ∈ user_groups ∧ row_id r1 ∈ ms ∧ row_id r2 ∈ ms) →
       ∃ r3, r3 ∈ users ∧ row_id r3 ≠ row_id r1 ∧ row_id r3 ≠ row_id r2 ∧
             (3 ≤ spec_match_count r1 r3)%nat).
Proof.
  intros Hperm Hnd pairs user_data fuel. split_and!.
  - intros uf r1 r2 H1 H2.
    apply judge_threshold; by apply build_user_data_lookup.
  - intros uf. apply judge_pairs_run.
    intros q Hq. rewrite Hperm in Hq. apply pair_ids in Hq.
    unfold user_data. by rewrite !build_user_data_keys.
  - intros a b. rewrite elem_of_union_ops, Hperm. unfold pairs, user_data.
    rewrite <- (matched_records users a b Hnd). split.
    + intros [Hin Hj]. by apply judged_matched.
    + intros Hm. pose proof Hm as [Hin _]. split; [done|]. by apply judged_matched.
  - destruct (dedup_entries set_order Hperm fuel users ltac:(unfold fuel, pairs; lia))
      as (count & ug & Hd & _ & Hcover & _ & Hrel).
    exists count, ug. split; [done|]. intros r1 r2 H1 H2.
    assert (Hiff : (∃ c ms, (c, ms) ∈ ug ∧ row_id r1 ∈ ms ∧ row_id r2 ∈ ms) ↔
                   rtsc (same_person users) (row_id r1) (row_id r2)).
    { rewrite <- rtsc_matched_same_person by done. split.
      - intros (c & ms & Hin & Hxm & Hym). by apply (Hrel c ms _ _ Hin Hxm).
      - intros Hxy. destruct (Hcover (row_id r1)) as (c & ms & Hin & Hxm).
        { by apply list_elem_of_fmap_2. }
        exists c, ms. split_and!; [done..|]. by apply (Hrel c ms _ _ Hin Hxm). }
    split; [done|]. intros Hlt Hne Hsame. apply Hiff in Hsame.
    destruct (rtsc_first_step _ _ _ Hsame Hne) as (z & Hz & Hstep).
    assert (same_person users (row_id r1) z) as (r1' & r3 & H1' & H3 & Hid1 & Hid3 & Hc).
    { destruct Hstep; [done | by apply same_person_sym]. }
    rewrite (users_id_inj users r1' r1 Hnd H1' H1 Hid1) in Hc.
    exists r3. split_and!; [done | congruence | | done].
    intros Hid. rewrite (users_id_inj users r3 r2 Hnd H3 H2 Hid) in Hc. lia.
Qed.

(** C4.  The candidate pairs are a set (no pair occurs twice, so each is
    judged once); a pair is in it exactly when it is
    [(min(id1, id2), max(id1, id2))] for two records at different positions
    that share a present value of one of the four fields.  Step 5 runs over
    this set only: every [union] call it makes is on a candidate pair.  Two
    identifiers that come back in one group are linked by a chain of
    candidate pairs, so an identifier that occurs in no candidate pair is
    alone in its group; two records sharing no field value can still share
    a group through such a chain. *)
Theorem candidate_pairs_only (set_order : list (Z * Z) → list (Z * Z))
    (users : list user_row) (k : nat) :
  (∀ l, set_order l ≡ₚ l) →
  let pairs := potential_pairs (build_indexes users) in
  let user_data := build_user_data users in
  let fuel := S (length pairs + k) in
  NoDup pairs ∧
  (∀ a b, (a, b) ∈ pairs ↔
     ∃ i j r1 r2,
       (i < j)%nat ∧ users !! i = Some r1 ∧ users !! j = Some r2 ∧
       shares_field r1 r2 ∧
       a = Z.min (row_id r1) (row_id r2) ∧ b = Z.max (row_id r1) (row_id r2)) ∧
  (∀ a b, (a, b) ∈ pairs → a ≤ b) ∧
  NoDup (set_order pairs) ∧
  (∀ uf, judge_pairs fuel user_data (set_order pairs) uf =
         run_ops fuel (union_ops user_data (set_order pairs)) uf) ∧
  (∀ a b, OpUnion a b ∈ union_ops user_data (set_order pairs) → (a, b) ∈ pairs) ∧
  ∃ count user_groups,
    deduplicate_users set_order fuel users = Ok (count, user_groups) ∧
    (∀ c ms x y, (c, ms) ∈ user_groups → x ∈ ms → y ∈ ms →
       rtsc (λ a b, (a, b) ∈ pairs) x y) ∧
    (∀ c ms x, (c, ms) ∈ user_groups → x ∈ ms →
       (∀ a b, (a, b) ∈ pairs → a ≠ x ∧ b ≠ x) → c = x ∧ ms = [x]).
Proof.
  intros Hperm pairs user_data fuel.
  destruct (potential_pairs_exact users) as (Hnd & Hiff & Hle).
  split_and!; [done | done | done | by rewrite Hperm | | |].
  - intros uf. apply judge_pairs_run.
    intros q Hq. rewrite Hperm in Hq. apply pair_ids in Hq.
    unfold user_data. by rewrite !build_user_data_keys.
  - intros a b [Hin _]%elem_of_union_ops. by rewrite Hperm in Hin.
  - destruct (dedup_entries set_order Hperm fuel users ltac:(unfold fuel, pairs; lia))
      as (count & ug & Hd & _ & _ & Hent & Hrel).
    exists count, ug. split; [done|].
    assert (Hchain : ∀ c ms x y, (c, ms) ∈ ug → x ∈ ms → y ∈ ms →
                       rtsc (λ a b, (a, b) ∈ pairs) x y).
    { intros c ms x y Hin Hx Hy. apply (Hrel c ms x y Hin Hx) in Hy.
      eapply rtsc_sub; [|done]. intros a b [Hab _]. by apply rtsc_lr. }
    split; [done|]. intros c ms x Hin Hx Hno.
    destruct (Hent c ms Hin) as (Hc & Hndm & _).
    assert (Hall : ∀ y, y ∈ ms → y = x).
    { intros y Hy. destruct (decide (y = x)) as [|Hne]; [done | exfalso].
      destruct (rtsc_first_step _ x y (Hchain c ms x y Hin Hx Hy) ltac:(done))
        as (z & _ & [Hp | Hp]); destruct (Hno _ _ Hp); done. }
    split; [by apply Hall | by apply singleton_of_all].
Qed.

(** A pair agreeing on exactly 2 fields can be merged: the records
    [chain_1] and [chain_3] are a candidate pair, agree on exactly 2 fields
    and are not unioned by step 5, yet they come back in one group, through
    [chain_2]. *)
Lemma below_threshold_merged :
  (1, 3) ∈ potential_pairs (build_indexes [chain_1; chain_2; chain_3]) ∧
  spec_match_count chain_1 chain_3 = 2%nat ∧
  judge_pair 4 (build_user_data [chain_1; chain_2; chain_3]) UnionFind_init (1, 3)
    = Ok UnionFind_init ∧
  deduplicate_users (λ l, l) 4 [chain_1; chain_2; chain_3]
    = Ok (1%nat, [(1, [1; 2; 3])]).
Proof.
  split_and!.
  - apply list_elem_of_In. vm_compute. tauto.
  - vm_compute. reflexivity.
  - vm_compute. reflexivity.
  - vm_compute. reflexivity.
Qed.

(** A pair sharing no field value can be merged: the records [drift_1]
    and [drift_5] share no field value and are no candidate pair, yet they
    come back in one group. *)
Lemma no_shared_field_merged :
  ¬ shares_field drift_1 drift_5 ∧
  ((1, 5) ∉ potential_pairs (build_indexes [drift_1; drift_2; drift_3; drift_4; drift_5])) ∧
  deduplicate_users (λ l, l) 10 [drift_1; drift_2; drift_3; drift_4; drift_5]
    = Ok (1%nat, [(1, [1; 2; 3; 4; 5])]).
Proof.
  split_and!.
  - intros (f & Hf & _ & Heq). unfold field_getters in Hf.
    repeat (apply elem_of_cons in Hf as [-> | Hf]); [..|by apply elem_of_nil in Hf];
      discriminate.
  - intros Hin%list_elem_of_In. vm_compute in Hin.
    repeat (destruct Hin as [Hin | Hin]; [discriminate|]). done.
  - vm_compute. reflexivity.
Qed.

Lemma dedup_merge_threshold_witness :
  (∀ l : list (Z * Z), l ≡ₚ l) ∧
  NoDup (row_id <$> [chain_1; chain_2; chain_3]) ∧
  ∃ count user_groups,
    deduplicate_users (λ l, l) 4 [chain_1; chain_2; chain_3] = Ok (count, user_groups) ∧
    ∀ r1 r2, r1 ∈ [chain_1; chain_2; chain_3] → r2 ∈ [chain_1; chain_2; chain_3] →
      (∃ c ms, (c, ms) ∈ user_groups ∧ row_id r1 ∈ ms ∧ row_id r2 ∈ ms) ↔
      rtsc (same_person [chain_1; chain_2; chain_3]) (row_id r1) (row_id r2).
Proof.
  assert (NoDup (row_id <$> [chain_1; chain_2; chain_3])) as Hnd.
  { repeat (apply NoDup_cons; split; [by intros ?%list_elem_of_In; simpl in *; intuition lia|]).
    apply NoDup_nil_2. }
  split; [intros l; reflexivity|]. split; [exact Hnd|].
  destruct (dedup_merge_threshold (λ l, l) [chain_1; chain_2; chain_3] 0
              (λ l, reflexivity l) Hnd) as (_ & _ & _ & count & ug & Hd & Hall).
  exists count, ug. split; [exact Hd|].
  intros r1 r2 H1 H2. exact (proj1 (Hall r1 r2 H1 H2)).
Defined.

Lemma candidate_pairs_only_witness :
  (∀ l : list (Z * Z), l ≡ₚ l) ∧
  ∃ count user_groups,
    deduplicate_users (λ l, l) 10 [drift_1; drift_2; drift_3; drift_4; drift_5]
      = Ok (count, user_groups) ∧
    ∀ c ms x y, (c, ms) ∈ user_groups → x ∈ ms → y ∈ ms →
      rtsc (λ a b, (a, b) ∈ potential_pairs
                     (build_indexes [drift_1; drift_2; drift_3; drift_4; drift_5])) x y.
Proof.
  split; [intros l; reflexivity|].
  destruct (candidate_pairs_only (λ l, l) [drift_1; drift_2; drift_3; drift_4; drift_5] 0
              (λ l, reflexivity l)) as (_ & _ & _ & _ & _ & _ & count & ug & Hd & Hch & _).
  exists count, ug. split; [exact Hd | exact Hch].
Defined.
